(** * AES-256 converter: a shallow embedding of [src/utils/aes]

    The JavaScript sources embedded here are
    - [galoisField.js]      (GF(2^8) multiplications),
    - [transformations.js]  (SubBytes, ShiftRows, MixColumns, AddRoundKey and inverses),
    - [utils.js]            (hex conversion, padding, state matrices),
    - [keyExpansion.js]     (the AES-256 key schedule),
    - [encryption.js] / [decryption.js] (block and stream orchestration),
    - [RoundDetailsViewer.jsx] (the grouping of the cipher text for display).

    Arrays are lists, the numbers they hold are integers of [Z], and a read
    outside an array yields [Undefined] exactly as in JavaScript.  Exceptions
    are values of a small error monad. *)

From Stdlib Require Import ZArith String Ascii Lia Bool Arith List.
From Stdlib Require Import HexadecimalString.
From AAC_tactics Require Import AAC.
Import ListNotations.
Local Open Scope string_scope.
Local Open Scope list_scope.
Local Open Scope Z_scope.

(* ====================================================================== *)
(** ** JavaScript values, exceptions *)
(* ====================================================================== *)

(** What an array cell can hold: an (integer) number, or [undefined] when the
    cell is read past the end of its array. *)
Inductive val : Type :=
| Num (n : Z)
| Undefined.

(** [throw new Error(msg)] and the [TypeError] raised by a property access on
    [undefined]. *)
Inductive exn : Type :=
| Error (message : string)
| TypeError.

Inductive result (A : Type) : Type :=
| Ok (a : A)
| Throw (e : exn).
Arguments Ok {A} a.
Arguments Throw {A} e.

Definition bind {A B : Type} (m : result A) (k : A -> result B) : result B :=
  match m with
  | Ok a => k a
  | Throw e => Throw e
  end.

Notation "x <- m ;; k" := (bind m (fun x => k))
  (at level 61, m at next level, right associativity).
Notation "' p <- m ;; k" := (bind m (fun p => k))
  (at level 61, p pattern, m at next level, right associativity).

(** [arr.map(f)] where [f] may throw: the first exception wins. *)
Fixpoint mapM {A B : Type} (f : A -> result B) (l : list A) : result (list B) :=
  match l with
  | [] => Ok []
  | a :: l' => b <- f a ;; bs <- mapM f l' ;; Ok (b :: bs)
  end.

(** A [for] loop whose body may throw, threading the loop-carried variables. *)
Fixpoint foldM {A S : Type} (body : S -> A -> result S) (l : list A) (s : S)
  : result S :=
  match l with
  | [] => Ok s
  | a :: l' => s' <- body s a ;; foldM body l' s'
  end.

(* ---------------------------------------------------------------------- *)
(** *** Bitwise operators

    JavaScript's [^], [&] and [<<] first convert their operands with ToInt32
    ([undefined] becomes 0) and return a signed 32-bit integer. *)

Definition wrap32 (n : Z) : Z := (n + 2^31) mod 2^32 - 2^31.

Definition toInt32 (v : val) : Z :=
  match v with
  | Num n => wrap32 n
  | Undefined => 0
  end.

Definition bxor (a b : val) : val := Num (Z.lxor (toInt32 a) (toInt32 b)).
Definition band (a b : val) : val := Num (Z.land (toInt32 a) (toInt32 b)).
Definition shl (a : val) (k : Z) : val := Num (wrap32 (Z.shiftl (toInt32 a) k)).

(** [a >> k]: ToInt32 of the operand, then a sign-propagating shift. *)
Definition sar (a : val) (k : Z) : val := Num (Z.shiftr (toInt32 a) k).

(** Truthiness of a value in an [if]. *)
Definition truthy (v : val) : bool :=
  match v with
  | Num n => negb (n =? 0)
  | Undefined => false
  end.

(** [a === b] (and [a !== b] as its negation). *)
Definition strictEq (a b : val) : bool :=
  match a, b with
  | Num x, Num y => x =? y
  | Undefined, Undefined => true
  | _, _ => false
  end.

(* ---------------------------------------------------------------------- *)
(** *** Arrays *)

(** [arr[i]] for a natural index. *)
Definition get (arr : list val) (i : nat) : val := nth i arr Undefined.

(** [arr[i]] for a possibly negative index ([arr[-1]] is [undefined]). *)
Definition getZ (arr : list val) (i : Z) : val :=
  if i <? 0 then Undefined else get arr (Z.to_nat i).

(** [table[v]] for a table of numbers indexed by a value. *)
Definition index (table : list Z) (v : val) : val :=
  match v with
  | Num n =>
      if (0 <=? n) && (n <? Z.of_nat (length table))
      then Num (nth (Z.to_nat n) table 0)
      else Undefined
  | Undefined => Undefined
  end.

(** [arr.slice(start, end)]: negative arguments count from the end, and both
    are clamped to the array. *)
Definition relIndex (len k : Z) : Z :=
  if k <? 0 then Z.max (len + k) 0 else Z.min k len.

Definition slice {A : Type} (arr : list A) (start stop : Z) : list A :=
  let len := Z.of_nat (length arr) in
  let s := relIndex len start in
  let e := relIndex len stop in
  firstn (Z.to_nat (e - s)) (skipn (Z.to_nat s) arr).

(** [arr[i] = x] on an existing cell.  (JavaScript would grow the array for an
    index past its end; no array of this program is written out of range.) *)
Fixpoint update {A : Type} (l : list A) (i : nat) (x : A) : list A :=
  match l, i with
  | [], _ => []
  | _ :: t, O => x :: t
  | h :: t, S j => h :: update t j x
  end.

(** [arr.map((x, idx) => f(x, idx))]. *)
Fixpoint mapiFrom {A B : Type} (f : A -> nat -> B) (k : nat) (l : list A) : list B :=
  match l with
  | [] => []
  | a :: l' => f a k :: mapiFrom f (S k) l'
  end.
Definition mapi {A B : Type} (f : A -> nat -> B) (l : list A) : list B :=
  mapiFrom f 0 l.

(** The number of iterations of [for (let i = 0; i < len; i += 16)], which is
    also the number of integers [i] with [i < len / 16]. *)
Definition blockCount (len : nat) : nat := ((len + 15) / 16)%nat.

(* ---------------------------------------------------------------------- *)
(** *** Number formatting *)

(** [n.toString(16)] for an integer. *)
Definition toString16 (n : Z) : string :=
  NilZero.string_of_int (Z.to_hex_int n).

(** [s.padStart(2, '0')]. *)
Definition padStart2 (s : string) : string :=
  match s with
  | String c EmptyString => String "0"%char (String c EmptyString)
  | EmptyString => "00"
  | _ => s
  end.

(** [byte.toString(16).padStart(2, '0')]; [undefined.toString] is a TypeError. *)
Definition hexByte (v : val) : result string :=
  match v with
  | Num n => Ok (padStart2 (toString16 n))
  | Undefined => Throw TypeError
  end.

(* ====================================================================== *)
(** ** constants.js *)
(* ====================================================================== *)

(** Modelled from the spec: [constants.js] is not among the sources.  A block
    is "exactly 16 bytes". *)
Definition BLOCK_SIZE : nat := 16.

(** Modelled from the spec: "the first 8 Words are taken directly from the
    key"; the comments of [keyExpansion.js] say the same ("Every 8th word"). *)
Definition KEY_SIZE_WORDS : nat := 8.

(** Modelled from the spec: the "prescribed 14-round sequence"; the comments
    of [keyExpansion.js] say the same ("60 words", "15 round keys"). *)
Definition NUMBER_OF_ROUNDS : nat := 14.

(** Modelled from the spec: [constants.js] is not among the sources; the
    substitution table is the standard FIPS-197 S-box, reproduced
    "bit-for-bit". *)
Definition S_BOX : list Z := [
    0x63; 0x7c; 0x77; 0x7b; 0xf2; 0x6b; 0x6f; 0xc5; 0x30; 0x01; 0x67; 0x2b; 0xfe; 0xd7; 0xab; 0x76;
    0xca; 0x82; 0xc9; 0x7d; 0xfa; 0x59; 0x47; 0xf0; 0xad; 0xd4; 0xa2; 0xaf; 0x9c; 0xa4; 0x72; 0xc0;
    0xb7; 0xfd; 0x93; 0x26; 0x36; 0x3f; 0xf7; 0xcc; 0x34; 0xa5; 0xe5; 0xf1; 0x71; 0xd8; 0x31; 0x15;
    0x04; 0xc7; 0x23; 0xc3; 0x18; 0x96; 0x05; 0x9a; 0x07; 0x12; 0x80; 0xe2; 0xeb; 0x27; 0xb2; 0x75;
    0x09; 0x83; 0x2c; 0x1a; 0x1b; 0x6e; 0x5a; 0xa0; 0x52; 0x3b; 0xd6; 0xb3; 0x29; 0xe3; 0x2f; 0x84;
    0x53; 0xd1; 0x00; 0xed; 0x20; 0xfc; 0xb1; 0x5b; 0x6a; 0xcb; 0xbe; 0x39; 0x4a; 0x4c; 0x58; 0xcf;
    0xd0; 0xef; 0xaa; 0xfb; 0x43; 0x4d; 0x33; 0x85; 0x45; 0xf9; 0x02; 0x7f; 0x50; 0x3c; 0x9f; 0xa8;
    0x51; 0xa3; 0x40; 0x8f; 0x92; 0x9d; 0x38; 0xf5; 0xbc; 0xb6; 0xda; 0x21; 0x10; 0xff; 0xf3; 0xd2;
    0xcd; 0x0c; 0x13; 0xec; 0x5f; 0x97; 0x44; 0x17; 0xc4; 0xa7; 0x7e; 0x3d; 0x64; 0x5d; 0x19; 0x73;
    0x60; 0x81; 0x4f; 0xdc; 0x22; 0x2a; 0x90; 0x88; 0x46; 0xee; 0xb8; 0x14; 0xde; 0x5e; 0x0b; 0xdb;
    0xe0; 0x32; 0x3a; 0x0a; 0x49; 0x06; 0x24; 0x5c; 0xc2; 0xd3; 0xac; 0x62; 0x91; 0x95; 0xe4; 0x79;
    0xe7; 0xc8; 0x37; 0x6d; 0x8d; 0xd5; 0x4e; 0xa9; 0x6c; 0x56; 0xf4; 0xea; 0x65; 0x7a; 0xae; 0x08;
    0xba; 0x78; 0x25; 0x2e; 0x1c; 0xa6; 0xb4; 0xc6; 0xe8; 0xdd; 0x74; 0x1f; 0x4b; 0xbd; 0x8b; 0x8a;
    0x70; 0x3e; 0xb5; 0x66; 0x48; 0x03; 0xf6; 0x0e; 0x61; 0x35; 0x57; 0xb9; 0x86; 0xc1; 0x1d; 0x9e;
    0xe1; 0xf8; 0x98; 0x11; 0x69; 0xd9; 0x8e; 0x94; 0x9b; 0x1e; 0x87; 0xe9; 0xce; 0x55; 0x28; 0xdf;
    0x8c; 0xa1; 0x89; 0x0d; 0xbf; 0xe6; 0x42; 0x68; 0x41; 0x99; 0x2d; 0x0f; 0xb0; 0x54; 0xbb; 0x16
  ].

(** Modelled from the spec: [constants.js] is not among the sources; the
    second table is the "exact inverse" of the S-box. *)
Definition INVERSE_S_BOX : list Z := [
    0x52; 0x09; 0x6a; 0xd5; 0x30; 0x36; 0xa5; 0x38; 0xbf; 0x40; 0xa3; 0x9e; 0x81; 0xf3; 0xd7; 0xfb;
    0x7c; 0xe3; 0x39; 0x82; 0x9b; 0x2f; 0xff; 0x87; 0x34; 0x8e; 0x43; 0x44; 0xc4; 0xde; 0xe9; 0xcb;
    0x54; 0x7b; 0x94; 0x32; 0xa6; 0xc2; 0x23; 0x3d; 0xee; 0x4c; 0x95; 0x0b; 0x42; 0xfa; 0xc3; 0x4e;
    0x08; 0x2e; 0xa1; 0x66; 0x28; 0xd9; 0x24; 0xb2; 0x76; 0x5b; 0xa2; 0x49; 0x6d; 0x8b; 0xd1; 0x25;
    0x72; 0xf8; 0xf6; 0x64; 0x86; 0x68; 0x98; 0x16; 0xd4; 0xa4; 0x5c; 0xcc; 0x5d; 0x65; 0xb6; 0x92;
    0x6c; 0x70; 0x48; 0x50; 0xfd; 0xed; 0xb9; 0xda; 0x5e; 0x15; 0x46; 0x57; 0xa7; 0x8d; 0x9d; 0x84;
    0x90; 0xd8; 0xab; 0x00; 0x8c; 0xbc; 0xd3; 0x0a; 0xf7; 0xe4; 0x58; 0x05; 0xb8; 0xb3; 0x45; 0x06;
    0xd0; 0x2c; 0x1e; 0x8f; 0xca; 0x3f; 0x0f; 0x02; 0xc1; 0xaf; 0xbd; 0x03; 0x01; 0x13; 0x8a; 0x6b;
    0x3a; 0x91; 0x11; 0x41; 0x4f; 0x67; 0xdc; 0xea; 0x97; 0xf2; 0xcf; 0xce; 0xf0; 0xb4; 0xe6; 0x73;
    0x96; 0xac; 0x74; 0x22; 0xe7; 0xad; 0x35; 0x85; 0xe2; 0xf9; 0x37; 0xe8; 0x1c; 0x75; 0xdf; 0x6e;
    0x47; 0xf1; 0x1a; 0x71; 0x1d; 0x29; 0xc5; 0x89; 0x6f; 0xb7; 0x62; 0x0e; 0xaa; 0x18; 0xbe; 0x1b;
    0xfc; 0x56; 0x3e; 0x4b; 0xc6; 0xd2; 0x79; 0x20; 0x9a; 0xdb; 0xc0; 0xfe; 0x78; 0xcd; 0x5a; 0xf4;
    0x1f; 0xdd; 0xa8; 0x33; 0x88; 0x07; 0xc7; 0x31; 0xb1; 0x12; 0x10; 0x59; 0x27; 0x80; 0xec; 0x5f;
    0x60; 0x51; 0x7f; 0xa9; 0x19; 0xb5; 0x4a; 0x0d; 0x2d; 0xe5; 0x7a; 0x9f; 0x93; 0xc9; 0x9c; 0xef;
    0xa0; 0xe0; 0x3b; 0x4d; 0xae; 0x2a; 0xf5; 0xb0; 0xc8; 0xeb; 0xbb; 0x3c; 0x83; 0x53; 0x99; 0x61;
    0x17; 0x2b; 0x04; 0x7e; 0xba; 0x77; 0xd6; 0x26; 0xe1; 0x69; 0x14; 0x63; 0x55; 0x21; 0x0c; 0x7d
  ].

(** Modelled from the spec: [constants.js] is not among the sources; the
    round constants are "indexed 1..14", successive doublings of 0x01 in
    GF(2^8).  Index 0 is a placeholder that the key schedule never reads. *)
Definition ROUND_CONSTANTS : list Z :=
  [ 0x00; 0x01; 0x02; 0x04; 0x08; 0x10; 0x20; 0x40;
    0x80; 0x1b; 0x36; 0x6c; 0xd8; 0xab; 0x4d ].

(* ====================================================================== *)
(** ** galoisField.js *)
(* ====================================================================== *)

Definition multiplyByTwo (byte : val) : val :=
  let result := shl byte 1 in
  let result :=
    if truthy (band byte (Num 0x80)) then bxor result (Num 0x1b) else result in
  band result (Num 0xff).

Definition multiplyByThree (byte : val) : val :=
  bxor (multiplyByTwo byte) byte.

(** One iteration of the loop of [galoisMultiply], on the loop-carried
    variables [(product, tempA, tempB)]. *)
Definition galoisStep (st : val * val * val) : val * val * val :=
  let '(product, tempA, tempB) := st in
  let product :=
    if truthy (band tempB (Num 1)) then bxor product tempA else product in
  let highBitSet := band tempA (Num 0x80) in
  let tempA := shl tempA 1 in
  let tempA := if truthy highBitSet then bxor tempA (Num 0x1b) else tempA in
  let tempB := sar tempB 1 in
  (product, tempA, tempB).

Definition galoisMultiply (a b : val) : val :=
  let '(product, _, _) := Nat.iter 8 galoisStep (Num 0, a, b) in
  band product (Num 0xff).

Definition multiplyByNine (byte : val) : val :=
  bxor (multiplyByTwo (multiplyByTwo (multiplyByTwo byte))) byte.

Definition multiplyByEleven (byte : val) : val :=
  let times2 := multiplyByTwo byte in
  let times8 := multiplyByTwo (multiplyByTwo times2) in
  bxor (bxor times8 times2) byte.

Definition multiplyByThirteen (byte : val) : val :=
  let times2 := multiplyByTwo byte in
  let times4 := multiplyByTwo times2 in
  let times8 := multiplyByTwo times4 in
  bxor (bxor times8 times4) byte.

Definition multiplyByFourteen (byte : val) : val :=
  let times2 := multiplyByTwo byte in
  let times4 := multiplyByTwo times2 in
  let times8 := multiplyByTwo times4 in
  bxor (bxor times8 times4) times2.

(* ====================================================================== *)
(** ** utils.js *)
(* ====================================================================== *)

(** [bytes.map(byte => byte.toString(16).padStart(2, '0')).join('')]. *)
Definition bytesToHex (bytes : list val) : result string :=
  digits <- mapM hexByte bytes ;;
  Ok (String.concat "" digits).

(** The character class [[0-9a-fA-F]] and the value of such a digit. *)
Definition isHexDigit (c : ascii) : bool :=
  let n := nat_of_ascii c in
  ((48 <=? n) && (n <=? 57) || (97 <=? n) && (n <=? 102)
   || (65 <=? n) && (n <=? 70))%nat.

Definition hexDigitValue (c : ascii) : Z :=
  let n := Z.of_nat (nat_of_ascii c) in
  if n <=? 57 then n - 48 else if n <=? 70 then n - 55 else n - 87.

(** [hexString.replace(/[^0-9a-fA-F]/g, '')]. *)
Definition cleanHex (hexString : string) : list ascii :=
  filter isHexDigit (list_ascii_of_string hexString).

(** The loop [for (i = 0; i < cleanHex.length; i += 2)
    bytes.push(parseInt(cleanHex.substr(i, 2), 16))]: when one digit is left,
    [substr] returns it alone and [parseInt] reads it as a one-digit number. *)
Fixpoint parsePairs (digits : list ascii) : list val :=
  match digits with
  | [] => []
  | [d] => [Num (hexDigitValue d)]
  | d1 :: d2 :: rest =>
      Num (16 * hexDigitValue d1 + hexDigitValue d2) :: parsePairs rest
  end.

Definition hexToBytes (hexString : string) : list val :=
  parsePairs (cleanHex hexString).

(* ---------------------------------------------------------------------- *)
(** *** Padding *)

Definition padData (data : list val) : list val :=
  let paddingLength := (BLOCK_SIZE - (length data mod BLOCK_SIZE))%nat in
  data ++ repeat (Num (Z.of_nat paddingLength)) paddingLength.

(** The indices [1, 2, ..., n] visited by [for (let i = 1; i <= n; i++)]. *)
Definition upTo (n : Z) : list Z := map Z.of_nat (seq 1 (Z.to_nat n)).

Definition unpadData (data : list val) : result (list val) :=
  match data with
  | [] => Ok data
  | _ =>
      let len := Z.of_nat (length data) in
      match getZ data (len - 1) with
      | Num paddingLength =>
          if (paddingLength >? Z.of_nat BLOCK_SIZE) || (paddingLength =? 0)
          then Throw (Error "Invalid padding")
          else if forallb
                    (fun i => strictEq (getZ data (len - i)) (Num paddingLength))
                    (upTo paddingLength)
          then Ok (slice data 0 (len - paddingLength))
          else Throw (Error "Invalid padding")
      | Undefined =>
          (* every comparison with [undefined] is false and
             [slice(0, NaN)] is empty *)
          Ok []
      end
  end.

(* ---------------------------------------------------------------------- *)
(** *** State matrices

    A state is an array of rows.  Every state of this program is created by
    [bytesToStateMatrix] or by [expandKey] from a 4x4 array, and every
    transformation keeps that shape. *)

Definition state : Type := list (list val).

(** [state[row][col]]. *)
Definition cell (s : state) (row col : nat) : val := get (nth row s []) col.

(** [state[row][col] = v]. *)
Definition setCell (s : state) (row col : nat) (v : val) : state :=
  update s row (update (nth row s []) col v).

Definition range4 : list nat := [0; 1; 2; 3]%nat.

(** [for row < 4: for col < 4: newState[row][col] = f(row, col)]. *)
Definition assignRowsCols (f : nat -> nat -> val) (newState : state) : state :=
  fold_left
    (fun st row => fold_left (fun st col => setCell st row col (f row col)) range4 st)
    range4 newState.

(** [for col < 4: for row < 4: newState[row][col] = f(row, col)]. *)
Definition assignColsRows (f : nat -> nat -> val) (newState : state) : state :=
  fold_left
    (fun st col => fold_left (fun st row => setCell st row col (f row col)) range4 st)
    range4 newState.

(** [Array(4).fill(null).map(() => Array(4).fill(0))]. *)
Definition zeroMatrix : state := repeat (repeat (Num 0) 4) 4.

Definition bytesToStateMatrix (bytes : list val) : state :=
  assignColsRows (fun row col => get bytes (col * 4 + row)) zeroMatrix.

Definition stateMatrixToBytes (s : state) : list val :=
  flat_map (fun col => map (fun row => cell s row col) range4) range4.

Definition copyStateMatrix (s : state) : state := map (fun row => row) s.

(** [row.map(hexByte).join(' ')] for each row, joined by newlines. *)
Definition formatStateMatrix (s : state) : result string :=
  rows <- mapM (fun row => cells <- mapM hexByte row ;;
                           Ok (String.concat " " cells)) s ;;
  Ok (String.concat (String "010"%char EmptyString) rows).

(* ====================================================================== *)
(** ** transformations.js *)
(* ====================================================================== *)

Definition substituteBytes (s : state) : state :=
  assignRowsCols (fun row col => index S_BOX (cell s row col)) (copyStateMatrix s).

Definition inverseSubstituteBytes (s : state) : state :=
  assignRowsCols (fun row col => index INVERSE_S_BOX (cell s row col))
                 (copyStateMatrix s).

Definition shiftRows (s : state) : state :=
  let newState := copyStateMatrix s in
  let newState := update newState 0 (nth 0%nat s []) in
  let newState := update newState 1 [cell s 1 1; cell s 1 2; cell s 1 3; cell s 1 0] in
  let newState := update newState 2 [cell s 2 2; cell s 2 3; cell s 2 0; cell s 2 1] in
  update newState 3 [cell s 3 3; cell s 3 0; cell s 3 1; cell s 3 2].

Definition inverseShiftRows (s : state) : state :=
  let newState := copyStateMatrix s in
  let newState := update newState 0 (nth 0%nat s []) in
  let newState := update newState 1 [cell s 1 3; cell s 1 0; cell s 1 1; cell s 1 2] in
  let newState := update newState 2 [cell s 2 2; cell s 2 3; cell s 2 0; cell s 2 1] in
  update newState 3 [cell s 3 1; cell s 3 2; cell s 3 3; cell s 3 0].

Definition mixColumns (s : state) : state :=
  assignColsRows
    (fun row col =>
       let s0 := cell s 0 col in
       let s1 := cell s 1 col in
       let s2 := cell s 2 col in
       let s3 := cell s 3 col in
       match row with
       | 0%nat => bxor (bxor (bxor (multiplyByTwo s0) (multiplyByThree s1)) s2) s3
       | 1%nat => bxor (bxor (bxor s0 (multiplyByTwo s1)) (multiplyByThree s2)) s3
       | 2%nat => bxor (bxor (bxor s0 s1) (multiplyByTwo s2)) (multiplyByThree s3)
       | _ => bxor (bxor (bxor (multiplyByThree s0) s1) s2) (multiplyByTwo s3)
       end)
    (copyStateMatrix s).

Definition inverseMixColumns (s : state) : state :=
  assignColsRows
    (fun row col =>
       let s0 := cell s 0 col in
       let s1 := cell s 1 col in
       let s2 := cell s 2 col in
       let s3 := cell s 3 col in
       match row with
       | 0%nat => bxor (bxor (bxor (multiplyByFourteen s0) (multiplyByEleven s1))
                             (multiplyByThirteen s2)) (multiplyByNine s3)
       | 1%nat => bxor (bxor (bxor (multiplyByNine s0) (multiplyByFourteen s1))
                             (multiplyByEleven s2)) (multiplyByThirteen s3)
       | 2%nat => bxor (bxor (bxor (multiplyByThirteen s0) (multiplyByNine s1))
                             (multiplyByFourteen s2)) (multiplyByEleven s3)
       | _ => bxor (bxor (bxor (multiplyByEleven s0) (multiplyByThirteen s1))
                         (multiplyByNine s2)) (multiplyByFourteen s3)
       end)
    (copyStateMatrix s).

Definition addRoundKey (s roundKey : state) : state :=
  assignRowsCols (fun row col => bxor (cell s row col) (cell roundKey row col))
                 (copyStateMatrix s).

(* ====================================================================== *)
(** ** keyExpansion.js *)
(* ====================================================================== *)

Definition word : Type := list val.

Definition rotateWord (w : word) : word := [get w 1; get w 2; get w 3; get w 0].

Definition substituteWord (w : word) : word := map (index S_BOX) w.

Definition xorWords (word1 word2 : word) : word :=
  mapi (fun byte idx => bxor byte (get word2 idx)) word1.

(** One entry of [expansionDetails]; the fields that a branch of [expandKey]
    does not set are [None].  (The arrows of the first [operation] label are
    written [->] here.) *)
Record stepDetails : Type := {
  wordIndex : nat;
  operation : string;
  beforeRotate : option word;
  afterRotate : option word;
  afterSubstitute : option word;
  rconValue : option val;
  before : option word;
  stepResult : word
}.

(** [words[i]]; the schedule only reads words it has already written. *)
Definition wordAt (words : list word) (i : nat) : word := nth i words [].

(** The first loop: [words[i] = [key[4i], key[4i+1], key[4i+2], key[4i+3]]]. *)
Definition keyWords (key : list val) : list word :=
  map (fun i => [get key (4 * i); get key (4 * i + 1);
                 get key (4 * i + 2); get key (4 * i + 3)])
      (seq 0 KEY_SIZE_WORDS).

(** [temp[0] ^= rconValue]. *)
Definition xorFirst (temp : word) (rconValue : val) : word :=
  update temp 0 (bxor (get temp 0) rconValue).

(** The body of the second loop, for the index [i = words.length]. *)
Definition expandStep (acc : list word * list stepDetails) (i : nat)
  : list word * list stepDetails :=
  let '(words, expansionDetails) := acc in
  let temp := wordAt words (i - 1) in
  let '(temp, details) :=
    if (i mod KEY_SIZE_WORDS =? 0)%nat then
      let beforeRotate := temp in
      let temp := rotateWord temp in
      let afterRotate := temp in
      let temp := substituteWord temp in
      let afterSubstitute := temp in
      let rconValue := index ROUND_CONSTANTS (Num (Z.of_nat (i / KEY_SIZE_WORDS))) in
      let temp := xorFirst temp rconValue in
      (temp, fun r => {| wordIndex := i;
                         operation := "RotWord -> SubWord -> Rcon";
                         beforeRotate := Some beforeRotate;
                         afterRotate := Some afterRotate;
                         afterSubstitute := Some afterSubstitute;
                         rconValue := Some rconValue;
                         before := None;
                         stepResult := r |})
    else if (i mod KEY_SIZE_WORDS =? 4)%nat then
      (substituteWord temp,
       fun r => {| wordIndex := i; operation := "SubWord only";
                   beforeRotate := None; afterRotate := None;
                   afterSubstitute := None; rconValue := None;
                   before := Some temp; stepResult := r |})
    else
      (temp,
       fun r => {| wordIndex := i; operation := "XOR only";
                   beforeRotate := None; afterRotate := None;
                   afterSubstitute := None; rconValue := None;
                   before := None; stepResult := r |})
  in
  let w := xorWords temp (wordAt words (i - KEY_SIZE_WORDS)) in
  (words ++ [w], expansionDetails ++ [details w]).

(** The 60 words and the trace after both loops. *)
Definition expandWords (key : list val) : list word * list stepDetails :=
  let totalWords := (4 * (NUMBER_OF_ROUNDS + 1))%nat in
  fold_left expandStep
            (seq KEY_SIZE_WORDS (totalWords - KEY_SIZE_WORDS))
            (keyWords key, []).

(** The round key of [round]: word [4 * round + wordIndex] fills column
    [wordIndex]. *)
Definition roundKeyOf (words : list word) (round : nat) : state :=
  assignColsRows
    (fun byteIndex wordIndex => get (wordAt words (round * 4 + wordIndex)) byteIndex)
    zeroMatrix.

Record keySchedule : Type := {
  roundKeys : list state;
  expansionDetails : list stepDetails
}.

Definition expandKey (key : list val) : keySchedule :=
  let '(words, details) := expandWords key in
  {| roundKeys := map (roundKeyOf words) (seq 0 (NUMBER_OF_ROUNDS + 1));
     expansionDetails := details |}.

(** [roundKeys[round]]; [expandKey] always returns 15 matrices. *)
Definition keyAt (rks : list state) (round : nat) : state := nth round rks [].

(** [formatRoundKey] of [keyExpansion.js]: the same rendering as
    [formatStateMatrix]. *)
Definition formatRoundKey (roundKey : state) : result string :=
  rows <- mapM (fun row => cells <- mapM hexByte row ;;
                           Ok (String.concat " " cells)) roundKey ;;
  Ok (String.concat (String "010"%char EmptyString) rows).

(* ====================================================================== *)
(** ** encryption.js *)
(* ====================================================================== *)

(** One entry of [roundDetails]. *)
Record roundDetail : Type := {
  round : nat;
  step : string;
  stateText : string;
  stateMatrix : state;
  roundKeyText : option string
}.

(** [if (trackRounds) roundDetails.push({round, step,
       state: formatStateMatrix(state), stateMatrix: copyStateMatrix(state),
       roundKey: formatStateMatrix(key)})]; the new entries are returned. *)
Definition track (trackRounds : bool) (rnd : nat) (stp : string) (st : state)
           (key : option state) : result (list roundDetail) :=
  if trackRounds then
    text <- formatStateMatrix st ;;
    keyText <- match key with
               | Some k => t <- formatStateMatrix k ;; Ok (Some t)
               | None => Ok None
               end ;;
    Ok [ {| round := rnd; step := stp; stateText := text;
            stateMatrix := copyStateMatrix st; roundKeyText := keyText |} ]
  else Ok [].

Record blockResult : Type := {
  outBlock : list val;          (* [encryptedBlock] / [decryptedBlock] *)
  blockDetails : list roundDetail
}.

(** One main round of [encryptBlock]. *)
Definition encryptRound (rks : list state) (trackRounds : bool)
           (acc : state * list roundDetail) (rnd : nat)
  : result (state * list roundDetail) :=
  let '(st, details) := acc in
  d1 <- track trackRounds rnd "Start of Round" st None ;;
  let st := substituteBytes st in
  d2 <- track trackRounds rnd "After SubBytes" st None ;;
  let st := shiftRows st in
  d3 <- track trackRounds rnd "After ShiftRows" st None ;;
  let st := mixColumns st in
  d4 <- track trackRounds rnd "After MixColumns" st None ;;
  let st := addRoundKey st (keyAt rks rnd) in
  d5 <- track trackRounds rnd "After AddRoundKey" st (Some (keyAt rks rnd)) ;;
  Ok (st, details ++ d1 ++ d2 ++ d3 ++ d4 ++ d5).

Definition encryptBlock (block : list val) (rks : list state) (trackRounds : bool)
  : result blockResult :=
  let st := bytesToStateMatrix block in
  d0 <- track trackRounds 0 "Initial State" st None ;;
  let st := addRoundKey st (keyAt rks 0) in
  d1 <- track trackRounds 0 "After AddRoundKey" st (Some (keyAt rks 0)) ;;
  '(st, details) <- foldM (encryptRound rks trackRounds)
                          (seq 1 (NUMBER_OF_ROUNDS - 1)) (st, d0 ++ d1) ;;
  let finalRound := NUMBER_OF_ROUNDS in
  d2 <- track trackRounds finalRound "Start of Final Round" st None ;;
  let st := substituteBytes st in
  d3 <- track trackRounds finalRound "After SubBytes" st None ;;
  let st := shiftRows st in
  d4 <- track trackRounds finalRound "After ShiftRows" st None ;;
  let st := addRoundKey st (keyAt rks finalRound) in
  d5 <- track trackRounds finalRound "After AddRoundKey (Final)" st
              (Some (keyAt rks finalRound)) ;;
  Ok {| outBlock := stateMatrixToBytes st;
        blockDetails := details ++ d2 ++ d3 ++ d4 ++ d5 |}.

(** The [keyExpansion] field of the results. *)
Record keyExpansionInfo : Type := {
  roundKeyTexts : list string;
  keyExpansionDetails : list stepDetails
}.

Record encryptResult : Type := {
  cipherBytes : list val;
  encRoundDetails : list roundDetail;
  encCompletePerRound : option (list (nat * list val));
  encKeyExpansion : keyExpansionInfo
}.

(** [blockStates.forEach(state => full.push(...stateMatrixToBytes(state)))]. *)
Definition collect (blockStates : list state) : list val :=
  flat_map stateMatrixToBytes blockStates.

(** The block [data.slice(16 * i, 16 * (i + 1))]. *)
Definition blockAt (data : list val) (i : nat) : list val :=
  slice data (Z.of_nat (16 * i)) (Z.of_nat (16 * i + 16)).

(** The [trackRounds] branch of [encryptText]: all blocks advance round by
    round, and the whole text is recorded after each round. *)
Definition encryptAllTracked (paddedData : list val) (rks : list state)
  : list val * list (nat * list val) :=
  let numBlocks := blockCount (length paddedData) in
  let blockStates :=
    map (fun i => bytesToStateMatrix (blockAt paddedData i)) (seq 0 numBlocks) in
  let blockStates := map (fun st => addRoundKey st (keyAt rks 0)) blockStates in
  let complete := [(0%nat, collect blockStates)] in
  let '(blockStates, complete) :=
    fold_left
      (fun '(blockStates, complete) rnd =>
         let blockStates :=
           map (fun st =>
                  addRoundKey (mixColumns (shiftRows (substituteBytes st)))
                              (keyAt rks rnd))
               blockStates in
         (blockStates, complete ++ [(rnd, collect blockStates)]))
      (seq 1 (NUMBER_OF_ROUNDS - 1)) (blockStates, complete) in
  let finalRound := NUMBER_OF_ROUNDS in
  let blockStates :=
    map (fun st => addRoundKey (shiftRows (substituteBytes st)) (keyAt rks finalRound))
        blockStates in
  let fullCipher := collect blockStates in
  (fullCipher, complete ++ [(finalRound, fullCipher)]).

(** The other branch: block after block through [encryptBlock]. *)
Definition encryptAllPlain (paddedData : list val) (rks : list state)
  : result (list val) :=
  foldM (fun cipher i =>
           r <- encryptBlock (blockAt paddedData i) rks false ;;
           Ok (cipher ++ outBlock r))
        (seq 0 (blockCount (length paddedData))) [].

Definition encryptText (plainBytes key : list val) (trackRounds : bool)
  : result encryptResult :=
  let paddedData := padData plainBytes in
  let ks := expandKey key in
  let rks := roundKeys ks in
  '(cipher, complete) <-
    (if trackRounds then
       let '(full, complete) := encryptAllTracked paddedData rks in
       Ok (full, Some complete)
     else
       c <- encryptAllPlain paddedData rks ;; Ok (c, None)) ;;
  allRoundDetails <-
    (if trackRounds then
       r <- encryptBlock (slice paddedData 0 16) rks true ;; Ok (blockDetails r)
     else Ok []) ;;
  texts <- mapM formatStateMatrix rks ;;
  Ok {| cipherBytes := cipher;
        encRoundDetails := allRoundDetails;
        encCompletePerRound := complete;
        encKeyExpansion := {| roundKeyTexts := texts;
                              keyExpansionDetails := expansionDetails ks |} |}.

(* ====================================================================== *)
(** ** decryption.js *)
(* ====================================================================== *)

(** One main round of [decryptBlock]. *)
Definition decryptRound (rks : list state) (trackRounds : bool)
           (acc : state * list roundDetail) (rnd : nat)
  : result (state * list roundDetail) :=
  let '(st, details) := acc in
  d1 <- track trackRounds rnd "Start of Round" st None ;;
  let st := inverseShiftRows st in
  d2 <- track trackRounds rnd "After InverseShiftRows" st None ;;
  let st := inverseSubstituteBytes st in
  d3 <- track trackRounds rnd "After InverseSubBytes" st None ;;
  let st := addRoundKey st (keyAt rks rnd) in
  d4 <- track trackRounds rnd "After AddRoundKey" st (Some (keyAt rks rnd)) ;;
  let st := inverseMixColumns st in
  d5 <- track trackRounds rnd "After InverseMixColumns" st None ;;
  Ok (st, details ++ d1 ++ d2 ++ d3 ++ d4 ++ d5).

(** The rounds [NUMBER_OF_ROUNDS - 1] down to [1]. *)
Definition roundsDown : list nat := rev (seq 1 (NUMBER_OF_ROUNDS - 1)).

Definition decryptBlock (block : list val) (rks : list state) (trackRounds : bool)
  : result blockResult :=
  let st := bytesToStateMatrix block in
  d0 <- track trackRounds NUMBER_OF_ROUNDS "Initial State (Cipher)" st None ;;
  let st := addRoundKey st (keyAt rks NUMBER_OF_ROUNDS) in
  d1 <- track trackRounds NUMBER_OF_ROUNDS "After AddRoundKey" st
              (Some (keyAt rks NUMBER_OF_ROUNDS)) ;;
  '(st, details) <- foldM (decryptRound rks trackRounds) roundsDown (st, d0 ++ d1) ;;
  let finalRound := 0%nat in
  d2 <- track trackRounds finalRound "Start of Final Round" st None ;;
  let st := inverseShiftRows st in
  d3 <- track trackRounds finalRound "After InverseShiftRows" st None ;;
  let st := inverseSubstituteBytes st in
  d4 <- track trackRounds finalRound "After InverseSubBytes" st None ;;
  let st := addRoundKey st (keyAt rks finalRound) in
  d5 <- track trackRounds finalRound "After AddRoundKey (Final)" st
              (Some (keyAt rks finalRound)) ;;
  Ok {| outBlock := stateMatrixToBytes st;
        blockDetails := details ++ d2 ++ d3 ++ d4 ++ d5 |}.

Record decryptResult : Type := {
  plainBytes : list val;
  decRoundDetails : list roundDetail;
  decCompletePerRound : option (list (nat * list val));
  decKeyExpansion : keyExpansionInfo
}.

(** The [trackRounds] branch of [decryptText], before [unpadData]. *)
Definition decryptAllTracked (cipher : list val) (rks : list state)
  : list val * list (nat * list val) :=
  let numBlocks := blockCount (length cipher) in
  let blockStates :=
    map (fun i => bytesToStateMatrix (blockAt cipher i)) (seq 0 numBlocks) in
  let blockStates :=
    map (fun st => addRoundKey st (keyAt rks NUMBER_OF_ROUNDS)) blockStates in
  let complete := [(NUMBER_OF_ROUNDS, collect blockStates)] in
  let '(blockStates, complete) :=
    fold_left
      (fun '(blockStates, complete) rnd =>
         let blockStates :=
           map (fun st =>
                  inverseMixColumns
                    (addRoundKey (inverseSubstituteBytes (inverseShiftRows st))
                                 (keyAt rks rnd)))
               blockStates in
         (blockStates, complete ++ [(rnd, collect blockStates)]))
      roundsDown (blockStates, complete) in
  let finalRound := 0%nat in
  let blockStates :=
    map (fun st => addRoundKey (inverseSubstituteBytes (inverseShiftRows st))
                               (keyAt rks finalRound))
        blockStates in
  let fullPlain := collect blockStates in
  (fullPlain, complete ++ [(finalRound, fullPlain)]).

(** The other branch, before [unpadData]. *)
Definition decryptAllPlain (cipher : list val) (rks : list state)
  : result (list val) :=
  foldM (fun plain i =>
           r <- decryptBlock (blockAt cipher i) rks false ;;
           Ok (plain ++ outBlock r))
        (seq 0 (blockCount (length cipher))) [].

Definition decryptText (cipher key : list val) (trackRounds : bool)
  : result decryptResult :=
  let ks := expandKey key in
  let rks := roundKeys ks in
  '(plain, complete) <-
    (if trackRounds then
       let '(full, complete) := decryptAllTracked cipher rks in
       p <- unpadData full ;; Ok (p, Some complete)
     else
       temp <- decryptAllPlain cipher rks ;;
       p <- unpadData temp ;; Ok (p, None)) ;;
  allRoundDetails <-
    (if trackRounds then
       r <- decryptBlock (slice cipher 0 16) rks true ;; Ok (blockDetails r)
     else Ok []) ;;
  texts <- mapM formatStateMatrix rks ;;
  Ok {| plainBytes := plain;
        decRoundDetails := allRoundDetails;
        decCompletePerRound := complete;
        decKeyExpansion := {| roundKeyTexts := texts;
                              keyExpansionDetails := expansionDetails ks |} |}.

(* ====================================================================== *)
(** ** RoundDetailsViewer.jsx *)
(* ====================================================================== *)

(** The matches of [/.{1,32}/g] in a string without line terminators: its
    consecutive pieces of 32 characters, the last one possibly shorter.  Each
    piece takes at least one character, so [fuel = length] pieces suffice. *)
Fixpoint piecesOf (fuel : nat) (chars : list ascii) : list (list ascii) :=
  match fuel with
  | O => []
  | S fuel' =>
      match chars with
      | [] => []
      | _ => firstn 32 chars :: piecesOf fuel' (skipn 32 chars)
      end
  end.

(** [formatCipherText] of [RoundDetailsViewer.jsx], on an array:
    [hex.match(/.{1,32}/g)?.join(' ') || hex]. *)
Definition formatCipherText (bytes : list val) : result string :=
  hex <- bytesToHex bytes ;;
  let chars := list_ascii_of_string hex in
  let joined :=
    String.concat " " (map string_of_list_ascii (piecesOf (length chars) chars)) in
  Ok (if String.eqb joined "" then hex else joined).

(* ====================================================================== *)
(** ** The earlier encryptText and decryptText

    The bundle of [encryption.js] and the end of [utils.js] also hold the
    previous version of the two text functions: one loop over the blocks,
    which traces the first block from inside the loop. *)
(* ====================================================================== *)

Module Earlier.

Record encryptResult : Type := {
  cipherBytes : list val;
  encRoundDetails : list roundDetail;
  encKeyExpansion : keyExpansionInfo
}.

Record decryptResult : Type := {
  plainBytes : list val;
  decRoundDetails : list roundDetail;
  decKeyExpansion : keyExpansionInfo
}.

(** The body of [for (let i = 0; i < paddedData.length; i += 16)], for the
    block of index [i / 16]: [shouldTrack = trackRounds && (i === 0)]. *)
Definition encryptStep (paddedData : list val) (rks : list state)
           (trackRounds : bool) (acc : list val * list roundDetail) (i : nat)
  : result (list val * list roundDetail) :=
  let '(cipher, allRoundDetails) := acc in
  let block := blockAt paddedData i in
  let shouldTrack := trackRounds && (i =? 0)%nat in
  r <- encryptBlock block rks shouldTrack ;;
  Ok (cipher ++ outBlock r,
      if shouldTrack then blockDetails r else allRoundDetails).

Definition encryptText (plainBytes key : list val) (trackRounds : bool)
  : result encryptResult :=
  let paddedData := padData plainBytes in
  let ks := expandKey key in
  let rks := roundKeys ks in
  '(cipher, allRoundDetails) <-
    foldM (encryptStep paddedData rks trackRounds)
          (seq 0 (blockCount (length paddedData))) ([], []) ;;
  texts <- mapM formatStateMatrix rks ;;
  Ok {| cipherBytes := cipher;
        encRoundDetails := allRoundDetails;
        encKeyExpansion := {| roundKeyTexts := texts;
                              keyExpansionDetails := expansionDetails ks |} |}.

Definition decryptStep (cipher : list val) (rks : list state)
           (trackRounds : bool) (acc : list val * list roundDetail) (i : nat)
  : result (list val * list roundDetail) :=
  let '(plain, allRoundDetails) := acc in
  let block := blockAt cipher i in
  let shouldTrack := trackRounds && (i =? 0)%nat in
  r <- decryptBlock block rks shouldTrack ;;
  Ok (plain ++ outBlock r,
      if shouldTrack then blockDetails r else allRoundDetails).

Definition decryptText (cipher key : list val) (trackRounds : bool)
  : result decryptResult :=
  let ks := expandKey key in
  let rks := roundKeys ks in
  '(plain, allRoundDetails) <-
    foldM (decryptStep cipher rks trackRounds)
          (seq 0 (blockCount (length cipher))) ([], []) ;;
  unpaddedData <- unpadData plain ;;
  texts <- mapM formatStateMatrix rks ;;
  Ok {| plainBytes := unpaddedData;
        decRoundDetails := allRoundDetails;
        decKeyExpansion := {| roundKeyTexts := texts;
                              keyExpansionDetails := expansionDetails ks |} |}.

End Earlier.

(* ====================================================================== *)
(** ** Vocabulary of the statements *)
(* ====================================================================== *)

(** A value that is a byte: a number in [0, 255]. *)
Definition isByte (v : val) : bool :=
  match v with
  | Num n => (0 <=? n) && (n <? 256)
  | Undefined => false
  end.

(** An array of bytes. *)
Definition byteArray (l : list val) : Prop := forallb isByte l = true.

(** A 4x4 matrix of bytes. *)
Definition isByteState (s : state) : bool :=
  (length s =? 4)%nat
  && forallb (fun row => (length row =? 4)%nat && forallb isByte row) s.

(** The 4x4 matrix whose cell [(row, col)] is [f row col]. *)
Definition tabulate4 (f : nat -> nat -> val) : state :=
  [ [f 0 0; f 0 1; f 0 2; f 0 3];
    [f 1 0; f 1 1; f 1 2; f 1 3];
    [f 2 0; f 2 1; f 2 2; f 2 3];
    [f 3 0; f 3 1; f 3 2; f 3 3] ]%nat.

Definition shape4 (s : state) : Prop :=
  length s = 4%nat /\ Forall (fun row => length row = 4%nat) s.

Definition byteState (s : state) : Prop :=
  shape4 s /\
  forall r c, (r < 4)%nat -> (c < 4)%nat -> isByte (cell s r c) = true.

(** The number inside a value. *)
Definition numOf (v : val) : Z :=
  match v with
  | Num n => n
  | Undefined => 0
  end.

(** The operations of [galoisField.js] on the numbers themselves. *)
Definition zxor (a b : Z) : Z := Z.lxor (wrap32 a) (wrap32 b).
Definition z2 (a : Z) : Z := numOf (multiplyByTwo (Num a)).
Definition z3 (a : Z) : Z := numOf (multiplyByThree (Num a)).
Definition z9 (a : Z) : Z := numOf (multiplyByNine (Num a)).
Definition z11 (a : Z) : Z := numOf (multiplyByEleven (Num a)).
Definition z13 (a : Z) : Z := numOf (multiplyByThirteen (Num a)).
Definition z14 (a : Z) : Z := numOf (multiplyByFourteen (Num a)).

Definition byteZ (a : Z) : Prop := 0 <= a < 256.
Definition byteZb (a : Z) : bool := (0 <=? a) && (a <? 256).

(** The 256 bytes, for exhaustive checks. *)
Definition allBytes : list Z := map Z.of_nat (seq 0 256).

(** The table of a function on bytes, and the check that such a table
    distributes over XOR. *)
Definition tableOf (f : Z -> Z) : list Z := map f allBytes.
Definition linearAt (t : list Z) (a b : Z) : bool :=
  nth (Z.to_nat (Z.lxor a b)) t 0
  =? Z.lxor (nth (Z.to_nat a) t 0) (nth (Z.to_nat b) t 0).
Definition linearTable (t : list Z) : bool :=
  forallb (fun a => forallb (linearAt t a) allBytes) allBytes.

(** One cell of a column after [mixColumns] and after [inverseMixColumns],
    from the four cells [s0 .. s3] of that column before. *)
Definition mixCell (s0 s1 s2 s3 : val) (row : nat) : val :=
  match row with
  | 0%nat => bxor (bxor (bxor (multiplyByTwo s0) (multiplyByThree s1)) s2) s3
  | 1%nat => bxor (bxor (bxor s0 (multiplyByTwo s1)) (multiplyByThree s2)) s3
  | 2%nat => bxor (bxor (bxor s0 s1) (multiplyByTwo s2)) (multiplyByThree s3)
  | _ => bxor (bxor (bxor (multiplyByThree s0) s1) s2) (multiplyByTwo s3)
  end.

Definition unmixCell (s0 s1 s2 s3 : val) (row : nat) : val :=
  match row with
  | 0%nat => bxor (bxor (bxor (multiplyByFourteen s0) (multiplyByEleven s1))
                        (multiplyByThirteen s2)) (multiplyByNine s3)
  | 1%nat => bxor (bxor (bxor (multiplyByNine s0) (multiplyByFourteen s1))
                        (multiplyByEleven s2)) (multiplyByThirteen s3)
  | 2%nat => bxor (bxor (bxor (multiplyByThirteen s0) (multiplyByNine s1))
                        (multiplyByFourteen s2)) (multiplyByEleven s3)
  | _ => bxor (bxor (bxor (multiplyByEleven s0) (multiplyByThirteen s1))
                    (multiplyByNine s2)) (multiplyByFourteen s3)
  end.

(** The pipeline of [encryptBlock] on states, without the trace. *)
Definition encRound (rks : list state) (st : state) (rnd : nat) : state :=
  addRoundKey (mixColumns (shiftRows (substituteBytes st))) (keyAt rks rnd).

Definition encryptState (rks : list state) (st : state) : state :=
  let st := addRoundKey st (keyAt rks 0) in
  let st := fold_left (encRound rks) (seq 1 (NUMBER_OF_ROUNDS - 1)) st in
  addRoundKey (shiftRows (substituteBytes st)) (keyAt rks NUMBER_OF_ROUNDS).

(** The pipeline of [decryptBlock] on states, without the trace. *)
Definition decRound (rks : list state) (st : state) (rnd : nat) : state :=
  inverseMixColumns
    (addRoundKey (inverseSubstituteBytes (inverseShiftRows st)) (keyAt rks rnd)).

Definition decryptState (rks : list state) (st : state) : state :=
  let st := addRoundKey st (keyAt rks NUMBER_OF_ROUNDS) in
  let st := fold_left (decRound rks) roundsDown st in
  addRoundKey (inverseSubstituteBytes (inverseShiftRows st)) (keyAt rks 0).

(** The words of the key schedule, without the trace. *)
Definition scheduleWords (key : list val) : list word := fst (expandWords key).

(** The key schedule as the specification words it (section 4.5): the
    transformation applied to [words[i-1]] before the XOR with [words[i-8]]. *)
Definition specRotWord (w : word) : word :=
  match w with
  | [a; b; c; d] => [b; c; d; a]
  | _ => w
  end.
Definition specSubWord (w : word) : word := map (index S_BOX) w.
Definition specXor (w1 w2 : word) : word :=
  map (fun p => bxor (fst p) (snd p)) (combine w1 w2).
Definition specTransform (i : nat) (prev : word) : word :=
  if (i mod 8 =? 0)%nat then
    specXor (specSubWord (specRotWord prev))
            [index ROUND_CONSTANTS (Num (Z.of_nat (i / 8))); Num 0; Num 0; Num 0]
  else if (i mod 8 =? 4)%nat then specSubWord prev
  else prev.

(** Four words reshaped column-wise: word [c] is column [c]. *)
Definition columnsOf (w0 w1 w2 w3 : word) : state :=
  tabulate4 (fun r c => get (nth c [w0; w1; w2; w3] []) r).

(** [data] ends with [n] bytes of value [n]. *)
Definition endsWithPadding (n : Z) (data : list val) : Prop :=
  exists body, data = body ++ repeat (Num n) (Z.to_nat n).

(** The number of hexadecimal digits of a string. *)
Definition hexDigitCount (s : string) : nat := length (cleanHex s).

(** Round keys that are all 4x4 matrices of bytes. *)
Definition byteKeys (rks : list state) : Prop :=
  forall r, (r <= NUMBER_OF_ROUNDS)%nat -> byteState (keyAt rks r).

(** A word of the schedule: four bytes. *)
Definition byteWord (w : word) : Prop := length w = 4%nat /\ byteArray w.

(** The word that [expandStep] appends for index [i]. *)
Definition nextWord (words : list word) (i : nat) : word :=
  let temp := wordAt words (i - 1) in
  let temp :=
    if (i mod KEY_SIZE_WORDS =? 0)%nat then
      xorFirst (substituteWord (rotateWord temp))
               (index ROUND_CONSTANTS (Num (Z.of_nat (i / KEY_SIZE_WORDS))))
    else if (i mod KEY_SIZE_WORDS =? 4)%nat then substituteWord temp
    else temp in
  xorWords temp (wordAt words (i - KEY_SIZE_WORDS)).

(** The words after [n] iterations of the second loop. *)
Fixpoint wordsAfter (key : list val) (n : nat) : list word :=
  match n with
  | O => keyWords key
  | S m => wordsAfter key m ++ [nextWord (wordsAfter key m) (KEY_SIZE_WORDS + m)]
  end.

(** The AES-256 key of the FIPS-197 known-answer vector, and its plaintext
    block. *)
Definition sampleKey : list val :=
  map Num [ 0x60; 0x3d; 0xeb; 0x10; 0x15; 0xca; 0x71; 0xbe;
            0x2b; 0x73; 0xae; 0xf0; 0x85; 0x7d; 0x77; 0x81;
            0x1f; 0x35; 0x2c; 0x07; 0x3b; 0x61; 0x08; 0xd7;
            0x2d; 0x98; 0x10; 0xa3; 0x09; 0x14; 0xdf; 0xf4 ].

Definition sampleBlock : list val :=
  map Num [ 0x6b; 0xc1; 0xbe; 0xe2; 0x2e; 0x40; 0x9f; 0x96;
            0xe9; 0x3d; 0x7e; 0x11; 0x73; 0x93; 0x17; 0x2a ].

(** The number of bytes that [padData] appends. *)
Definition paddingOf (data : list val) : nat :=
  (BLOCK_SIZE - (length data mod BLOCK_SIZE))%nat.

(** The last byte of an array, read as the padding length. *)
Definition lastByte (data : list val) : Z := numOf (last data Undefined).

(** Padding that [unpadData] must reject: a length of 0, a length above 16,
    or an array that does not end with that many bytes of that value. *)
Definition malformedPadding (data : list val) : Prop :=
  lastByte data = 0 \/ 16 < lastByte data \/ ~ endsWithPadding (lastByte data) data.

(** One block through [encryptBlock] / [decryptBlock], bytes to bytes. *)
Definition encBytes (rks : list state) (block : list val) : list val :=
  stateMatrixToBytes (encryptState rks (bytesToStateMatrix block)).

Definition decBytes (rks : list state) (block : list val) : list val :=
  stateMatrixToBytes (decryptState rks (bytesToStateMatrix block)).

(** All blocks of an array, one after the other. *)
Definition encryptAll (rks : list state) (data : list val) : list val :=
  flat_map (fun i => encBytes rks (blockAt data i))
           (seq 0 (blockCount (length data))).

Definition decryptAll (rks : list state) (data : list val) : list val :=
  flat_map (fun i => decBytes rks (blockAt data i))
           (seq 0 (blockCount (length data))).

(** A key of 33 bytes: the sample key followed by one more byte. *)
Definition longKey : list val := sampleKey ++ [Num 1].

(** A state matrix of bytes, and an array whose last byte announces two
    padding bytes. *)
Definition sampleState : state :=
  [ [Num 0xdb; Num 0xf2; Num 0x01; Num 0xc6];
    [Num 0x13; Num 0x0a; Num 0x01; Num 0xc6];
    [Num 0x53; Num 0x22; Num 0x01; Num 0xc6];
    [Num 0x45; Num 0x5c; Num 0x01; Num 0xc6] ].

Definition samplePadded : list val := [Num 7; Num 9; Num 2; Num 2].

(** Fifteen bytes: the encryption under [sampleKey] of the block
    [0c 00 .. 00 01], without its last byte (which is 00). *)
Definition shortCipher : list val :=
  map Num [ 247; 110; 156; 152; 99; 97; 80; 104; 38; 29; 85; 186; 220; 97; 165 ].

(** A 4x4 matrix, whatever its cells. *)
Definition isShape4 (s : state) : bool :=
  (length s =? 4)%nat && forallb (fun row => (length row =? 4)%nat) s.

(** [galoisMultiply] on the numbers themselves. *)
Definition zmul (a b : Z) : Z := numOf (galoisMultiply (Num a) (Num b)).

(** A second matrix of bytes, used as a round key. *)
Definition sampleRoundKey : state := bytesToStateMatrix sampleBlock.

(** The two characters [byte.toString(16).padStart(2, '0')] of a byte are
    hexadecimal digits that [parseInt(_, 16)] reads back as the byte. *)
Definition hexPairOk (a : Z) : bool :=
  match list_ascii_of_string (padStart2 (toString16 a)) with
  | [c1; c2] =>
      isHexDigit c1 && isHexDigit c2
      && (16 * hexDigitValue c1 + hexDigitValue c2 =? a)
  | _ => false
  end.

(** An array of 20 bytes. *)
Definition sampleBytes : list val := sampleBlock ++ [Num 0; Num 255; Num 16; Num 7].

(** Two words of four bytes. *)
Definition sampleWord : word := [Num 0x09; Num 0xcf; Num 0x4f; Num 0x3c].
Definition sampleWord' : word := [Num 0x2b; Num 0x7e; Num 0x15; Num 0x16].

(** A function on blocks applied to every block of an array, as both
    branches of [encryptText] and [decryptText] do. *)
Definition perBlock (F : list val -> list val) (data : list val) : list val :=
  flat_map (fun i => F (blockAt data i)) (seq 0 (blockCount (length data))).

(** The encryption of [sampleBytes] under [sampleKey], block by block. *)
Definition sampleCipher : list val :=
  encryptAll (roundKeys (expandKey sampleKey)) (padData sampleBytes).

(** A computation that returns a value or raises a TypeError, and no other
    exception. *)
Definition typeErrorOnly {A : Type} (r : result A) : Prop :=
  match r with
  | Ok _ => True
  | Throw e => e = TypeError
  end.

(** The first 20 bytes of the sample key. *)
Definition shortKey : list val := firstn 20 sampleKey.

(* ====================================================================== *)
(** ** Generic lemmas *)
(* ====================================================================== *)

Lemma strictEq_true (a b : val) : strictEq a b = true <-> a = b.
Proof.
  destruct a as [x|], b as [y|]; simpl; split; intros H;
    try discriminate; try reflexivity.
  - apply Z.eqb_eq in H. now subst.
  - inversion H. apply Z.eqb_refl.
Qed.

Lemma isByte_Num (v : val) :
  isByte v = true -> exists n, v = Num n /\ byteZ n.
Proof.
  destruct v as [n|]; simpl; intros H; [|discriminate].
  exists n. split; [reflexivity|]. unfold byteZ. lia.
Qed.

Lemma isByte_of_byteZ (n : Z) : byteZ n -> isByte (Num n) = true.
Proof. unfold byteZ; simpl; lia. Qed.

Lemma allBytes_complete (a : Z) : byteZ a -> In a allBytes.
Proof.
  intros H. unfold allBytes. apply in_map_iff.
  exists (Z.to_nat a). unfold byteZ in H. split; [lia|]. apply in_seq. lia.
Qed.

Lemma forall_bytes (P : Z -> bool) :
  forallb P allBytes = true -> forall a, byteZ a -> P a = true.
Proof.
  intros H a Ha. rewrite forallb_forall in H. apply H, allBytes_complete, Ha.
Qed.

Lemma forall_bytes2 (P : Z -> Z -> bool) :
  forallb (fun a => forallb (P a) allBytes) allBytes = true ->
  forall a b, byteZ a -> byteZ b -> P a b = true.
Proof.
  intros H a b Ha Hb.
  apply (forall_bytes (P a)); [|exact Hb].
  apply (forall_bytes (fun a => forallb (P a) allBytes)); assumption.
Qed.

(** Checks a property of one or two bytes on every byte. *)
Ltac by_bytes :=
  match goal with
  | |- forall a, byteZ a -> _ =>
      let a := fresh "a" in let Ha := fresh "Ha" in
      intros a Ha;
      match goal with
      | |- ?L = ?R =>
          let P := eval pattern a in (Z.eqb L R) in
          match P with
          | ?F _ =>
              apply Z.eqb_eq;
              exact (forall_bytes F ltac:(vm_compute; reflexivity) a Ha)
          end
      end
  end.

(* ---------------------------------------------------------------------- *)
(** *** The field operations on bytes *)

Lemma wrap32_small (a : Z) : - 2^31 <= a < 2^31 -> wrap32 a = a.
Proof.
  intros H. unfold wrap32.
  rewrite Z.mod_small; [lia|].
  change (2^32) with (2^31 + 2^31). lia.
Qed.

Lemma wrap32_byte (a : Z) : byteZ a -> wrap32 a = a.
Proof.
  intros H. apply wrap32_small. unfold byteZ in H.
  assert (256 < 2^31) by reflexivity. lia.
Qed.

Lemma zxor_lxor (a b : Z) : byteZ a -> byteZ b -> zxor a b = Z.lxor a b.
Proof. intros Ha Hb. unfold zxor. now rewrite !wrap32_byte. Qed.

Lemma byteZb_true (x : Z) : byteZb x = true -> byteZ x.
Proof. unfold byteZb, byteZ. lia. Qed.

Lemma lxor_byte : forall a b, byteZ a -> byteZ b -> byteZ (Z.lxor a b).
Proof.
  intros a b Ha Hb. apply byteZb_true.
  apply (forall_bytes2 (fun a b => byteZb (Z.lxor a b)));
    [vm_compute; reflexivity | exact Ha | exact Hb].
Qed.

Ltac byte_closed F :=
  let a := fresh "a" in let Ha := fresh "Ha" in
  intros a Ha; apply byteZb_true;
  apply (forall_bytes (fun a => byteZb (F a)));
  [vm_compute; reflexivity | exact Ha].

Lemma z2_byte : forall a, byteZ a -> byteZ (z2 a).
Proof. byte_closed z2. Qed.
Lemma z3_byte : forall a, byteZ a -> byteZ (z3 a).
Proof. byte_closed z3. Qed.
Lemma z9_byte : forall a, byteZ a -> byteZ (z9 a).
Proof. byte_closed z9. Qed.
Lemma z11_byte : forall a, byteZ a -> byteZ (z11 a).
Proof. byte_closed z11. Qed.
Lemma z13_byte : forall a, byteZ a -> byteZ (z13 a).
Proof. byte_closed z13. Qed.
Lemma z14_byte : forall a, byteZ a -> byteZ (z14 a).
Proof. byte_closed z14. Qed.

Create HintDb bytes.
#[local] Hint Resolve lxor_byte z2_byte z3_byte z9_byte z11_byte z13_byte z14_byte
  : bytes.

(** A function on bytes distributes over XOR when its table of 256 values
    does; the table is computed once and then only looked up. *)
Lemma tableOf_nth (f : Z -> Z) (a : Z) :
  byteZ a -> nth (Z.to_nat a) (tableOf f) 0 = f a.
Proof.
  intros Ha. unfold tableOf, allBytes. rewrite map_map.
  unfold byteZ in Ha.
  rewrite nth_indep with (d' := f (Z.of_nat 0))
    by (rewrite length_map, length_seq; lia).
  rewrite (map_nth (fun n => f (Z.of_nat n))).
  rewrite seq_nth by lia. f_equal. lia.
Qed.

Lemma linear_of_table (f : Z -> Z) :
  linearTable (tableOf f) = true ->
  forall a b, byteZ a -> byteZ b -> f (Z.lxor a b) = Z.lxor (f a) (f b).
Proof.
  intros H a b Ha Hb.
  unfold linearTable in H.
  pose proof (forall_bytes2 (linearAt (tableOf f)) H a b Ha Hb) as E.
  unfold linearAt in E. apply Z.eqb_eq in E.
  rewrite !tableOf_nth in E; auto with bytes.
Qed.

(** The multiplications by 9, 11, 13 and 14 distribute over XOR. *)
Lemma z9_lxor : forall a b, byteZ a -> byteZ b ->
  z9 (Z.lxor a b) = Z.lxor (z9 a) (z9 b).
Proof. apply linear_of_table. vm_compute. reflexivity. Qed.
Lemma z11_lxor : forall a b, byteZ a -> byteZ b ->
  z11 (Z.lxor a b) = Z.lxor (z11 a) (z11 b).
Proof. apply linear_of_table. vm_compute. reflexivity. Qed.
Lemma z13_lxor : forall a b, byteZ a -> byteZ b ->
  z13 (Z.lxor a b) = Z.lxor (z13 a) (z13 b).
Proof. apply linear_of_table. vm_compute. reflexivity. Qed.
Lemma z14_lxor : forall a b, byteZ a -> byteZ b ->
  z14 (Z.lxor a b) = Z.lxor (z14 a) (z14 b).
Proof. apply linear_of_table. vm_compute. reflexivity. Qed.

(** The products of the two MixColumns matrices, coefficient by coefficient:
    the diagonal entry is 1 and the three others are 0. *)
Lemma mix_diag : forall a, byteZ a ->
  Z.lxor (Z.lxor (Z.lxor (z14 (z2 a)) (z11 a)) (z13 a)) (z9 (z3 a)) = a.
Proof. by_bytes. Qed.
Lemma mix_off1 : forall a, byteZ a ->
  Z.lxor (Z.lxor (Z.lxor (z14 (z3 a)) (z11 (z2 a))) (z13 a)) (z9 a) = 0.
Proof. by_bytes. Qed.
Lemma mix_off2 : forall a, byteZ a ->
  Z.lxor (Z.lxor (Z.lxor (z14 a) (z11 (z3 a))) (z13 (z2 a))) (z9 a) = 0.
Proof. by_bytes. Qed.
Lemma mix_off3 : forall a, byteZ a ->
  Z.lxor (Z.lxor (Z.lxor (z14 a) (z11 a)) (z13 (z3 a))) (z9 (z2 a)) = 0.
Proof. by_bytes. Qed.

(** The operations on values, in terms of the operations on numbers. *)
Lemma bxor_Num (a b : Z) : bxor (Num a) (Num b) = Num (zxor a b).
Proof. reflexivity. Qed.
Ltac num_result :=
  cbv zeta;
  match goal with
  | |- bxor ?x ?y = _ =>
      generalize x, y; intros; unfold bxor, numOf; reflexivity
  | |- band ?x ?y = _ =>
      generalize x, y; intros; unfold band, numOf; reflexivity
  end.

Lemma multiplyByTwo_Num (a : Z) : multiplyByTwo (Num a) = Num (z2 a).
Proof. unfold z2, multiplyByTwo. num_result. Qed.
Lemma multiplyByThree_Num (a : Z) : multiplyByThree (Num a) = Num (z3 a).
Proof. unfold z3, multiplyByThree. num_result. Qed.
Lemma multiplyByNine_Num (a : Z) : multiplyByNine (Num a) = Num (z9 a).
Proof. unfold z9, multiplyByNine. num_result. Qed.
Lemma multiplyByEleven_Num (a : Z) : multiplyByEleven (Num a) = Num (z11 a).
Proof. unfold z11, multiplyByEleven. num_result. Qed.
Lemma multiplyByThirteen_Num (a : Z) : multiplyByThirteen (Num a) = Num (z13 a).
Proof. unfold z13, multiplyByThirteen. num_result. Qed.
Lemma multiplyByFourteen_Num (a : Z) : multiplyByFourteen (Num a) = Num (z14 a).
Proof. unfold z14, multiplyByFourteen. num_result. Qed.

Lemma zxor_byte (a b : Z) : byteZ a -> byteZ b -> byteZ (zxor a b).
Proof. intros Ha Hb. rewrite zxor_lxor by assumption. now apply lxor_byte. Qed.
#[local] Hint Resolve zxor_byte : bytes.

#[local] Opaque z2 z3 z9 z11 z13 z14 zxor.

#[local] Instance lxor_Assoc : Associative eq Z.lxor.
Proof. intros x y z. symmetry. apply Z.lxor_assoc. Qed.
#[local] Instance lxor_Comm : Commutative eq Z.lxor.
Proof. intros x y. apply Z.lxor_comm. Qed.

(** Sixteen XORed terms, regrouped column by column. *)
Lemma lxor_transpose (a0 a1 a2 a3 b0 b1 b2 b3 c0 c1 c2 c3 d0 d1 d2 d3 : Z) :
  Z.lxor (Z.lxor (Z.lxor
    (Z.lxor (Z.lxor (Z.lxor a0 a1) a2) a3)
    (Z.lxor (Z.lxor (Z.lxor b0 b1) b2) b3))
    (Z.lxor (Z.lxor (Z.lxor c0 c1) c2) c3))
    (Z.lxor (Z.lxor (Z.lxor d0 d1) d2) d3)
  = Z.lxor (Z.lxor (Z.lxor
    (Z.lxor (Z.lxor (Z.lxor a0 b0) c0) d0)
    (Z.lxor (Z.lxor (Z.lxor a1 b1) c1) d1))
    (Z.lxor (Z.lxor (Z.lxor a2 b2) c2) d2))
    (Z.lxor (Z.lxor (Z.lxor a3 b3) c3) d3).
Proof. aac_reflexivity. Qed.

(** Four functions that distribute over XOR, applied to four XORs of four
    bytes: the sixteen images regrouped by position.  The functions are
    variables here, so that no rewriting step has to look inside them. *)
Section Spread.
Variables F G H K : Z -> Z.
Hypothesis F_lin : forall a b, byteZ a -> byteZ b -> F (Z.lxor a b) = Z.lxor (F a) (F b).
Hypothesis G_lin : forall a b, byteZ a -> byteZ b -> G (Z.lxor a b) = Z.lxor (G a) (G b).
Hypothesis H_lin : forall a b, byteZ a -> byteZ b -> H (Z.lxor a b) = Z.lxor (H a) (H b).
Hypothesis K_lin : forall a b, byteZ a -> byteZ b -> K (Z.lxor a b) = Z.lxor (K a) (K b).

Lemma lin4 (L : Z -> Z)
      (L_lin : forall a b, byteZ a -> byteZ b -> L (Z.lxor a b) = Z.lxor (L a) (L b))
      (x0 x1 x2 x3 : Z) :
  byteZ x0 -> byteZ x1 -> byteZ x2 -> byteZ x3 ->
  L (Z.lxor (Z.lxor (Z.lxor x0 x1) x2) x3)
  = Z.lxor (Z.lxor (Z.lxor (L x0) (L x1)) (L x2)) (L x3).
Proof.
  intros B0 B1 B2 B3.
  rewrite L_lin by auto with bytes.
  rewrite L_lin by auto with bytes.
  rewrite L_lin by auto with bytes.
  reflexivity.
Qed.

Lemma spread_rows (x0 x1 x2 x3 y0 y1 y2 y3 u0 u1 u2 u3 w0 w1 w2 w3 : Z) :
  byteZ x0 -> byteZ x1 -> byteZ x2 -> byteZ x3 ->
  byteZ y0 -> byteZ y1 -> byteZ y2 -> byteZ y3 ->
  byteZ u0 -> byteZ u1 -> byteZ u2 -> byteZ u3 ->
  byteZ w0 -> byteZ w1 -> byteZ w2 -> byteZ w3 ->
  Z.lxor (Z.lxor (Z.lxor
    (F (Z.lxor (Z.lxor (Z.lxor x0 x1) x2) x3))
    (G (Z.lxor (Z.lxor (Z.lxor y0 y1) y2) y3)))
    (H (Z.lxor (Z.lxor (Z.lxor u0 u1) u2) u3)))
    (K (Z.lxor (Z.lxor (Z.lxor w0 w1) w2) w3))
  = Z.lxor (Z.lxor (Z.lxor
    (Z.lxor (Z.lxor (Z.lxor (F x0) (G y0)) (H u0)) (K w0))
    (Z.lxor (Z.lxor (Z.lxor (F x1) (G y1)) (H u1)) (K w1)))
    (Z.lxor (Z.lxor (Z.lxor (F x2) (G y2)) (H u2)) (K w2)))
    (Z.lxor (Z.lxor (Z.lxor (F x3) (G y3)) (H u3)) (K w3)).
Proof.
  intros.
  rewrite (lin4 F F_lin), (lin4 G G_lin), (lin4 H H_lin), (lin4 K K_lin)
    by assumption.
  apply lxor_transpose.
Qed.
End Spread.

(** Solves [byteZ e] by following the shape of [e]. *)
Ltac is_byte :=
  lazymatch goal with
  | |- byteZ (Z.lxor _ _) => apply lxor_byte; is_byte
  | |- byteZ (zxor _ _) => apply zxor_byte; is_byte
  | |- byteZ (z2 _) => apply z2_byte; is_byte
  | |- byteZ (z3 _) => apply z3_byte; is_byte
  | |- byteZ (z9 _) => apply z9_byte; is_byte
  | |- byteZ (z11 _) => apply z11_byte; is_byte
  | |- byteZ (z13 _) => apply z13_byte; is_byte
  | |- byteZ (z14 _) => apply z14_byte; is_byte
  | |- byteZ _ => assumption
  end.

(** [inverseMixColumns] after [mixColumns] on the four bytes of one column. *)
Section Columns.
Variables a0 a1 a2 a3 : Z.
Hypothesis (H0 : byteZ a0) (H1 : byteZ a1) (H2 : byteZ a2) (H3 : byteZ a3).

(** The four bytes of the column after [mixColumns]. *)
Local Abbreviation m0 := (Z.lxor (Z.lxor (Z.lxor (z2 a0) (z3 a1)) a2) a3).
Local Abbreviation m1 := (Z.lxor (Z.lxor (Z.lxor a0 (z2 a1)) (z3 a2)) a3).
Local Abbreviation m2 := (Z.lxor (Z.lxor (Z.lxor a0 a1) (z2 a2)) (z3 a3)).
Local Abbreviation m3 := (Z.lxor (Z.lxor (Z.lxor (z3 a0) a1) a2) (z2 a3)).

(* [spread F G H K] regroups the goal; the four groups are then the
   coefficients [E0 .. E3] of the matrix product. *)
Ltac regroup F Fl G Gl H Hl K Kl :=
  etransitivity;
  [ apply (spread_rows F G H K Fl Gl Hl Kl); is_byte | ].

Lemma unmix_row0 :
  Z.lxor (Z.lxor (Z.lxor (z14 m0) (z11 m1)) (z13 m2)) (z9 m3) = a0.
Proof.
  regroup z14 z14_lxor z11 z11_lxor z13 z13_lxor z9 z9_lxor.
  transitivity (Z.lxor (Z.lxor (Z.lxor a0 0) 0) 0);
    [| now rewrite !Z.lxor_0_r].
  f_equal; [f_equal; [f_equal|]|].
  - now apply mix_diag.
  - now apply mix_off1.
  - now apply mix_off2.
  - now apply mix_off3.
Qed.

Lemma unmix_row1 :
  Z.lxor (Z.lxor (Z.lxor (z9 m0) (z14 m1)) (z11 m2)) (z13 m3) = a1.
Proof.
  assert (E0 : forall a, byteZ a ->
    Z.lxor (Z.lxor (Z.lxor (z9 (z2 a)) (z14 a)) (z11 a)) (z13 (z3 a)) = 0)
    by by_bytes.
  assert (E1 : forall a, byteZ a ->
    Z.lxor (Z.lxor (Z.lxor (z9 (z3 a)) (z14 (z2 a))) (z11 a)) (z13 a) = a)
    by by_bytes.
  assert (E2 : forall a, byteZ a ->
    Z.lxor (Z.lxor (Z.lxor (z9 a) (z14 (z3 a))) (z11 (z2 a))) (z13 a) = 0)
    by by_bytes.
  assert (E3 : forall a, byteZ a ->
    Z.lxor (Z.lxor (Z.lxor (z9 a) (z14 a)) (z11 (z3 a))) (z13 (z2 a)) = 0)
    by by_bytes.
  regroup z9 z9_lxor z14 z14_lxor z11 z11_lxor z13 z13_lxor.
  transitivity (Z.lxor (Z.lxor (Z.lxor 0 a1) 0) 0);
    [| now rewrite Z.lxor_0_l, !Z.lxor_0_r].
  f_equal; [f_equal; [f_equal|]|]; auto.
Qed.

Lemma unmix_row2 :
  Z.lxor (Z.lxor (Z.lxor (z13 m0) (z9 m1)) (z14 m2)) (z11 m3) = a2.
Proof.
  assert (E0 : forall a, byteZ a ->
    Z.lxor (Z.lxor (Z.lxor (z13 (z2 a)) (z9 a)) (z14 a)) (z11 (z3 a)) = 0)
    by by_bytes.
  assert (E1 : forall a, byteZ a ->
    Z.lxor (Z.lxor (Z.lxor (z13 (z3 a)) (z9 (z2 a))) (z14 a)) (z11 a) = 0)
    by by_bytes.
  assert (E2 : forall a, byteZ a ->
    Z.lxor (Z.lxor (Z.lxor (z13 a) (z9 (z3 a))) (z14 (z2 a))) (z11 a) = a)
    by by_bytes.
  assert (E3 : forall a, byteZ a ->
    Z.lxor (Z.lxor (Z.lxor (z13 a) (z9 a)) (z14 (z3 a))) (z11 (z2 a)) = 0)
    by by_bytes.
  regroup z13 z13_lxor z9 z9_lxor z14 z14_lxor z11 z11_lxor.
  transitivity (Z.lxor (Z.lxor (Z.lxor 0 0) a2) 0);
    [| now rewrite !Z.lxor_0_l, Z.lxor_0_r].
  f_equal; [f_equal; [f_equal|]|]; auto.
Qed.

Lemma unmix_row3 :
  Z.lxor (Z.lxor (Z.lxor (z11 m0) (z13 m1)) (z9 m2)) (z14 m3) = a3.
Proof.
  assert (E0 : forall a, byteZ a ->
    Z.lxor (Z.lxor (Z.lxor (z11 (z2 a)) (z13 a)) (z9 a)) (z14 (z3 a)) = 0)
    by by_bytes.
  assert (E1 : forall a, byteZ a ->
    Z.lxor (Z.lxor (Z.lxor (z11 (z3 a)) (z13 (z2 a))) (z9 a)) (z14 a) = 0)
    by by_bytes.
  assert (E2 : forall a, byteZ a ->
    Z.lxor (Z.lxor (Z.lxor (z11 a) (z13 (z3 a))) (z9 (z2 a))) (z14 a) = 0)
    by by_bytes.
  assert (E3 : forall a, byteZ a ->
    Z.lxor (Z.lxor (Z.lxor (z11 a) (z13 a)) (z9 (z3 a))) (z14 (z2 a)) = a)
    by by_bytes.
  regroup z11 z11_lxor z13 z13_lxor z9 z9_lxor z14 z14_lxor.
  transitivity (Z.lxor (Z.lxor (Z.lxor 0 0) 0) a3);
    [| now rewrite !Z.lxor_0_l].
  f_equal; [f_equal; [f_equal|]|]; auto.
Qed.
End Columns.

(* ---------------------------------------------------------------------- *)
(** *** From values to numbers *)

Lemma bxor_eq (v w : val) (a b : Z) :
  v = Num a -> w = Num b -> byteZ a -> byteZ b -> bxor v w = Num (Z.lxor a b).
Proof. intros -> -> Ha Hb. rewrite bxor_Num. f_equal. now apply zxor_lxor. Qed.

Lemma m2_eq (v : val) (a : Z) : v = Num a -> multiplyByTwo v = Num (z2 a).
Proof. intros ->. apply multiplyByTwo_Num. Qed.
Lemma m3_eq (v : val) (a : Z) : v = Num a -> multiplyByThree v = Num (z3 a).
Proof. intros ->. apply multiplyByThree_Num. Qed.
Lemma m9_eq (v : val) (a : Z) : v = Num a -> multiplyByNine v = Num (z9 a).
Proof. intros ->. apply multiplyByNine_Num. Qed.
Lemma m11_eq (v : val) (a : Z) : v = Num a -> multiplyByEleven v = Num (z11 a).
Proof. intros ->. apply multiplyByEleven_Num. Qed.
Lemma m13_eq (v : val) (a : Z) : v = Num a -> multiplyByThirteen v = Num (z13 a).
Proof. intros ->. apply multiplyByThirteen_Num. Qed.
Lemma m14_eq (v : val) (a : Z) : v = Num a -> multiplyByFourteen v = Num (z14 a).
Proof. intros ->. apply multiplyByFourteen_Num. Qed.

(** Rewrites a value built from bytes with [bxor] and the multiplications as
    [Num] of the same expression on numbers, following its shape. *)
Ltac to_num :=
  lazymatch goal with
  | |- bxor _ _ = _ => eapply bxor_eq; [to_num | to_num | is_byte | is_byte]
  | |- multiplyByTwo _ = _ => eapply m2_eq; to_num
  | |- multiplyByThree _ = _ => eapply m3_eq; to_num
  | |- multiplyByNine _ = _ => eapply m9_eq; to_num
  | |- multiplyByEleven _ = _ => eapply m11_eq; to_num
  | |- multiplyByThirteen _ = _ => eapply m13_eq; to_num
  | |- multiplyByFourteen _ = _ => eapply m14_eq; to_num
  | |- Num _ = _ => reflexivity
  end.

Lemma isByte_eq (v : val) (a : Z) : v = Num a -> byteZ a -> isByte v = true.
Proof. intros ->. apply isByte_of_byteZ. Qed.

Lemma mixCell_byte (a0 a1 a2 a3 : Z) (row : nat) :
  byteZ a0 -> byteZ a1 -> byteZ a2 -> byteZ a3 ->
  isByte (mixCell (Num a0) (Num a1) (Num a2) (Num a3) row) = true.
Proof.
  intros H0 H1 H2 H3.
  destruct row as [|[|[|row]]]; unfold mixCell;
    (eapply isByte_eq; [to_num | is_byte]).
Qed.

Lemma unmixCell_byte (a0 a1 a2 a3 : Z) (row : nat) :
  byteZ a0 -> byteZ a1 -> byteZ a2 -> byteZ a3 ->
  isByte (unmixCell (Num a0) (Num a1) (Num a2) (Num a3) row) = true.
Proof.
  intros H0 H1 H2 H3.
  destruct row as [|[|[|row]]]; unfold unmixCell;
    (eapply isByte_eq; [to_num | is_byte]).
Qed.

(** [inverseMixColumns] undoes [mixColumns] on one column of bytes. *)
Lemma unmixCell_mixCell (a0 a1 a2 a3 : Z) (row : nat) :
  byteZ a0 -> byteZ a1 -> byteZ a2 -> byteZ a3 -> (row < 4)%nat ->
  unmixCell (mixCell (Num a0) (Num a1) (Num a2) (Num a3) 0)
            (mixCell (Num a0) (Num a1) (Num a2) (Num a3) 1)
            (mixCell (Num a0) (Num a1) (Num a2) (Num a3) 2)
            (mixCell (Num a0) (Num a1) (Num a2) (Num a3) 3) row
  = nth row [Num a0; Num a1; Num a2; Num a3] Undefined.
Proof.
  intros H0 H1 H2 H3 Hrow.
  destruct row as [|[|[|[|row]]]]; [| | | | lia];
    unfold unmixCell, mixCell, nth;
    (eapply eq_trans; [to_num | f_equal]).
  - now apply unmix_row0.
  - now apply unmix_row1.
  - now apply unmix_row2.
  - now apply unmix_row3.
Qed.

(* ====================================================================== *)
(** ** State matrices *)
(* ====================================================================== *)

Lemma copyStateMatrix_id (s : state) : copyStateMatrix s = s.
Proof. unfold copyStateMatrix. apply map_id. Qed.

(** Splits a 4x4 matrix into its sixteen cells. *)
Lemma row4_inv (r : list val) :
  length r = 4%nat -> exists a b c d, r = [a; b; c; d].
Proof.
  destruct r as [|a [|b [|c [|d [|? ?]]]]]; try discriminate.
  intros _. now exists a, b, c, d.
Qed.

Lemma shape4_inv (s : state) :
  shape4 s ->
  exists a0 a1 a2 a3 b0 b1 b2 b3 c0 c1 c2 c3 d0 d1 d2 d3,
    s = [ [a0; a1; a2; a3]; [b0; b1; b2; b3];
          [c0; c1; c2; c3]; [d0; d1; d2; d3] ].
Proof.
  intros [Hl Hr].
  destruct s as [|r0 [|r1 [|r2 [|r3 [|? ?]]]]]; try discriminate Hl.
  apply Forall_cons_iff in Hr as [E0 Hr].
  apply Forall_cons_iff in Hr as [E1 Hr].
  apply Forall_cons_iff in Hr as [E2 Hr].
  apply Forall_cons_iff in Hr as [E3 _].
  destruct (row4_inv _ E0) as (a0 & a1 & a2 & a3 & ->).
  destruct (row4_inv _ E1) as (b0 & b1 & b2 & b3 & ->).
  destruct (row4_inv _ E2) as (c0 & c1 & c2 & c3 & ->).
  destruct (row4_inv _ E3) as (d0 & d1 & d2 & d3 & ->).
  now exists a0, a1, a2, a3, b0, b1, b2, b3, c0, c1, c2, c3, d0, d1, d2, d3.
Qed.

Ltac split_shape s H :=
  destruct (shape4_inv s H)
    as (?a & ?a & ?a & ?a & ?b & ?b & ?b & ?b
        & ?c & ?c & ?c & ?c & ?d & ?d & ?d & ?d & ->).

Lemma shape4_eta (s : state) : shape4 s -> s = tabulate4 (cell s).
Proof. intros H. split_shape s H. reflexivity. Qed.

Lemma shape4_tab (f : nat -> nat -> val) : shape4 (tabulate4 f).
Proof. split; [reflexivity | repeat constructor]. Qed.

Lemma cell_tab (f : nat -> nat -> val) (r c : nat) :
  (r < 4)%nat -> (c < 4)%nat -> cell (tabulate4 f) r c = f r c.
Proof.
  intros Hr Hc.
  destruct r as [|[|[|[|r]]]]; [| | | | lia];
    (destruct c as [|[|[|[|c]]]]; [| | | | lia]); reflexivity.
Qed.

Lemma tab_ext (f g : nat -> nat -> val) :
  (forall r c, (r < 4)%nat -> (c < 4)%nat -> f r c = g r c) ->
  tabulate4 f = tabulate4 g.
Proof.
  intros H. unfold tabulate4.
  repeat (f_equal; try (apply H; lia)).
Qed.

Lemma assignRowsCols_tab (f : nat -> nat -> val) (init : state) :
  shape4 init -> assignRowsCols f init = tabulate4 f.
Proof. intros H. split_shape init H. reflexivity. Qed.

Lemma assignColsRows_tab (f : nat -> nat -> val) (init : state) :
  shape4 init -> assignColsRows f init = tabulate4 f.
Proof. intros H. split_shape init H. reflexivity. Qed.

Lemma shape4_zeroMatrix : shape4 zeroMatrix.
Proof. split; [reflexivity | repeat constructor]. Qed.

Lemma bytesToStateMatrix_tab (bytes : list val) :
  bytesToStateMatrix bytes = tabulate4 (fun row col => get bytes (col * 4 + row)).
Proof. unfold bytesToStateMatrix. apply assignColsRows_tab, shape4_zeroMatrix. Qed.

Lemma substituteBytes_tab (s : state) :
  shape4 s ->
  substituteBytes s = tabulate4 (fun r c => index S_BOX (cell s r c)).
Proof.
  intros H. unfold substituteBytes.
  rewrite copyStateMatrix_id. now apply assignRowsCols_tab.
Qed.

Lemma inverseSubstituteBytes_tab (s : state) :
  shape4 s ->
  inverseSubstituteBytes s = tabulate4 (fun r c => index INVERSE_S_BOX (cell s r c)).
Proof.
  intros H. unfold inverseSubstituteBytes.
  rewrite copyStateMatrix_id. now apply assignRowsCols_tab.
Qed.

Lemma shiftRows_tab (s : state) :
  shape4 s -> shiftRows s = tabulate4 (fun r c => cell s r ((c + r) mod 4)).
Proof. intros H. split_shape s H. reflexivity. Qed.

Lemma inverseShiftRows_tab (s : state) :
  shape4 s ->
  inverseShiftRows s = tabulate4 (fun r c => cell s r ((c + 4 - r) mod 4)).
Proof. intros H. split_shape s H. reflexivity. Qed.

Lemma mixColumns_tab (s : state) :
  shape4 s ->
  mixColumns s
  = tabulate4 (fun r c => mixCell (cell s 0 c) (cell s 1 c) (cell s 2 c) (cell s 3 c) r).
Proof.
  intros H. unfold mixColumns.
  rewrite copyStateMatrix_id, assignColsRows_tab by assumption. reflexivity.
Qed.

Lemma inverseMixColumns_tab (s : state) :
  shape4 s ->
  inverseMixColumns s
  = tabulate4 (fun r c => unmixCell (cell s 0 c) (cell s 1 c) (cell s 2 c) (cell s 3 c) r).
Proof.
  intros H. unfold inverseMixColumns.
  rewrite copyStateMatrix_id, assignColsRows_tab by assumption. reflexivity.
Qed.

Lemma addRoundKey_tab (s roundKey : state) :
  shape4 s ->
  addRoundKey s roundKey = tabulate4 (fun r c => bxor (cell s r c) (cell roundKey r c)).
Proof.
  intros H. unfold addRoundKey.
  rewrite copyStateMatrix_id. now apply assignRowsCols_tab.
Qed.

(** The boolean test [isByteState] decides [byteState]. *)
Lemma isByteState_spec (s : state) : isByteState s = true <-> byteState s.
Proof.
  unfold isByteState, byteState, shape4. split.
  - intros H. apply andb_true_iff in H as [Hl Hrows].
    apply Nat.eqb_eq in Hl. rewrite forallb_forall in Hrows.
    assert (Hsh : Forall (fun row => length row = 4%nat) s).
    { apply Forall_forall. intros row Hin. apply Hrows in Hin.
      apply andb_true_iff in Hin as [E _]. now apply Nat.eqb_eq. }
    split; [now split|].
    intros r c Hr Hc. unfold cell, get.
    assert (Hin : In (nth r s []) s) by (apply nth_In; lia).
    apply Hrows in Hin. apply andb_true_iff in Hin as [E Hb].
    apply Nat.eqb_eq in E. rewrite forallb_forall in Hb.
    apply Hb, nth_In. lia.
  - intros [[Hl Hsh] Hb].
    pose proof (conj Hl Hsh) as Hs.
    rewrite (shape4_eta s Hs) in *.
    assert (C : forall r c, (r < 4)%nat -> (c < 4)%nat ->
                            isByte (cell s r c) = true) by
      (intros r c Hr Hc; specialize (Hb r c Hr Hc);
       now rewrite cell_tab in Hb by assumption).
    unfold tabulate4. cbn [length forallb Nat.eqb andb].
    rewrite !C by lia. reflexivity.
Qed.

Lemma byteState_tab (f : nat -> nat -> val) :
  (forall r c, (r < 4)%nat -> (c < 4)%nat -> isByte (f r c) = true) ->
  byteState (tabulate4 f).
Proof.
  intros H. split; [apply shape4_tab|].
  intros r c Hr Hc. rewrite cell_tab by assumption. now apply H.
Qed.

Lemma byteState_cell (s : state) (r c : nat) :
  byteState s -> (r < 4)%nat -> (c < 4)%nat ->
  exists a, cell s r c = Num a /\ byteZ a.
Proof. intros [_ H] Hr Hc. apply isByte_Num, H; assumption. Qed.

(* ====================================================================== *)
(** ** MixColumns and its inverse *)
(* ====================================================================== *)

Lemma mixColumns_byteState (s : state) : byteState s -> byteState (mixColumns s).
Proof.
  intros Hs. rewrite mixColumns_tab by apply Hs.
  apply byteState_tab. intros r c Hr Hc.
  destruct (byteState_cell s 0 c Hs) as (a0 & -> & B0); [lia | assumption |].
  destruct (byteState_cell s 1 c Hs) as (a1 & -> & B1); [lia | assumption |].
  destruct (byteState_cell s 2 c Hs) as (a2 & -> & B2); [lia | assumption |].
  destruct (byteState_cell s 3 c Hs) as (a3 & -> & B3); [lia | assumption |].
  now apply mixCell_byte.
Qed.

Lemma inverseMixColumns_byteState (s : state) :
  byteState s -> byteState (inverseMixColumns s).
Proof.
  intros Hs. rewrite inverseMixColumns_tab by apply Hs.
  apply byteState_tab. intros r c Hr Hc.
  destruct (byteState_cell s 0 c Hs) as (a0 & -> & B0); [lia | assumption |].
  destruct (byteState_cell s 1 c Hs) as (a1 & -> & B1); [lia | assumption |].
  destruct (byteState_cell s 2 c Hs) as (a2 & -> & B2); [lia | assumption |].
  destruct (byteState_cell s 3 c Hs) as (a3 & -> & B3); [lia | assumption |].
  now apply unmixCell_byte.
Qed.

Lemma inverseMixColumns_mixColumns_byteState (s : state) :
  byteState s -> inverseMixColumns (mixColumns s) = s.
Proof.
  intros Hs.
  rewrite inverseMixColumns_tab by apply mixColumns_byteState, Hs.
  rewrite mixColumns_tab by apply Hs.
  transitivity (tabulate4 (cell s)); [| symmetry; apply shape4_eta, Hs].
  apply tab_ext. intros r c Hr Hc.
  rewrite !cell_tab by (assumption || lia).
  destruct (byteState_cell s 0 c Hs) as (a0 & E0 & B0); [lia | assumption |].
  destruct (byteState_cell s 1 c Hs) as (a1 & E1 & B1); [lia | assumption |].
  destruct (byteState_cell s 2 c Hs) as (a2 & E2 & B2); [lia | assumption |].
  destruct (byteState_cell s 3 c Hs) as (a3 & E3 & B3); [lia | assumption |].
  rewrite E0, E1, E2, E3.
  rewrite unmixCell_mixCell by assumption.
  destruct r as [|[|[|[|r]]]]; [| | | | lia]; cbn [nth]; congruence.
Qed.

(** C4.  For every 4x4 state matrix whose cells are bytes,
    [inverseMixColumns (mixColumns s)] is [s]: the (14, 11, 13, 9) matrix
    undoes the (2, 3, 1, 1) matrix in GF(2^8), column by column. *)
Theorem C4_inverseMixColumns_mixColumns (s : state) :
  isByteState s = true -> inverseMixColumns (mixColumns s) = s.
Proof.
  intros H. apply inverseMixColumns_mixColumns_byteState.
  now apply isByteState_spec.
Qed.

Lemma C4_witness :
  isByteState sampleState = true
  /\ inverseMixColumns (mixColumns sampleState) = sampleState.
Proof.
  split; [reflexivity|].
  apply (C4_inverseMixColumns_mixColumns sampleState). reflexivity.
Defined.

(* ====================================================================== *)
(** ** SubBytes, ShiftRows, AddRoundKey *)
(* ====================================================================== *)

(** A table of bytes, read at a valid position, gives a byte. *)
Lemma index_byte (table : list Z) (n : Z) :
  forallb byteZb table = true ->
  0 <= n < Z.of_nat (length table) ->
  isByte (index table (Num n)) = true.
Proof.
  intros Ht Hn. unfold index.
  replace ((0 <=? n) && (n <? Z.of_nat (length table))) with true by lia.
  rewrite forallb_forall in Ht.
  apply (Ht (nth (Z.to_nat n) table 0)), nth_In. lia.
Qed.

Lemma S_BOX_bytes : forallb byteZb S_BOX = true.
Proof. vm_compute. reflexivity. Qed.

Lemma INVERSE_S_BOX_bytes : forallb byteZb INVERSE_S_BOX = true.
Proof. vm_compute. reflexivity. Qed.

Lemma ROUND_CONSTANTS_bytes : forallb byteZb ROUND_CONSTANTS = true.
Proof. vm_compute. reflexivity. Qed.

Lemma sbox_byte (v : val) : isByte v = true -> isByte (index S_BOX v) = true.
Proof.
  intros H. apply isByte_Num in H as (a & -> & Ha).
  apply index_byte; [apply S_BOX_bytes|].
  unfold byteZ in Ha. change (Z.of_nat (length S_BOX)) with 256. lia.
Qed.

Lemma inverse_sbox_byte (v : val) :
  isByte v = true -> isByte (index INVERSE_S_BOX v) = true.
Proof.
  intros H. apply isByte_Num in H as (a & -> & Ha).
  apply index_byte; [apply INVERSE_S_BOX_bytes|].
  unfold byteZ in Ha. change (Z.of_nat (length INVERSE_S_BOX)) with 256. lia.
Qed.

(** The inverse S-box undoes the S-box on every byte. *)
Lemma inverse_sbox_sbox (v : val) :
  isByte v = true -> index INVERSE_S_BOX (index S_BOX v) = v.
Proof.
  intros H. apply isByte_Num in H as (a & -> & Ha).
  apply strictEq_true.
  apply (forall_bytes
           (fun a => strictEq (index INVERSE_S_BOX (index S_BOX (Num a))) (Num a)));
    [vm_compute; reflexivity | exact Ha].
Qed.

Lemma bxor_byte (v w : val) :
  isByte v = true -> isByte w = true -> isByte (bxor v w) = true.
Proof.
  intros Hv Hw.
  apply isByte_Num in Hv as (a & -> & Ha).
  apply isByte_Num in Hw as (b & -> & Hb).
  eapply isByte_eq; [to_num | is_byte].
Qed.

(** XOR with the same byte twice gives the byte back. *)
Lemma bxor_bxor (v w : val) :
  isByte v = true -> isByte w = true -> bxor (bxor v w) w = v.
Proof.
  intros Hv Hw.
  apply isByte_Num in Hv as (a & -> & Ha).
  apply isByte_Num in Hw as (b & -> & Hb).
  eapply eq_trans; [to_num | f_equal].
  rewrite Z.lxor_assoc, Z.lxor_nilpotent. apply Z.lxor_0_r.
Qed.

Lemma substituteBytes_byteState (s : state) :
  byteState s -> byteState (substituteBytes s).
Proof.
  intros Hs. rewrite substituteBytes_tab by apply Hs.
  apply byteState_tab. intros r c Hr Hc. apply sbox_byte, Hs; assumption.
Qed.

Lemma shiftRows_byteState (s : state) : byteState s -> byteState (shiftRows s).
Proof.
  intros Hs. rewrite shiftRows_tab by apply Hs.
  apply byteState_tab. intros r c Hr Hc.
  apply Hs; [assumption | apply Nat.mod_upper_bound; lia].
Qed.

Lemma addRoundKey_byteState (s k : state) :
  byteState s -> byteState k -> byteState (addRoundKey s k).
Proof.
  intros Hs Hk. rewrite addRoundKey_tab by apply Hs.
  apply byteState_tab. intros r c Hr Hc.
  apply bxor_byte; [apply Hs | apply Hk]; assumption.
Qed.

(** [inverseShiftRows] then [inverseSubstituteBytes], as [decryptBlock] applies
    them, undo [substituteBytes] then [shiftRows]. *)
Lemma unsub_unshift_shift_sub (s : state) :
  byteState s ->
  inverseSubstituteBytes (inverseShiftRows (shiftRows (substituteBytes s))) = s.
Proof.
  intros Hs.
  pose proof (substituteBytes_byteState s Hs) as H1.
  pose proof (shiftRows_byteState _ H1) as H2.
  rewrite inverseSubstituteBytes_tab
    by (rewrite inverseShiftRows_tab by apply H2; apply shape4_tab).
  rewrite inverseShiftRows_tab by apply H2.
  rewrite shiftRows_tab by apply H1.
  rewrite substituteBytes_tab by apply Hs.
  transitivity (tabulate4 (cell s)); [| symmetry; apply shape4_eta, Hs].
  apply tab_ext. intros r c Hr Hc.
  rewrite cell_tab by assumption.
  rewrite cell_tab by (try assumption; apply Nat.mod_upper_bound; lia).
  rewrite cell_tab by (try assumption; apply Nat.mod_upper_bound; lia).
  replace (((c + 4 - r) mod 4 + r) mod 4)%nat with c.
  - apply inverse_sbox_sbox, Hs; assumption.
  - destruct r as [|[|[|[|r]]]]; [| | | | lia];
      (destruct c as [|[|[|[|c]]]]; [| | | | lia]); reflexivity.
Qed.

Lemma addRoundKey_twice (s k : state) :
  byteState s -> byteState k -> addRoundKey (addRoundKey s k) k = s.
Proof.
  intros Hs Hk.
  rewrite (addRoundKey_tab (addRoundKey s k))
    by (rewrite addRoundKey_tab by apply Hs; apply shape4_tab).
  rewrite addRoundKey_tab by apply Hs.
  transitivity (tabulate4 (cell s)); [| symmetry; apply shape4_eta, Hs].
  apply tab_ext. intros r c Hr Hc.
  rewrite cell_tab by assumption.
  apply bxor_bxor; [apply Hs | apply Hk]; assumption.
Qed.

(* ---------------------------------------------------------------------- *)
(** *** Blocks and states *)

Lemma stateMatrixToBytes_tab (f : nat -> nat -> val) :
  stateMatrixToBytes (tabulate4 f)
  = [ f 0 0; f 1 0; f 2 0; f 3 0;  f 0 1; f 1 1; f 2 1; f 3 1;
      f 0 2; f 1 2; f 2 2; f 3 2;  f 0 3; f 1 3; f 2 3; f 3 3 ]%nat.
Proof. reflexivity. Qed.

Lemma stateMatrixToBytes_length (s : state) : length (stateMatrixToBytes s) = 16%nat.
Proof. reflexivity. Qed.

Lemma stateMatrixToBytes_bytesToStateMatrix (block : list val) :
  length block = 16%nat -> stateMatrixToBytes (bytesToStateMatrix block) = block.
Proof.
  intros H. rewrite bytesToStateMatrix_tab, stateMatrixToBytes_tab.
  do 17 (destruct block as [|? block]; try discriminate H).
  reflexivity.
Qed.

Lemma bytesToStateMatrix_stateMatrixToBytes (s : state) :
  shape4 s -> bytesToStateMatrix (stateMatrixToBytes s) = s.
Proof. intros H. split_shape s H. reflexivity. Qed.

Lemma bytesToStateMatrix_byteState (block : list val) :
  length block = 16%nat -> byteArray block ->
  byteState (bytesToStateMatrix block).
Proof.
  intros Hl Hb. rewrite bytesToStateMatrix_tab.
  apply byteState_tab. intros r c Hr Hc.
  unfold byteArray in Hb. rewrite forallb_forall in Hb.
  apply Hb. unfold get. apply nth_In. lia.
Qed.

Lemma stateMatrixToBytes_byteArray (s : state) :
  byteState s -> byteArray (stateMatrixToBytes s).
Proof.
  intros Hs. rewrite (shape4_eta s) by apply Hs.
  rewrite stateMatrixToBytes_tab. unfold byteArray.
  destruct Hs as [_ Hs]. cbn [forallb].
  rewrite !Hs by lia. reflexivity.
Qed.

(* ====================================================================== *)
(** ** encryptBlock and decryptBlock *)
(* ====================================================================== *)

Lemma track_off (rnd : nat) (stp : string) (st : state) (key : option state) :
  track false rnd stp st key = Ok [].
Proof. reflexivity. Qed.

Lemma encryptRound_untracked (rks : list state) (st : state)
      (details : list roundDetail) (rnd : nat) :
  encryptRound rks false (st, details) rnd = Ok (encRound rks st rnd, details).
Proof.
  unfold encryptRound, encRound. rewrite !track_off. cbn [bind].
  rewrite !app_nil_r. reflexivity.
Qed.

Lemma decryptRound_untracked (rks : list state) (st : state)
      (details : list roundDetail) (rnd : nat) :
  decryptRound rks false (st, details) rnd = Ok (decRound rks st rnd, details).
Proof.
  unfold decryptRound, decRound. rewrite !track_off. cbn [bind].
  rewrite !app_nil_r. reflexivity.
Qed.

Lemma foldM_cons {A S : Type} (body : S -> A -> result S) (a : A) (l : list A)
      (s : S) :
  foldM body (a :: l) s = bind (body s a) (fun s' => foldM body l s').
Proof. reflexivity. Qed.

Lemma bind_Ok {A B : Type} (a : A) (k : A -> result B) : bind (Ok a) k = k a.
Proof. reflexivity. Qed.

Lemma fold_left_cons {A B : Type} (f : A -> B -> A) (b : B) (l : list B) (a : A) :
  fold_left f (b :: l) a = fold_left f l (f a b).
Proof. reflexivity. Qed.

(** Without tracking, the main loop of [encryptBlock] is the loop on states. *)
Lemma encrypt_rounds_untracked (rks : list state) (rounds : list nat)
      (st : state) (details : list roundDetail) :
  foldM (encryptRound rks false) rounds (st, details)
  = Ok (fold_left (encRound rks) rounds st, details).
Proof.
  revert st details. induction rounds as [|rnd rounds IH]; intros st details.
  - reflexivity.
  - rewrite foldM_cons, fold_left_cons, encryptRound_untracked, bind_Ok.
    apply IH.
Qed.

Lemma decrypt_rounds_untracked (rks : list state) (rounds : list nat)
      (st : state) (details : list roundDetail) :
  foldM (decryptRound rks false) rounds (st, details)
  = Ok (fold_left (decRound rks) rounds st, details).
Proof.
  revert st details. induction rounds as [|rnd rounds IH]; intros st details.
  - reflexivity.
  - rewrite foldM_cons, fold_left_cons, decryptRound_untracked, bind_Ok.
    apply IH.
Qed.

Lemma encryptBlock_untracked (block : list val) (rks : list state) :
  encryptBlock block rks false
  = Ok {| outBlock := stateMatrixToBytes (encryptState rks (bytesToStateMatrix block));
          blockDetails := [] |}.
Proof.
  unfold encryptBlock, encryptState. rewrite !track_off. cbn [bind app].
  rewrite (encrypt_rounds_untracked rks (seq 1 (NUMBER_OF_ROUNDS - 1))).
  rewrite bind_Ok, !track_off. cbn [bind app]. reflexivity.
Qed.

Lemma decryptBlock_untracked (block : list val) (rks : list state) :
  decryptBlock block rks false
  = Ok {| outBlock := stateMatrixToBytes (decryptState rks (bytesToStateMatrix block));
          blockDetails := [] |}.
Proof.
  unfold decryptBlock, decryptState. rewrite !track_off. cbn [bind app].
  rewrite (decrypt_rounds_untracked rks roundsDown).
  rewrite bind_Ok, !track_off. cbn [bind app]. reflexivity.
Qed.

Section Rounds.
Variable rks : list state.
Hypothesis Hrks : byteKeys rks.

Lemma encRound_byteState (st : state) (rnd : nat) :
  (rnd <= NUMBER_OF_ROUNDS)%nat -> byteState st -> byteState (encRound rks st rnd).
Proof.
  intros Hr Hs. unfold encRound.
  apply addRoundKey_byteState; [|now apply Hrks].
  now apply mixColumns_byteState, shiftRows_byteState, substituteBytes_byteState.
Qed.

Lemma encRounds_byteState (rounds : list nat) (st : state) :
  Forall (fun r => r <= NUMBER_OF_ROUNDS)%nat rounds ->
  byteState st -> byteState (fold_left (encRound rks) rounds st).
Proof.
  revert st. induction rounds as [|rnd rounds IH]; intros st Hr Hs.
  - exact Hs.
  - rewrite fold_left_cons. inversion Hr; subst.
    apply IH; [assumption|]. now apply encRound_byteState.
Qed.

(** One decryption round undoes one encryption round, seen through
    [shiftRows] and [substituteBytes]: this is the loop invariant of
    [decryptBlock]. *)
Lemma decRound_encRound (st : state) (rnd : nat) :
  (rnd <= NUMBER_OF_ROUNDS)%nat -> byteState st ->
  decRound rks (shiftRows (substituteBytes (encRound rks st rnd))) rnd
  = shiftRows (substituteBytes st).
Proof.
  intros Hr Hs. unfold decRound.
  rewrite unsub_unshift_shift_sub by now apply encRound_byteState.
  unfold encRound.
  pose proof (shiftRows_byteState _ (substituteBytes_byteState _ Hs)) as H1.
  rewrite addRoundKey_twice
    by (try apply mixColumns_byteState; auto using Hrks).
  now apply inverseMixColumns_mixColumns_byteState.
Qed.

Lemma decRounds_encRounds (rounds : list nat) (st : state) :
  Forall (fun r => r <= NUMBER_OF_ROUNDS)%nat rounds ->
  byteState st ->
  fold_left (decRound rks) (rev rounds)
            (shiftRows (substituteBytes (fold_left (encRound rks) rounds st)))
  = shiftRows (substituteBytes st).
Proof.
  revert st. induction rounds as [|rnd rounds IH]; intros st Hr Hs.
  - reflexivity.
  - inversion Hr; subst.
    rewrite fold_left_cons.
    change (rev (rnd :: rounds)) with (rev rounds ++ [rnd]).
    rewrite fold_left_app, fold_left_cons.
    rewrite IH by (try assumption; now apply encRound_byteState).
    now apply decRound_encRound.
Qed.

Lemma main_rounds_bounded :
  Forall (fun r => r <= NUMBER_OF_ROUNDS)%nat (seq 1 (NUMBER_OF_ROUNDS - 1)).
Proof. apply Forall_forall. intros r Hr. apply in_seq in Hr.
  unfold NUMBER_OF_ROUNDS in *. lia. Qed.

Lemma encryptState_byteState (st : state) :
  byteState st -> byteState (encryptState rks st).
Proof.
  intros Hs. unfold encryptState.
  apply addRoundKey_byteState; [|apply Hrks; unfold NUMBER_OF_ROUNDS; lia].
  apply shiftRows_byteState, substituteBytes_byteState.
  apply encRounds_byteState; [apply main_rounds_bounded|].
  apply addRoundKey_byteState; [assumption | apply Hrks; unfold NUMBER_OF_ROUNDS; lia].
Qed.

Lemma decryptState_encryptState (st : state) :
  byteState st -> decryptState rks (encryptState rks st) = st.
Proof.
  intros Hs.
  assert (H0 : byteState (addRoundKey st (keyAt rks 0)))
    by (apply addRoundKey_byteState; [assumption | apply Hrks; unfold NUMBER_OF_ROUNDS; lia]).
  pose proof (encRounds_byteState _ _ main_rounds_bounded H0) as H1.
  unfold decryptState, encryptState.
  rewrite addRoundKey_twice
    by (try apply shiftRows_byteState, substituteBytes_byteState;
        try apply Hrks; auto).
  unfold roundsDown.
  rewrite decRounds_encRounds by (apply main_rounds_bounded || assumption).
  rewrite unsub_unshift_shift_sub by assumption.
  apply addRoundKey_twice; [assumption | apply Hrks; unfold NUMBER_OF_ROUNDS; lia].
Qed.
End Rounds.

(* ====================================================================== *)
(** ** The key schedule *)
(* ====================================================================== *)

Lemma fst_expandStep (acc : list word * list stepDetails) (i : nat) :
  fst (expandStep acc i) = fst acc ++ [nextWord (fst acc) i].
Proof.
  destruct acc as [words details]. unfold expandStep, nextWord.
  cbn [fst].
  destruct (i mod KEY_SIZE_WORDS =? 0)%nat; [reflexivity|].
  destruct (i mod KEY_SIZE_WORDS =? 4)%nat; reflexivity.
Qed.

Lemma fold_expandStep (key : list val) (n : nat) :
  fst (fold_left expandStep (seq KEY_SIZE_WORDS n) (keyWords key, []))
  = wordsAfter key n.
Proof.
  induction n as [|n IH].
  - reflexivity.
  - rewrite seq_S, fold_left_app, fold_left_cons.
    change (fold_left expandStep [] ?x) with x.
    rewrite fst_expandStep, IH. reflexivity.
Qed.

Lemma scheduleWords_wordsAfter (key : list val) :
  scheduleWords key = wordsAfter key 52.
Proof. unfold scheduleWords, expandWords. apply fold_expandStep. Qed.

Lemma roundKeys_expandKey (key : list val) :
  roundKeys (expandKey key)
  = map (roundKeyOf (scheduleWords key)) (seq 0 (NUMBER_OF_ROUNDS + 1)).
Proof.
  unfold expandKey, scheduleWords.
  destruct (expandWords key) as [words details]. reflexivity.
Qed.

Lemma wordsAfter_length (key : list val) (n : nat) :
  length (wordsAfter key n) = (KEY_SIZE_WORDS + n)%nat.
Proof.
  induction n as [|n IH].
  - reflexivity.
  - cbn [wordsAfter]. rewrite length_app, IH. cbn [length]. lia.
Qed.

(** Words already written are never changed. *)
Lemma wordsAfter_stable (key : list val) (m n i : nat) :
  (m <= n)%nat -> (i < KEY_SIZE_WORDS + m)%nat ->
  wordAt (wordsAfter key n) i = wordAt (wordsAfter key m) i.
Proof.
  intros Hmn Hi. induction Hmn as [|n Hmn IH].
  - reflexivity.
  - cbn [wordsAfter]. unfold wordAt in *.
    rewrite app_nth1 by (rewrite wordsAfter_length; lia). exact IH.
Qed.

Lemma wordsAfter_last (key : list val) (n : nat) :
  wordAt (wordsAfter key (S n)) (KEY_SIZE_WORDS + n)
  = nextWord (wordsAfter key n) (KEY_SIZE_WORDS + n).
Proof.
  cbn [wordsAfter]. unfold wordAt.
  rewrite app_nth2 by (rewrite wordsAfter_length; lia).
  rewrite wordsAfter_length, Nat.sub_diag. reflexivity.
Qed.

(** [nextWord] only reads the two words at [i - 1] and [i - 8]. *)
Lemma nextWord_ext (ws ws' : list word) (i : nat) :
  wordAt ws (i - 1) = wordAt ws' (i - 1) ->
  wordAt ws (i - KEY_SIZE_WORDS) = wordAt ws' (i - KEY_SIZE_WORDS) ->
  nextWord ws i = nextWord ws' i.
Proof. intros H1 H8. unfold nextWord. now rewrite H1, H8. Qed.

(** The recurrence of the schedule, on the final array of words. *)
Lemma scheduleWords_step (key : list val) (i : nat) :
  (8 <= i < 60)%nat ->
  wordAt (scheduleWords key) i = nextWord (scheduleWords key) i.
Proof.
  intros Hi. rewrite scheduleWords_wordsAfter.
  assert (E : exists m, i = (KEY_SIZE_WORDS + m)%nat /\ (m < 52)%nat)
    by (exists (i - 8)%nat; unfold KEY_SIZE_WORDS; lia).
  destruct E as (m & -> & Hm).
  rewrite (wordsAfter_stable key (S m) 52) by lia.
  rewrite wordsAfter_last.
  apply nextWord_ext; symmetry; apply wordsAfter_stable;
    unfold KEY_SIZE_WORDS; lia.
Qed.

Lemma scheduleWords_key (key : list val) (i : nat) :
  (i < 8)%nat ->
  wordAt (scheduleWords key) i
  = [get key (4 * i); get key (4 * i + 1); get key (4 * i + 2); get key (4 * i + 3)].
Proof.
  intros Hi. rewrite scheduleWords_wordsAfter.
  rewrite (wordsAfter_stable key 0 52) by (unfold KEY_SIZE_WORDS; lia).
  cbn [wordsAfter]. unfold keyWords, wordAt, KEY_SIZE_WORDS.
  do 8 (destruct i as [|i]; [reflexivity|]). lia.
Qed.

Lemma scheduleWords_length (key : list val) : length (scheduleWords key) = 60%nat.
Proof. rewrite scheduleWords_wordsAfter. apply wordsAfter_length. Qed.

(* ---------------------------------------------------------------------- *)
(** *** Every word of the schedule is four bytes *)

Lemma byteWord_inv (w : word) :
  byteWord w ->
  exists a b c d, w = [a; b; c; d] /\
    isByte a = true /\ isByte b = true /\ isByte c = true /\ isByte d = true.
Proof.
  intros [Hl Hb]. destruct (row4_inv w Hl) as (a & b & c & d & ->).
  exists a, b, c, d. unfold byteArray in Hb. cbn [forallb] in Hb.
  repeat (apply andb_true_iff in Hb as [? Hb]). auto.
Qed.

Lemma byteWord_intro (a b c d : val) :
  isByte a = true -> isByte b = true -> isByte c = true -> isByte d = true ->
  byteWord [a; b; c; d].
Proof.
  intros Ha Hb Hc Hd. split; [reflexivity|].
  unfold byteArray. cbn [forallb]. now rewrite Ha, Hb, Hc, Hd.
Qed.

Lemma byteArray_get (l : list val) (i : nat) :
  byteArray l -> (i < length l)%nat -> isByte (get l i) = true.
Proof.
  intros H Hi. unfold byteArray in H. rewrite forallb_forall in H.
  apply H. unfold get. now apply nth_In.
Qed.

Lemma rcon_byte (i : nat) :
  (i < 120)%nat ->
  isByte (index ROUND_CONSTANTS (Num (Z.of_nat (i / KEY_SIZE_WORDS)))) = true.
Proof.
  intros Hi. apply index_byte; [apply ROUND_CONSTANTS_bytes|].
  change (Z.of_nat (length ROUND_CONSTANTS)) with 15.
  assert (i / KEY_SIZE_WORDS < 15)%nat
    by (apply Nat.Div0.div_lt_upper_bound; unfold KEY_SIZE_WORDS; lia).
  lia.
Qed.

Lemma bxor_zero (v : val) : isByte v = true -> bxor v (Num 0) = v.
Proof.
  intros H. apply isByte_Num in H as (a & -> & Ha).
  assert (H0 : byteZ 0) by (unfold byteZ; lia).
  eapply eq_trans; [to_num | f_equal; apply Z.lxor_0_r].
Qed.

(** The words of the code and of the specification agree on byte words. *)
Lemma nextWord_spec (ws : list word) (i : nat) :
  byteWord (wordAt ws (i - 1)) -> byteWord (wordAt ws (i - KEY_SIZE_WORDS)) ->
  nextWord ws i
  = specXor (specTransform i (wordAt ws (i - 1))) (wordAt ws (i - 8)).
Proof.
  intros H1 H8. unfold nextWord, specTransform.
  change KEY_SIZE_WORDS with 8%nat in *.
  apply byteWord_inv in H1 as (a & b & c & d & -> & Ha & Hb & Hc & Hd).
  apply byteWord_inv in H8 as (e & f & g & h & -> & He & Hf & Hg & Hh).
  destruct (i mod 8 =? 0)%nat.
  - cbn [rotateWord specRotWord get nth substituteWord specSubWord map
         xorFirst update xorWords mapi mapiFrom specXor combine fst snd].
    rewrite !bxor_zero by now apply sbox_byte. reflexivity.
  - destruct (i mod 8 =? 4)%nat; reflexivity.
Qed.

Lemma nextWord_byteWord (ws : list word) (i : nat) :
  (i < 120)%nat ->
  byteWord (wordAt ws (i - 1)) -> byteWord (wordAt ws (i - KEY_SIZE_WORDS)) ->
  byteWord (nextWord ws i).
Proof.
  intros Hi H1 H8. unfold nextWord.
  pose proof (rcon_byte i Hi) as Hrc.
  apply byteWord_inv in H1 as (a & b & c & d & -> & Ha & Hb & Hc & Hd).
  apply byteWord_inv in H8 as (e & f & g & h & -> & He & Hf & Hg & Hh).
  destruct (i mod KEY_SIZE_WORDS =? 0)%nat;
    [| destruct (i mod KEY_SIZE_WORDS =? 4)%nat ];
    cbn [rotateWord get nth substituteWord map xorFirst update
         xorWords mapi mapiFrom];
    apply byteWord_intro; repeat (apply bxor_byte || apply sbox_byte); assumption.
Qed.

Section Schedule.
Variable key : list val.
Hypothesis key_length : length key = 32%nat.
Hypothesis key_bytes : byteArray key.

Lemma keyWords_byteWord (i : nat) :
  (i < 8)%nat -> byteWord (wordAt (keyWords key) i).
Proof.
  intros Hi. unfold keyWords, wordAt, KEY_SIZE_WORDS.
  do 8 (destruct i as [|i];
        [apply byteWord_intro; apply byteArray_get;
         (assumption || (rewrite key_length; cbn; lia))|]).
  lia.
Qed.

Lemma wordsAfter_byteWord (n i : nat) :
  (n <= 52)%nat -> (i < KEY_SIZE_WORDS + n)%nat ->
  byteWord (wordAt (wordsAfter key n) i).
Proof.
  revert i. induction n as [|n IH]; intros i Hn Hi.
  - apply keyWords_byteWord. unfold KEY_SIZE_WORDS in Hi. lia.
  - destruct (Nat.eq_dec i (KEY_SIZE_WORDS + n)) as [->|Hne].
    + rewrite wordsAfter_last.
      apply nextWord_byteWord;
        [unfold KEY_SIZE_WORDS; lia | apply IH; unfold KEY_SIZE_WORDS; lia ..].
    + rewrite (wordsAfter_stable key n (S n)) by lia.
      apply IH; lia.
Qed.

Lemma scheduleWords_byteWord (i : nat) :
  (i < 60)%nat -> byteWord (wordAt (scheduleWords key) i).
Proof.
  intros Hi. rewrite scheduleWords_wordsAfter.
  apply wordsAfter_byteWord; unfold KEY_SIZE_WORDS; lia.
Qed.

Lemma roundKeyOf_tab (words : list word) (r : nat) :
  roundKeyOf words r
  = tabulate4 (fun byteIndex wordIndex =>
                 get (wordAt words (r * 4 + wordIndex)) byteIndex).
Proof. unfold roundKeyOf. apply assignColsRows_tab, shape4_zeroMatrix. Qed.

Lemma keyAt_expandKey (r : nat) :
  (r <= NUMBER_OF_ROUNDS)%nat ->
  keyAt (roundKeys (expandKey key)) r = roundKeyOf (scheduleWords key) r.
Proof.
  intros Hr. rewrite roundKeys_expandKey. unfold keyAt.
  rewrite nth_indep with (d' := roundKeyOf (scheduleWords key) 0)
    by (rewrite length_map, length_seq; lia).
  rewrite (map_nth (roundKeyOf (scheduleWords key))).
  rewrite seq_nth by lia. reflexivity.
Qed.

Lemma expandKey_byteKeys : byteKeys (roundKeys (expandKey key)).
Proof.
  intros r Hr. rewrite keyAt_expandKey by assumption.
  rewrite roundKeyOf_tab. apply byteState_tab. intros b w Hb Hw.
  apply byteArray_get.
  - apply scheduleWords_byteWord. unfold NUMBER_OF_ROUNDS in Hr. lia.
  - destruct (scheduleWords_byteWord (r * 4 + w)) as [-> _];
      [unfold NUMBER_OF_ROUNDS in Hr; lia | assumption].
Qed.
End Schedule.

(** C3.  For a 32-byte key, [expandKey] returns 15 round keys built from 60
    words of four bytes: words 0..7 are the consecutive 4-byte groups of the key; every
    later word [i] is [transform(words[i-1]) XOR words[i-8]], where the
    transform is SubWord(RotWord(w)) XOR (Rcon[i/8], 0, 0, 0) when
    [i mod 8 = 0], SubWord(w) when [i mod 8 = 4] and the identity otherwise;
    round key [r] has words [4r .. 4r+3] as its columns; and round key 0 is
    the key itself laid out column by column. *)
Theorem C3_key_schedule (key : list val) :
  length key = 32%nat -> byteArray key ->
  let words := scheduleWords key in
  let rks := roundKeys (expandKey key) in
  length rks = 15%nat /\
  length words = 60%nat /\
  (forall i, (i < 60)%nat -> byteWord (wordAt words i)) /\
  (forall i, (i < 8)%nat -> wordAt words i = firstn 4 (skipn (4 * i) key)) /\
  (forall i, (8 <= i < 60)%nat ->
     wordAt words i
     = specXor (specTransform i (wordAt words (i - 1))) (wordAt words (i - 8))) /\
  (forall r, (r < 15)%nat ->
     keyAt rks r
     = columnsOf (wordAt words (4 * r)) (wordAt words (4 * r + 1))
                 (wordAt words (4 * r + 2)) (wordAt words (4 * r + 3))) /\
  keyAt rks 0 = bytesToStateMatrix key.
Proof.
  intros Hl Hb words rks. subst words rks.
  split; [| split; [| split; [| split; [| split; [| split]]]]].
  - rewrite roundKeys_expandKey, length_map, length_seq. reflexivity.
  - apply scheduleWords_length.
  - intros i Hi. now apply scheduleWords_byteWord.
  - intros i Hi. rewrite scheduleWords_key by assumption.
    do 33 (destruct key as [|? key]; try discriminate Hl).
    do 8 (destruct i as [|i]; [reflexivity|]). lia.
  - intros i Hi. rewrite scheduleWords_step by assumption.
    apply nextWord_spec; apply scheduleWords_byteWord;
      (assumption || unfold KEY_SIZE_WORDS; lia).
  - intros r Hr.
    rewrite keyAt_expandKey by (unfold NUMBER_OF_ROUNDS; lia).
    rewrite roundKeyOf_tab. unfold columnsOf. apply tab_ext.
    intros b w Hb' Hw. replace (r * 4)%nat with (4 * r)%nat by lia.
    destruct w as [|[|[|[|w]]]]; [| | | | lia]; cbn [nth];
      rewrite ?Nat.add_0_r; reflexivity.
  - rewrite keyAt_expandKey by (unfold NUMBER_OF_ROUNDS; lia).
    rewrite roundKeyOf_tab, bytesToStateMatrix_tab. apply tab_ext.
    intros b w Hb' Hw. cbn [Nat.mul Nat.add].
    rewrite scheduleWords_key by lia.
    destruct b as [|[|[|[|b]]]]; [| | | | lia]; cbn [get nth];
      unfold get; f_equal; lia.
Qed.

Lemma C3_witness :
  length sampleKey = 32%nat /\ byteArray sampleKey /\
  keyAt (roundKeys (expandKey sampleKey)) 0 = bytesToStateMatrix sampleKey.
Proof.
  split; [reflexivity | split; [reflexivity|]].
  apply (C3_key_schedule sampleKey); reflexivity.
Defined.

(* ====================================================================== *)
(** ** Block round trip *)
(* ====================================================================== *)

Lemma decrypt_encrypt_block (rks : list state) (block : list val) :
  byteKeys rks -> length block = 16%nat -> byteArray block ->
  stateMatrixToBytes
    (decryptState rks
       (bytesToStateMatrix
          (stateMatrixToBytes (encryptState rks (bytesToStateMatrix block)))))
  = block.
Proof.
  intros Hk Hl Hb.
  pose proof (bytesToStateMatrix_byteState block Hl Hb) as Hs.
  pose proof (encryptState_byteState rks Hk _ Hs) as He.
  rewrite bytesToStateMatrix_stateMatrixToBytes by apply He.
  rewrite decryptState_encryptState by assumption.
  now apply stateMatrixToBytes_bytesToStateMatrix.
Qed.

(** C2.  For every 32-byte key, with [roundKeys = expandKey(key).roundKeys],
    and every 16-byte block, decrypting the encrypted block gives the block
    back: [decryptBlock(encryptBlock(block, roundKeys).encryptedBlock,
    roundKeys).decryptedBlock = block]. *)
Theorem C2_block_round_trip (key block : list val) :
  length key = 32%nat -> byteArray key ->
  length block = 16%nat -> byteArray block ->
  let rks := roundKeys (expandKey key) in
  (e <- encryptBlock block rks false ;;
   d <- decryptBlock (outBlock e) rks false ;;
   Ok (outBlock d)) = Ok block.
Proof.
  intros Hkl Hkb Hl Hb rks.
  rewrite encryptBlock_untracked, bind_Ok. cbn [outBlock].
  rewrite decryptBlock_untracked, bind_Ok. cbn [outBlock].
  f_equal. apply decrypt_encrypt_block; try assumption.
  now apply expandKey_byteKeys.
Qed.

Lemma C2_witness :
  length sampleKey = 32%nat /\ byteArray sampleKey /\
  length sampleBlock = 16%nat /\ byteArray sampleBlock /\
  (e <- encryptBlock sampleBlock (roundKeys (expandKey sampleKey)) false ;;
   d <- decryptBlock (outBlock e) (roundKeys (expandKey sampleKey)) false ;;
   Ok (outBlock d)) = Ok sampleBlock.
Proof.
  do 4 (split; [reflexivity|]).
  apply (C2_block_round_trip sampleKey sampleBlock); reflexivity.
Defined.

(** The known-answer vector of FIPS-197 for AES-256. *)
Example known_answer_vector :
  (e <- encryptBlock sampleBlock (roundKeys (expandKey sampleKey)) false ;;
   bytesToHex (outBlock e)) = Ok "f3eed1bdb5d2a03c064b5a7e3db181f8".
Proof. vm_compute. reflexivity. Qed.

(* ====================================================================== *)
(** ** Slices and blocks *)
(* ====================================================================== *)

Lemma slice_nat {A : Type} (l : list A) (a b : nat) :
  (a <= b)%nat ->
  slice l (Z.of_nat a) (Z.of_nat b) = firstn (b - a) (skipn a l).
Proof.
  intros Hab. unfold slice, relIndex.
  replace (Z.of_nat a <? 0) with false by lia.
  replace (Z.of_nat b <? 0) with false by lia.
  destruct (Nat.le_gt_cases a (length l)) as [Ha|Ha].
  - rewrite (Z.min_l (Z.of_nat a)) by lia. rewrite Nat2Z.id.
    destruct (Nat.le_gt_cases b (length l)) as [Hb|Hb].
    + rewrite Z.min_l by lia. f_equal. lia.
    + rewrite Z.min_r by lia.
      rewrite !firstn_all2 by (rewrite length_skipn; lia). reflexivity.
  - rewrite !Z.min_r by lia. rewrite Z.sub_diag. cbn [Z.to_nat firstn].
    rewrite (skipn_all2 l) by lia. now rewrite firstn_nil.
Qed.

Lemma blockAt_eq (data : list val) (i : nat) :
  blockAt data i = firstn 16 (skipn (16 * i) data).
Proof.
  unfold blockAt. rewrite slice_nat by lia. f_equal. lia.
Qed.

Lemma blockCount_full (n : nat) : blockCount (16 * n) = n.
Proof.
  unfold blockCount.
  replace (16 * n + 15)%nat with (15 + n * 16)%nat by lia.
  rewrite Nat.div_add by lia. reflexivity.
Qed.

(** The blocks of a concatenation of 16-byte blocks are those blocks. *)
Lemma blockAt_concat (blocks : list (list val)) (i : nat) :
  Forall (fun b => length b = 16%nat) blocks ->
  (i < length blocks)%nat ->
  blockAt (concat blocks) i = nth i blocks [].
Proof.
  rewrite blockAt_eq. revert i.
  induction blocks as [|b blocks IH]; intros i Hall Hi; [cbn in Hi; lia|].
  apply Forall_cons_iff in Hall as [Hb Hall]. cbn [concat].
  destruct i as [|i].
  - rewrite Nat.mul_0_r. cbn [skipn nth].
    rewrite firstn_app, Hb, Nat.sub_diag, firstn_O, app_nil_r.
    apply firstn_all2. lia.
  - cbn [nth]. replace (16 * S i)%nat with (length b + 16 * i)%nat by lia.
    rewrite skipn_app, Nat.add_comm, Nat.add_sub.
    rewrite (skipn_all2 b) by lia. cbn [app].
    apply IH; [assumption | cbn in Hi; lia].
Qed.

(** A sequence of [16 * n] bytes is the concatenation of its [n] blocks. *)
Lemma concat_blocks (n : nat) (data : list val) :
  length data = (16 * n)%nat ->
  flat_map (blockAt data) (seq 0 n) = data.
Proof.
  revert data. induction n as [|n IH]; intros data Hl.
  - destruct data; [reflexivity | discriminate].
  - rewrite <- cons_seq, <- seq_shift. cbn [flat_map].
    rewrite flat_map_concat_map, map_map, <- flat_map_concat_map.
    rewrite (flat_map_ext _ (blockAt (skipn 16 data))).
    + rewrite IH by (rewrite length_skipn; lia).
      rewrite blockAt_eq, Nat.mul_0_r. cbn [skipn]. apply firstn_skipn.
    + intros i. rewrite !blockAt_eq, skipn_skipn. do 2 f_equal. lia.
Qed.

Lemma blockAt_length (n : nat) (data : list val) (i : nat) :
  length data = (16 * n)%nat -> (i < n)%nat -> length (blockAt data i) = 16%nat.
Proof.
  intros Hl Hi. rewrite blockAt_eq, length_firstn, length_skipn. lia.
Qed.

Lemma byteArray_app (l l' : list val) :
  byteArray (l ++ l') <-> byteArray l /\ byteArray l'.
Proof. unfold byteArray. rewrite forallb_app. apply andb_true_iff. Qed.

Lemma blockAt_byteArray (data : list val) (i : nat) :
  byteArray data -> byteArray (blockAt data i).
Proof.
  intros H. rewrite blockAt_eq.
  rewrite <- (firstn_skipn (16 * i) data) in H.
  apply byteArray_app in H as [_ H].
  rewrite <- (firstn_skipn 16 (skipn (16 * i) data)) in H.
  now apply byteArray_app in H as [H _].
Qed.

(* ====================================================================== *)
(** ** Padding *)
(* ====================================================================== *)

Lemma paddingOf_range (data : list val) : (1 <= paddingOf data <= 16)%nat.
Proof.
  unfold paddingOf, BLOCK_SIZE.
  pose proof (Nat.mod_upper_bound (length data) 16). lia.
Qed.

Lemma padData_eq (data : list val) :
  padData data = data ++ repeat (Num (Z.of_nat (paddingOf data))) (paddingOf data).
Proof. reflexivity. Qed.

Lemma padData_length (data : list val) :
  length (padData data) = (16 * (length data / 16 + 1))%nat.
Proof.
  rewrite padData_eq, length_app, repeat_length. unfold paddingOf, BLOCK_SIZE.
  pose proof (Nat.div_mod_eq (length data) 16).
  pose proof (Nat.mod_upper_bound (length data) 16). lia.
Qed.

Lemma padData_byteArray (data : list val) :
  byteArray data -> byteArray (padData data).
Proof.
  intros H. rewrite padData_eq. apply byteArray_app. split; [assumption|].
  unfold byteArray. apply forallb_forall. intros v Hv.
  apply repeat_spec in Hv. subst v. apply isByte_of_byteZ.
  pose proof (paddingOf_range data). unfold byteZ. lia.
Qed.

Lemma getZ_app_repeat (body : list val) (v : val) (n : nat) (i : Z) :
  1 <= i <= Z.of_nat n ->
  getZ (body ++ repeat v n) (Z.of_nat (length (body ++ repeat v n)) - i) = v.
Proof.
  intros Hi. rewrite length_app, repeat_length. unfold getZ, get.
  rewrite (proj2 (Z.ltb_ge _ _)) by lia.
  rewrite app_nth2 by lia.
  apply nth_repeat_lt. lia.
Qed.

(** When the check of [unpadData] is run on [n] in [1, 16], it succeeds
    exactly on the arrays that end with [n] bytes of value [n]. *)
Lemma padding_check (data : list val) (n : Z) :
  1 <= n ->
  forallb (fun i => strictEq (getZ data (Z.of_nat (length data) - i)) (Num n))
          (upTo n) = true
  <-> endsWithPadding n data.
Proof.
  intros Hn. unfold endsWithPadding. split.
  - intros H. rewrite forallb_forall in H.
    assert (Hget : forall i, 1 <= i <= n ->
                   getZ data (Z.of_nat (length data) - i) = Num n).
    { intros i Hi. apply strictEq_true, H. unfold upTo. apply in_map_iff.
      exists (Z.to_nat i). split; [lia | apply in_seq; lia]. }
    assert (Hlen : n <= Z.of_nat (length data)).
    { specialize (Hget n ltac:(lia)). unfold getZ in Hget.
      destruct (Z.of_nat (length data) - n <? 0) eqn:E; [discriminate | lia]. }
    exists (firstn (length data - Z.to_nat n) data).
    rewrite <- (firstn_skipn (length data - Z.to_nat n) data) at 1.
    f_equal.
    assert (Hl : length (skipn (length data - Z.to_nat n) data) = Z.to_nat n)
      by (rewrite length_skipn; lia).
    rewrite <- Hl at 2. apply Forall_eq_repeat.
    apply Forall_forall. intros v Hv.
    apply (In_nth _ _ Undefined) in Hv as (k & Hk & <-).
    rewrite Hl in Hk. rewrite nth_skipn.
    specialize (Hget (n - Z.of_nat k) ltac:(lia)).
    unfold getZ, get in Hget.
    rewrite (proj2 (Z.ltb_ge _ _)) in Hget by lia.
    rewrite <- Hget. f_equal. lia.
  - intros (body & ->). apply forallb_forall. intros i Hi.
    unfold upTo in Hi. apply in_map_iff in Hi as (k & <- & Hk).
    apply in_seq in Hk. apply strictEq_true.
    apply getZ_app_repeat. lia.
Qed.

Lemma getZ_last (data : list val) :
  data <> [] -> getZ data (Z.of_nat (length data) - 1) = last data Undefined.
Proof.
  intros Hne.
  rewrite (app_removelast_last Undefined Hne) at 1 2.
  rewrite length_app. cbn [length]. unfold getZ, get.
  rewrite (proj2 (Z.ltb_ge _ _)) by lia.
  rewrite app_nth2 by lia.
  replace (Z.to_nat (Z.of_nat (length (removelast data) + 1) - 1)
           - length (removelast data))%nat with 0%nat by lia.
  reflexivity.
Qed.

Lemma unpadData_unfold (data : list val) (n : Z) :
  data <> [] -> last data Undefined = Num n ->
  unpadData data
  = if (n >? 16) || (n =? 0) then Throw (Error "Invalid padding")
    else if forallb
              (fun i => strictEq (getZ data (Z.of_nat (length data) - i)) (Num n))
              (upTo n)
    then Ok (slice data 0 (Z.of_nat (length data) - n))
    else Throw (Error "Invalid padding").
Proof.
  intros Hne Hlast. pose proof (getZ_last data Hne) as Hg.
  rewrite Hlast in Hg.
  destruct data as [|v data]; [contradiction|].
  unfold unpadData. rewrite Hg. reflexivity.
Qed.

Lemma byteArray_last (data : list val) :
  data <> [] -> byteArray data ->
  exists n, last data Undefined = Num n /\ byteZ n.
Proof.
  intros Hne Hb. apply isByte_Num.
  rewrite (app_removelast_last Undefined Hne) in Hb.
  apply byteArray_app in Hb as [_ Hb].
  unfold byteArray in Hb. cbn [forallb] in Hb.
  now apply andb_true_iff in Hb as [Hb _].
Qed.

Lemma slice_prefix (data : list val) (n : Z) :
  0 <= n <= Z.of_nat (length data) ->
  slice data 0 (Z.of_nat (length data) - n)
  = firstn (length data - Z.to_nat n) data.
Proof.
  intros Hn.
  replace (Z.of_nat (length data) - n)
    with (Z.of_nat (length data - Z.to_nat n)) by lia.
  rewrite (slice_nat data 0) by lia.
  cbn [skipn]. f_equal. lia.
Qed.

Lemma endsWithPadding_split (n : Z) (data : list val) :
  0 <= n -> endsWithPadding n data ->
  (Z.to_nat n <= length data)%nat /\
  data = firstn (length data - Z.to_nat n) data ++ repeat (Num n) (Z.to_nat n).
Proof.
  intros Hn (body & ->). rewrite length_app, repeat_length.
  split; [lia|].
  replace (length body + Z.to_nat n - Z.to_nat n)%nat with (length body) by lia.
  rewrite firstn_app, Nat.sub_diag, firstn_O, app_nil_r.
  now rewrite firstn_all.
Qed.

(** The two outcomes of [unpadData] on a non-empty array of bytes. *)
Lemma unpadData_outcome (data : list val) :
  data <> [] -> byteArray data ->
  (malformedPadding data /\ unpadData data = Throw (Error "Invalid padding"))
  \/
  (~ malformedPadding data /\
   unpadData data = Ok (firstn (length data - Z.to_nat (lastByte data)) data)).
Proof.
  intros Hne Hb.
  destruct (byteArray_last data Hne Hb) as (n & Hlast & Hn).
  rewrite (unpadData_unfold data n Hne Hlast).
  unfold malformedPadding, lastByte. rewrite Hlast. cbn [numOf].
  unfold byteZ in Hn.
  destruct ((n >? 16) || (n =? 0)) eqn:Hrange.
  - left. split; [lia | reflexivity].
  - assert (Hn1 : 1 <= n <= 16) by lia.
    pose proof (padding_check data n ltac:(lia)) as Hcheck.
    destruct (forallb _ (upTo n)) eqn:Hall.
    + right. assert (He : endsWithPadding n data) by now apply Hcheck.
      split; [intros [H|[H|H]]; [lia | lia | now apply H] |].
      f_equal. apply slice_prefix.
      destruct (endsWithPadding_split n data ltac:(lia) He) as [Hlen _]. lia.
    + left. split; [| reflexivity].
      right. right. intros He. apply Hcheck in He. discriminate.
Qed.

(** C6.  On a non-empty array of bytes whose last byte is [n], [unpadData]
    throws the error "Invalid padding" if and only if [n = 0], or [n > 16],
    or the array does not end with [n] bytes of value [n]; otherwise it
    returns the array without its last [n] bytes.  Malformed input is thus
    never truncated silently. *)
Theorem C6_unpadData_raises_iff (data : list val) :
  (0 < length data)%nat -> byteArray data ->
  let n := lastByte data in
  (unpadData data = Throw (Error "Invalid padding") <-> malformedPadding data)
  /\ (~ malformedPadding data ->
      unpadData data = Ok (firstn (length data - Z.to_nat n) data)
      /\ data = firstn (length data - Z.to_nat n) data
                ++ repeat (Num n) (Z.to_nat n)).
Proof.
  intros Hlen Hb n. subst n.
  assert (Hne : data <> []) by (intros ->; cbn in Hlen; lia).
  destruct (unpadData_outcome data Hne Hb) as [[Hm Hr]|[Hm Hr]]; rewrite Hr.
  - split; [tauto | contradiction].
  - split; [split; [discriminate | contradiction]|].
    intros _. split; [reflexivity|].
    destruct (byteArray_last data Hne Hb) as (n & Hlast & Hn).
    apply endsWithPadding_split.
    + unfold lastByte. rewrite Hlast. cbn [numOf]. unfold byteZ in Hn. lia.
    + unfold malformedPadding in Hm.
      destruct (byteArray_last data Hne Hb) as (n' & Hlast' & Hn').
      pose proof (padding_check data (lastByte data)) as Hcheck.
      destruct (forallb
                  (fun i => strictEq
                              (getZ data (Z.of_nat (length data) - i))
                              (Num (lastByte data)))
                  (upTo (lastByte data))) eqn:Hall.
      * apply Hcheck; [|reflexivity].
        unfold lastByte in *. rewrite Hlast in *. cbn [numOf] in *.
        unfold byteZ in Hn. lia.
      * exfalso. apply Hm. right. right. intros He.
        assert (1 <= lastByte data).
        { unfold lastByte in *. rewrite Hlast in *. cbn [numOf] in *.
          unfold byteZ in Hn. lia. }
        apply Hcheck in He; [|assumption]. congruence.
Qed.

Lemma C6_witness :
  (0 < length samplePadded)%nat /\ byteArray samplePadded /\
  (unpadData samplePadded = Throw (Error "Invalid padding")
   <-> malformedPadding samplePadded).
Proof.
  assert (H : (0 < length samplePadded)%nat) by (cbn; lia).
  split; [exact H | split; [reflexivity|]].
  apply (C6_unpadData_raises_iff samplePadded H). reflexivity.
Defined.

(** C10.  [unpadData] of the empty array is the empty array; no error is
    raised although there is no padding byte to validate. *)
Theorem C10_unpadData_empty : unpadData [] = Ok [].
Proof. reflexivity. Qed.

(* ---------------------------------------------------------------------- *)
(** *** Padding round trip *)

Lemma padData_nonempty (data : list val) : padData data <> [].
Proof.
  intros H. apply (f_equal (@length val)) in H.
  rewrite padData_length in H. cbn [length] in H. lia.
Qed.

Lemma padData_last (data : list val) :
  last (padData data) Undefined = Num (Z.of_nat (paddingOf data)).
Proof.
  rewrite padData_eq. pose proof (paddingOf_range data) as Hp.
  generalize (Num (Z.of_nat (paddingOf data))). intros v.
  destruct (paddingOf data) as [|p]; [lia|].
  cbn [repeat]. rewrite repeat_cons, app_assoc. apply last_last.
Qed.

Lemma unpadData_padData (data : list val) : unpadData (padData data) = Ok data.
Proof.
  pose proof (paddingOf_range data) as Hp.
  rewrite (unpadData_unfold _ _ (padData_nonempty data) (padData_last data)).
  assert (Hrange : (Z.of_nat (paddingOf data) >? 16)
                    || (Z.of_nat (paddingOf data) =? 0) = false).
  { apply orb_false_iff. split; [rewrite Z.gtb_ltb; apply Z.ltb_ge | apply Z.eqb_neq];
      lia. }
  rewrite Hrange.
  assert (He : endsWithPadding (Z.of_nat (paddingOf data)) (padData data)).
  { exists data. now rewrite Nat2Z.id. }
  assert (H1 : 1 <= Z.of_nat (paddingOf data)) by lia.
  rewrite (proj2 (padding_check (padData data) _ H1) He).
  f_equal. rewrite slice_prefix by (rewrite padData_eq, length_app, repeat_length; lia).
  rewrite padData_eq at 2. rewrite padData_eq, length_app, repeat_length, Nat2Z.id.
  rewrite Nat.add_sub, firstn_app, Nat.sub_diag, firstn_O, app_nil_r.
  apply firstn_all.
Qed.

(** C5.  For every array, [unpadData (padData bytes)] is [bytes].  [padData]
    appends exactly [n = 16 - (len mod 16)] bytes of value [n], with
    [1 <= n <= 16]: an array whose length is a multiple of 16 gets a full
    block of sixteen bytes of value 16, and the padded length is always a
    multiple of 16. *)
Theorem C5_padding_round_trip (bytes : list val) :
  let n := (16 - length bytes mod 16)%nat in
  unpadData (padData bytes) = Ok bytes
  /\ padData bytes = bytes ++ repeat (Num (Z.of_nat n)) n
  /\ (1 <= n <= 16)%nat
  /\ ((length bytes mod 16 = 0)%nat ->
      padData bytes = bytes ++ repeat (Num 16) 16)
  /\ (length (padData bytes) mod 16 = 0)%nat.
Proof.
  intros n. split; [apply unpadData_padData|].
  split; [reflexivity|].
  split; [apply (paddingOf_range bytes)|].
  split.
  - intros H. rewrite padData_eq. unfold paddingOf, BLOCK_SIZE. now rewrite H.
  - rewrite padData_length, Nat.mul_comm. apply Nat.Div0.mod_mul.
Qed.

(* ====================================================================== *)
(** ** encryptText and decryptText without tracking *)
(* ====================================================================== *)

Lemma foldM_append (F : nat -> list val)
      (body : list val -> nat -> result (list val)) (l : list nat) (acc : list val) :
  (forall acc i, body acc i = Ok (acc ++ F i)) ->
  foldM body l acc = Ok (acc ++ flat_map F l).
Proof.
  intros Hbody. revert acc. induction l as [|i l IH]; intros acc.
  - cbn [foldM flat_map]. now rewrite app_nil_r.
  - rewrite foldM_cons, Hbody, bind_Ok, IH. cbn [flat_map].
    now rewrite app_assoc.
Qed.

Lemma encryptAllPlain_eq (data : list val) (rks : list state) :
  encryptAllPlain data rks = Ok (encryptAll rks data).
Proof.
  unfold encryptAllPlain, encryptAll.
  rewrite (foldM_append (fun i => encBytes rks (blockAt data i))); [reflexivity|].
  intros acc i. rewrite encryptBlock_untracked, bind_Ok. reflexivity.
Qed.

Lemma decryptAllPlain_eq (data : list val) (rks : list state) :
  decryptAllPlain data rks = Ok (decryptAll rks data).
Proof.
  unfold decryptAllPlain, decryptAll.
  rewrite (foldM_append (fun i => decBytes rks (blockAt data i))); [reflexivity|].
  intros acc i. rewrite decryptBlock_untracked, bind_Ok. reflexivity.
Qed.

(* ---------------------------------------------------------------------- *)
(** *** Formatting never fails on bytes *)

Lemma mapM_ok {A B : Type} (f : A -> result B) (l : list A) :
  Forall (fun a => exists b, f a = Ok b) l -> exists bs, mapM f l = Ok bs.
Proof.
  induction 1 as [|a l [b Hb] _ [bs Hbs]].
  - now exists [].
  - exists (b :: bs). cbn [mapM]. now rewrite Hb, bind_Ok, Hbs.
Qed.

Lemma hexByte_ok (v : val) : isByte v = true -> exists t, hexByte v = Ok t.
Proof.
  intros H. apply isByte_Num in H as (n & -> & _). now eexists.
Qed.

Lemma formatStateMatrix_ok (s : state) :
  byteState s -> exists t, formatStateMatrix s = Ok t.
Proof.
  intros Hs. apply isByteState_spec in Hs.
  unfold isByteState in Hs. apply andb_true_iff in Hs as [_ Hs].
  rewrite forallb_forall in Hs. unfold formatStateMatrix.
  destruct (mapM_ok
              (fun row => cells <- mapM hexByte row ;; Ok (String.concat " " cells)) s)
    as [rows Hrows].
  - apply Forall_forall. intros row Hin. apply Hs in Hin.
    apply andb_true_iff in Hin as [_ Hb]. rewrite forallb_forall in Hb.
    destruct (mapM_ok hexByte row) as [cells Hcells].
    + apply Forall_forall. intros v Hv. now apply hexByte_ok, Hb.
    + rewrite Hcells. now eexists.
  - rewrite Hrows. now eexists.
Qed.

Lemma keyAt_nth (rks : list state) (r : nat) : keyAt rks r = nth r rks [].
Proof. reflexivity. Qed.

Lemma formatRoundKeys_ok (key : list val) :
  length key = 32%nat -> byteArray key ->
  exists texts, mapM formatStateMatrix (roundKeys (expandKey key)) = Ok texts.
Proof.
  intros Hl Hb. apply mapM_ok, Forall_forall. intros rk Hin.
  apply formatStateMatrix_ok.
  apply (In_nth _ _ []) in Hin as (r & Hr & <-).
  rewrite roundKeys_expandKey, length_map, length_seq in Hr.
  rewrite <- keyAt_nth.
  apply (expandKey_byteKeys key Hl Hb). unfold NUMBER_OF_ROUNDS in *. lia.
Qed.

(** [encryptText] without tracking: the padded data, block by block. *)
Lemma encryptText_untracked (plain key : list val) :
  length key = 32%nat -> byteArray key ->
  exists e, encryptText plain key false = Ok e
            /\ cipherBytes e = encryptAll (roundKeys (expandKey key)) (padData plain).
Proof.
  intros Hl Hb. destruct (formatRoundKeys_ok key Hl Hb) as [texts Ht].
  unfold encryptText. rewrite encryptAllPlain_eq, !bind_Ok, Ht, bind_Ok.
  eexists. split; reflexivity.
Qed.

(** [decryptText] without tracking: the blocks are decrypted one by one and
    the only possible failure is that of [unpadData]. *)
Lemma decryptText_untracked (cipher key : list val) :
  length key = 32%nat -> byteArray key ->
  (d <- decryptText cipher key false ;; Ok (plainBytes d))
  = unpadData (decryptAll (roundKeys (expandKey key)) cipher).
Proof.
  intros Hl Hb. destruct (formatRoundKeys_ok key Hl Hb) as [texts Ht].
  unfold decryptText. rewrite decryptAllPlain_eq, bind_Ok.
  destruct (unpadData _) as [p|e]; [|reflexivity].
  rewrite !bind_Ok, Ht, !bind_Ok. reflexivity.
Qed.

(* ---------------------------------------------------------------------- *)
(** *** Stream round trip *)

Lemma length_concat16 (blocks : list (list val)) :
  Forall (fun b => length b = 16%nat) blocks ->
  length (concat blocks) = (16 * length blocks)%nat.
Proof.
  induction 1 as [|b blocks Hb _ IH]; [reflexivity|].
  cbn [concat length]. rewrite length_app, Hb, IH. lia.
Qed.

Lemma decryptAll_encryptAll (rks : list state) (data : list val) (n : nat) :
  byteKeys rks -> length data = (16 * n)%nat -> byteArray data ->
  decryptAll rks (encryptAll rks data) = data.
Proof.
  intros Hk Hl Hb. unfold encryptAll.
  rewrite Hl, blockCount_full, flat_map_concat_map.
  set (blocks := map (fun i => encBytes rks (blockAt data i)) (seq 0 n)).
  assert (Hall : Forall (fun b => length b = 16%nat) blocks).
  { apply Forall_forall. intros b Hin. unfold blocks in Hin.
    apply in_map_iff in Hin as (i & <- & _). apply stateMatrixToBytes_length. }
  assert (Hn : length blocks = n)
    by (unfold blocks; now rewrite length_map, length_seq).
  unfold decryptAll.
  rewrite length_concat16, Hn, blockCount_full by assumption.
  transitivity (flat_map (blockAt data) (seq 0 n));
    [| now apply concat_blocks].
  rewrite !flat_map_concat_map. f_equal. apply map_ext_in.
  intros i Hi. apply in_seq in Hi.
  rewrite blockAt_concat by (assumption || lia).
  unfold blocks.
  rewrite nth_indep with (d' := encBytes rks (blockAt data 0))
    by (rewrite length_map, length_seq; lia).
  rewrite (map_nth (fun i => encBytes rks (blockAt data i))), seq_nth by lia.
  cbn [Nat.add]. unfold decBytes, encBytes.
  apply decrypt_encrypt_block; [assumption | |].
  - apply (blockAt_length n); [assumption | lia].
  - now apply blockAt_byteArray.
Qed.

(** C1.  For every 32-byte key and every byte sequence of any length,
    decrypting the encryption of the sequence returns it unchanged:
    [decryptText(encryptText(bytes, key).cipherBytes, key).plainBytes = bytes],
    with [trackRounds] false on both sides. *)
Theorem C1_stream_round_trip (key bytes : list val) :
  length key = 32%nat -> byteArray key -> byteArray bytes ->
  (e <- encryptText bytes key false ;;
   d <- decryptText (cipherBytes e) key false ;;
   Ok (plainBytes d)) = Ok bytes.
Proof.
  intros Hl Hk Hb.
  destruct (encryptText_untracked bytes key Hl Hk) as (e & -> & Hc).
  rewrite bind_Ok, decryptText_untracked, Hc by assumption.
  rewrite (decryptAll_encryptAll _ _ (length bytes / 16 + 1)).
  - apply unpadData_padData.
  - now apply expandKey_byteKeys.
  - apply padData_length.
  - now apply padData_byteArray.
Qed.

Lemma C1_witness :
  length sampleKey = 32%nat /\ byteArray sampleKey /\ byteArray sampleBlock /\
  (e <- encryptText sampleBlock sampleKey false ;;
   d <- decryptText (cipherBytes e) sampleKey false ;;
   Ok (plainBytes d)) = Ok sampleBlock.
Proof.
  do 3 (split; [reflexivity|]).
  apply (C1_stream_round_trip sampleKey sampleBlock); reflexivity.
Defined.

(* ====================================================================== *)
(** ** Tracking on well-formed inputs *)
(* ====================================================================== *)

Lemma inverseShiftRows_byteState (s : state) :
  byteState s -> byteState (inverseShiftRows s).
Proof.
  intros Hs. rewrite inverseShiftRows_tab by apply Hs.
  apply byteState_tab. intros r c Hr Hc.
  apply Hs; [assumption | apply Nat.mod_upper_bound; lia].
Qed.

Lemma inverseSubstituteBytes_byteState (s : state) :
  byteState s -> byteState (inverseSubstituteBytes s).
Proof.
  intros Hs. rewrite inverseSubstituteBytes_tab by apply Hs.
  apply byteState_tab. intros r c Hr Hc. apply inverse_sbox_byte, Hs; assumption.
Qed.

(** A trace entry can always be built for a matrix of bytes. *)
Lemma track_ok (t : bool) (rnd : nat) (stp : string) (st : state)
      (key : option state) :
  byteState st -> (forall k, key = Some k -> byteState k) ->
  exists d, track t rnd stp st key = Ok d.
Proof.
  intros Hs Hk. unfold track. destruct t; [|now eexists].
  destruct (formatStateMatrix_ok st Hs) as [text ->]. rewrite bind_Ok.
  destruct key as [k|].
  - destruct (formatStateMatrix_ok k (Hk k eq_refl)) as [kt ->].
    rewrite !bind_Ok. now eexists.
  - rewrite bind_Ok. now eexists.
Qed.

Ltac track_step :=
  match goal with
  | |- context [track ?t ?rnd ?stp ?st ?key] =>
      let d := fresh "d" in
      let E := fresh "E" in
      destruct (track_ok t rnd stp st key) as [d E];
      [ | | rewrite E, bind_Ok ]
  end.

Section TrackedRounds.
Variable rks : list state.
Hypothesis Hrks : byteKeys rks.
Variable t : bool.

Lemma decRound_byteState (st : state) (rnd : nat) :
  (rnd <= NUMBER_OF_ROUNDS)%nat -> byteState st -> byteState (decRound rks st rnd).
Proof.
  intros Hr Hs. unfold decRound.
  apply inverseMixColumns_byteState, addRoundKey_byteState; [|now apply Hrks].
  now apply inverseSubstituteBytes_byteState, inverseShiftRows_byteState.
Qed.

Lemma decRounds_byteState (rounds : list nat) (st : state) :
  Forall (fun r => r <= NUMBER_OF_ROUNDS)%nat rounds ->
  byteState st -> byteState (fold_left (decRound rks) rounds st).
Proof.
  revert st. induction rounds as [|rnd rounds IH]; intros st Hr Hs.
  - exact Hs.
  - rewrite fold_left_cons. inversion Hr; subst.
    apply IH; [assumption|]. now apply decRound_byteState.
Qed.

Lemma key_some (rnd : nat) :
  (rnd <= NUMBER_OF_ROUNDS)%nat ->
  forall k, Some (keyAt rks rnd) = Some k -> byteState k.
Proof. intros Hr k [= <-]. now apply Hrks. Qed.

Lemma no_key : forall k : state, None = Some k -> byteState k.
Proof. discriminate. Qed.

Lemma encryptRound_ok (st : state) (details : list roundDetail) (rnd : nat) :
  (rnd <= NUMBER_OF_ROUNDS)%nat -> byteState st ->
  exists details',
    encryptRound rks t (st, details) rnd = Ok (encRound rks st rnd, details').
Proof.
  intros Hr Hs.
  pose proof (substituteBytes_byteState _ Hs) as H1.
  pose proof (shiftRows_byteState _ H1) as H2.
  pose proof (mixColumns_byteState _ H2) as H3.
  pose proof (addRoundKey_byteState _ _ H3 (Hrks rnd Hr)) as H4.
  unfold encryptRound, encRound.
  do 5 (track_step; [assumption | apply no_key || now apply key_some |]).
  now eexists.
Qed.

Lemma decryptRound_ok (st : state) (details : list roundDetail) (rnd : nat) :
  (rnd <= NUMBER_OF_ROUNDS)%nat -> byteState st ->
  exists details',
    decryptRound rks t (st, details) rnd = Ok (decRound rks st rnd, details').
Proof.
  intros Hr Hs.
  pose proof (inverseShiftRows_byteState _ Hs) as H1.
  pose proof (inverseSubstituteBytes_byteState _ H1) as H2.
  pose proof (addRoundKey_byteState _ _ H2 (Hrks rnd Hr)) as H3.
  pose proof (inverseMixColumns_byteState _ H3) as H4.
  unfold decryptRound, decRound.
  do 5 (track_step; [assumption | apply no_key || now apply key_some |]).
  now eexists.
Qed.

Lemma encryptRounds_ok (rounds : list nat) (st : state) (details : list roundDetail) :
  Forall (fun r => r <= NUMBER_OF_ROUNDS)%nat rounds -> byteState st ->
  exists details',
    foldM (encryptRound rks t) rounds (st, details)
    = Ok (fold_left (encRound rks) rounds st, details').
Proof.
  revert st details. induction rounds as [|rnd rounds IH]; intros st details Hr Hs.
  - now eexists.
  - inversion Hr; subst.
    destruct (encryptRound_ok st details rnd) as [d1 E1]; try assumption.
    rewrite foldM_cons, E1, bind_Ok, fold_left_cons.
    apply IH; [assumption | now apply encRound_byteState].
Qed.

Lemma decryptRounds_ok (rounds : list nat) (st : state) (details : list roundDetail) :
  Forall (fun r => r <= NUMBER_OF_ROUNDS)%nat rounds -> byteState st ->
  exists details',
    foldM (decryptRound rks t) rounds (st, details)
    = Ok (fold_left (decRound rks) rounds st, details').
Proof.
  revert st details. induction rounds as [|rnd rounds IH]; intros st details Hr Hs.
  - now eexists.
  - inversion Hr; subst.
    destruct (decryptRound_ok st details rnd) as [d1 E1]; try assumption.
    rewrite foldM_cons, E1, bind_Ok, fold_left_cons.
    apply IH; [assumption | now apply decRound_byteState].
Qed.

Lemma rounds_down_bounded :
  Forall (fun r => r <= NUMBER_OF_ROUNDS)%nat roundsDown.
Proof.
  apply Forall_forall. intros r Hr. unfold roundsDown in Hr.
  apply in_rev, in_seq in Hr. unfold NUMBER_OF_ROUNDS in *. lia.
Qed.

(** On a full block of bytes, [encryptBlock] returns the same bytes whether it
    tracks or not. *)
Lemma encryptBlock_ok (block : list val) :
  length block = 16%nat -> byteArray block ->
  exists details,
    encryptBlock block rks t
    = Ok {| outBlock := encBytes rks block; blockDetails := details |}.
Proof.
  intros Hl Hb.
  pose proof (bytesToStateMatrix_byteState block Hl Hb) as H0.
  assert (K0 : (0 <= NUMBER_OF_ROUNDS)%nat) by (unfold NUMBER_OF_ROUNDS; lia).
  assert (K14 : (NUMBER_OF_ROUNDS <= NUMBER_OF_ROUNDS)%nat) by lia.
  pose proof (addRoundKey_byteState _ _ H0 (Hrks 0%nat K0)) as H1.
  pose proof (encRounds_byteState rks Hrks _ _ (main_rounds_bounded) H1) as H2.
  pose proof (substituteBytes_byteState _ H2) as H3.
  pose proof (shiftRows_byteState _ H3) as H4.
  pose proof (addRoundKey_byteState _ _ H4 (Hrks _ K14)) as H5.
  unfold encryptBlock, encBytes, encryptState.
  do 2 (track_step; [assumption | apply no_key || now apply key_some |]).
  match goal with
  | |- context [foldM _ ?rounds (?st, ?acc)] =>
      destruct (encryptRounds_ok rounds st acc) as [ds Erounds];
      [apply main_rounds_bounded | assumption |]
  end.
  rewrite Erounds, bind_Ok.
  do 4 (track_step; [assumption | apply no_key || now apply key_some |]).
  now eexists.
Qed.

Lemma decryptBlock_ok (block : list val) :
  length block = 16%nat -> byteArray block ->
  exists details,
    decryptBlock block rks t
    = Ok {| outBlock := decBytes rks block; blockDetails := details |}.
Proof.
  intros Hl Hb.
  pose proof (bytesToStateMatrix_byteState block Hl Hb) as H0.
  assert (K0 : (0 <= NUMBER_OF_ROUNDS)%nat) by (unfold NUMBER_OF_ROUNDS; lia).
  assert (K14 : (NUMBER_OF_ROUNDS <= NUMBER_OF_ROUNDS)%nat) by lia.
  pose proof (addRoundKey_byteState _ _ H0 (Hrks _ K14)) as H1.
  pose proof (decRounds_byteState _ _ rounds_down_bounded H1) as H2.
  pose proof (inverseShiftRows_byteState _ H2) as H3.
  pose proof (inverseSubstituteBytes_byteState _ H3) as H4.
  pose proof (addRoundKey_byteState _ _ H4 (Hrks 0%nat K0)) as H5.
  unfold decryptBlock, decBytes, decryptState.
  do 2 (track_step; [assumption | apply no_key || now apply key_some |]).
  match goal with
  | |- context [foldM _ ?rounds (?st, ?acc)] =>
      destruct (decryptRounds_ok rounds st acc) as [ds Erounds];
      [apply rounds_down_bounded | assumption |]
  end.
  rewrite Erounds, bind_Ok.
  do 4 (track_step; [assumption | apply no_key || now apply key_some |]).
  now eexists.
Qed.

(** The round-by-round processing of all blocks computes what the
    block-by-block processing computes. *)
Lemma encryptTracked_rounds (rounds : list nat) (blockStates : list state)
      (complete : list (nat * list val)) :
  fst (fold_left
         (fun '(blockStates, complete) rnd =>
            let blockStates :=
              map (fun st =>
                     addRoundKey (mixColumns (shiftRows (substituteBytes st)))
                                 (keyAt rks rnd))
                  blockStates in
            (blockStates, complete ++ [(rnd, collect blockStates)]))
         rounds (blockStates, complete))
  = map (fun st => fold_left (encRound rks) rounds st) blockStates.
Proof.
  revert blockStates complete.
  induction rounds as [|rnd rounds IH]; intros blockStates complete.
  - cbn [fold_left fst]. symmetry. apply map_id.
  - rewrite fold_left_cons. cbv beta iota zeta.
    rewrite IH, map_map. apply map_ext. intros st.
    rewrite fold_left_cons. unfold encRound. reflexivity.
Qed.

Lemma decryptTracked_rounds (rounds : list nat) (blockStates : list state)
      (complete : list (nat * list val)) :
  fst (fold_left
         (fun '(blockStates, complete) rnd =>
            let blockStates :=
              map (fun st =>
                     inverseMixColumns
                       (addRoundKey (inverseSubstituteBytes (inverseShiftRows st))
                                    (keyAt rks rnd)))
                  blockStates in
            (blockStates, complete ++ [(rnd, collect blockStates)]))
         rounds (blockStates, complete))
  = map (fun st => fold_left (decRound rks) rounds st) blockStates.
Proof.
  revert blockStates complete.
  induction rounds as [|rnd rounds IH]; intros blockStates complete.
  - cbn [fold_left fst]. symmetry. apply map_id.
  - rewrite fold_left_cons. cbv beta iota zeta.
    rewrite IH, map_map. apply map_ext. intros st.
    rewrite fold_left_cons. unfold decRound. reflexivity.
Qed.

Lemma collect_map {A : Type} (f : A -> state) (l : list A) :
  collect (map f l) = flat_map (fun a => stateMatrixToBytes (f a)) l.
Proof.
  unfold collect. rewrite !flat_map_concat_map, map_map. reflexivity.
Qed.

Lemma encryptAllTracked_fst (data : list val) :
  fst (encryptAllTracked data rks) = encryptAll rks data.
Proof.
  unfold encryptAllTracked, encryptAll, encBytes, encryptState.
  pose proof (encryptTracked_rounds (seq 1 (NUMBER_OF_ROUNDS - 1))) as HR.
  match goal with
  | |- context [fold_left ?f ?l (?bs, ?c)] =>
      specialize (HR bs c); destruct (fold_left f l (bs, c)) as [bs' c']
  end.
  cbn [fst] in *. subst bs'.
  rewrite !map_map, collect_map. reflexivity.
Qed.

Lemma decryptAllTracked_fst (data : list val) :
  fst (decryptAllTracked data rks) = decryptAll rks data.
Proof.
  unfold decryptAllTracked, decryptAll, decBytes, decryptState.
  pose proof (decryptTracked_rounds roundsDown) as HR.
  match goal with
  | |- context [fold_left ?f ?l (?bs, ?c)] =>
      specialize (HR bs c); destruct (fold_left f l (bs, c)) as [bs' c']
  end.
  cbn [fst] in *. subst bs'.
  rewrite !map_map, collect_map. reflexivity.
Qed.
End TrackedRounds.


Lemma first_block (data : list val) : slice data 0 16 = blockAt data 0.
Proof. reflexivity. Qed.

(** With tracking, [encryptText] returns the same cipher bytes as without. *)
Lemma encryptText_tracked (plain key : list val) :
  length key = 32%nat -> byteArray key -> byteArray plain ->
  exists e, encryptText plain key true = Ok e
            /\ cipherBytes e = encryptAll (roundKeys (expandKey key)) (padData plain).
Proof.
  intros Hl Hk Hb. destruct (formatRoundKeys_ok key Hl Hk) as [texts Ht].
  pose proof (expandKey_byteKeys key Hl Hk) as Hrks.
  unfold encryptText.
  pose proof (encryptAllTracked_fst (roundKeys (expandKey key)) (padData plain)) as Hf.
  destruct (encryptAllTracked _ _) as [full complete]. cbn [fst] in Hf. subst full.
  rewrite bind_Ok, first_block.
  destruct (encryptBlock_ok _ Hrks true (blockAt (padData plain) 0)) as [ds E].
  - apply (blockAt_length (length plain / 16 + 1)); [apply padData_length | lia].
  - now apply blockAt_byteArray, padData_byteArray.
  - rewrite E, !bind_Ok, Ht, bind_Ok. eexists. split; reflexivity.
Qed.

Lemma encryptText_tracking (plain key : list val) :
  length key = 32%nat -> byteArray key -> byteArray plain ->
  (e <- encryptText plain key true ;; Ok (cipherBytes e))
  = (e <- encryptText plain key false ;; Ok (cipherBytes e)).
Proof.
  intros Hl Hk Hb.
  destruct (encryptText_tracked plain key Hl Hk Hb) as (e & -> & Hc).
  destruct (encryptText_untracked plain key Hl Hk) as (e' & -> & Hc').
  rewrite !bind_Ok. congruence.
Qed.

(** With tracking, [decryptText] agrees with the untracked call as soon as the
    ciphertext holds a full first block. *)
Lemma decryptText_tracking (cipher key : list val) :
  length key = 32%nat -> byteArray key ->
  (16 <= length cipher)%nat -> byteArray cipher ->
  (d <- decryptText cipher key true ;; Ok (plainBytes d))
  = (d <- decryptText cipher key false ;; Ok (plainBytes d)).
Proof.
  intros Hl Hk Hc Hb. rewrite decryptText_untracked by assumption.
  destruct (formatRoundKeys_ok key Hl Hk) as [texts Ht].
  pose proof (expandKey_byteKeys key Hl Hk) as Hrks.
  unfold decryptText.
  pose proof (decryptAllTracked_fst (roundKeys (expandKey key)) cipher) as Hf.
  destruct (decryptAllTracked _ _) as [full complete]. cbn [fst] in Hf. subst full.
  destruct (unpadData _) as [p|err]; [|reflexivity].
  rewrite !bind_Ok, first_block.
  destruct (decryptBlock_ok _ Hrks true (blockAt cipher 0)) as [ds E].
  - rewrite blockAt_eq, Nat.mul_0_r. cbn [skipn]. rewrite length_firstn. lia.
  - now apply blockAt_byteArray.
  - rewrite E, !bind_Ok, Ht, !bind_Ok. reflexivity.
Qed.

(* ====================================================================== *)
(** ** Inputs that the specification wants rejected *)
(* ====================================================================== *)

Lemma get_firstn (l : list val) (n i : nat) :
  (i < n)%nat -> get (firstn n l) i = get l i.
Proof.
  intros Hi. unfold get. revert n l Hi.
  induction i as [|i IH]; intros [|n] [|v l] Hi; try lia; try reflexivity.
  cbn [firstn nth]. apply IH. lia.
Qed.

(** [expandKey] reads the bytes 0..31 of its argument and nothing else. *)
Lemma keyWords_firstn (key : list val) : keyWords (firstn 32 key) = keyWords key.
Proof.
  unfold keyWords. apply map_ext_in. intros i Hi. apply in_seq in Hi.
  unfold KEY_SIZE_WORDS in Hi.
  rewrite !get_firstn by lia. reflexivity.
Qed.

Lemma expandKey_firstn (key : list val) : expandKey (firstn 32 key) = expandKey key.
Proof. unfold expandKey, expandWords. now rewrite keyWords_firstn. Qed.

Lemma expandKey_length (key : list val) : length (roundKeys (expandKey key)) = 15%nat.
Proof. rewrite roundKeys_expandKey, length_map, length_seq. reflexivity. Qed.

(** C7, as the code has it.  [expandKey] validates nothing and never raises:
    for every key array it returns 15 round keys, computed from the first 32
    entries of the array only, so that a longer key is silently truncated and
    [encryptText] and [decryptText] behave as with its 32-byte prefix. *)
Theorem C7_key_is_truncated (key : list val) :
  length (roundKeys (expandKey key)) = 15%nat
  /\ expandKey key = expandKey (firstn 32 key)
  /\ (forall plain t,
        encryptText plain key t = encryptText plain (firstn 32 key) t)
  /\ (forall cipher t,
        decryptText cipher key t = decryptText cipher (firstn 32 key) t).
Proof.
  split; [apply expandKey_length|].
  split; [symmetry; apply expandKey_firstn|].
  split; intros x t.
  - unfold encryptText. now rewrite expandKey_firstn.
  - unfold decryptText. now rewrite expandKey_firstn.
Qed.

(** C7 as stated fails: a 33-byte key is not rejected; [expandKey] returns the
    round keys of its first 32 bytes and [encryptText] encrypts with them. *)
Lemma C7_counterexample :
  length longKey = 33%nat
  /\ roundKeys (expandKey longKey) = roundKeys (expandKey sampleKey)
  /\ (e <- encryptText [] longKey false ;; bytesToHex (cipherBytes e))
     = Ok "4c45dfb3b3b484ec35b0512dc8c1c4d6".
Proof. vm_compute. repeat split; reflexivity. Qed.

(** A key of 31 bytes is not rejected by [expandKey] either: round key 1 then
    holds an [undefined] cell, and [encryptText] ends with the TypeError of
    [formatStateMatrix] on that round key. *)
Example short_key_type_error :
  length (roundKeys (expandKey (firstn 31 sampleKey))) = 15%nat
  /\ cell (keyAt (roundKeys (expandKey (firstn 31 sampleKey))) 1) 3 3 = Undefined
  /\ encryptText [] (firstn 31 sampleKey) false = Throw TypeError.
Proof. vm_compute. repeat split; reflexivity. Qed.

(* ---------------------------------------------------------------------- *)
(** *** Hexadecimal input *)

Lemma parsePairs_length (digits : list ascii) :
  length (parsePairs digits) = ((length digits + 1) / 2)%nat.
Proof.
  assert (H : forall n digits, (length digits <= n)%nat ->
              length (parsePairs digits) = ((length digits + 1) / 2)%nat).
  { induction n as [|n IH]; intros [|d1 [|d2 rest]] Hl;
      try reflexivity; cbn [length] in Hl; try lia.
    cbn [parsePairs length]. rewrite IH by lia.
    replace (S (S (length rest)) + 1)%nat with (length rest + 1 + 1 * 2)%nat by lia.
    rewrite Nat.div_add by lia. lia. }
  now apply (H (length digits)).
Qed.

Lemma parsePairs_odd (digits : list ascii) (d : ascii) :
  Nat.Even (length digits) ->
  parsePairs (digits ++ [d]) = parsePairs digits ++ [Num (hexDigitValue d)].
Proof.
  assert (H : forall n digits, (length digits <= n)%nat ->
              Nat.Even (length digits) ->
              parsePairs (digits ++ [d])
              = parsePairs digits ++ [Num (hexDigitValue d)]).
  { induction n as [|n IH]; intros [|d1 [|d2 rest]] Hl He;
      try reflexivity; cbn [length] in Hl, He; try lia.
    - destruct He as [k Hk]. lia.
    - cbn [app parsePairs]. f_equal. apply IH; [lia|].
      destruct He as [k Hk]. exists (k - 1)%nat. lia. }
  now apply (H (length digits)).
Qed.

(** C8, as the code has it.  [hexToBytes] has no failure: after the non-hex
    characters are dropped it returns one byte for every pair of digits and,
    when the number of digits is odd, one more byte for the digit left over.
    [decryptText] checks no length: its only failure (without tracking, for a
    32-byte key) is the one of [unpadData] on the decrypted blocks, and the
    empty input decrypts to the empty plaintext. *)
Theorem C8_no_length_check :
  (forall s, length (hexToBytes s) = ((hexDigitCount s + 1) / 2)%nat)
  /\ (forall digits d,
        Nat.Even (length digits) ->
        parsePairs (digits ++ [d]) = parsePairs digits ++ [Num (hexDigitValue d)])
  /\ (forall cipher key,
        length key = 32%nat -> byteArray key ->
        (d <- decryptText cipher key false ;; Ok (plainBytes d))
        = unpadData (decryptAll (roundKeys (expandKey key)) cipher))
  /\ (forall key,
        length key = 32%nat -> byteArray key ->
        (d <- decryptText [] key false ;; Ok (plainBytes d)) = Ok []).
Proof.
  split; [intros s; apply parsePairs_length|].
  split; [apply parsePairs_odd|].
  split; [intros cipher key; apply decryptText_untracked|].
  intros key Hl Hb. now rewrite decryptText_untracked.
Qed.

Lemma C8_witness :
  length sampleKey = 32%nat /\ byteArray sampleKey /\
  (d <- decryptText [] sampleKey false ;; Ok (plainBytes d)) = Ok [].
Proof.
  do 2 (split; [reflexivity|]).
  apply C8_no_length_check; reflexivity.
Defined.

(** C8 as stated fails: three hex digits are decoded without error, the last
    one as a byte of its own; the empty ciphertext is decrypted without
    error; and so is a ciphertext of 15 bytes, whose missing byte is read as
    [undefined] and counts as 0 in the first [addRoundKey]. *)
Lemma C8_counterexample :
  hexDigitCount "abc" = 3%nat
  /\ hexToBytes "abc" = [Num 0xab; Num 0x0c]
  /\ (d <- decryptText [] sampleKey false ;; Ok (plainBytes d)) = Ok []
  /\ length shortCipher = 15%nat
  /\ (d <- decryptText shortCipher sampleKey false ;; Ok (plainBytes d))
     = Ok (Num 12 :: repeat (Num 0) 14).
Proof. vm_compute. repeat split; reflexivity. Qed.

(* ---------------------------------------------------------------------- *)
(** *** Tracking on a ciphertext shorter than a block *)

Lemma formatStateMatrix_undefined :
  formatStateMatrix (bytesToStateMatrix []) = Throw TypeError.
Proof. reflexivity. Qed.

Lemma decryptBlock_tracked_empty (rks : list state) :
  decryptBlock [] rks true = Throw TypeError.
Proof.
  unfold decryptBlock, track. rewrite formatStateMatrix_undefined. reflexivity.
Qed.

Lemma unpadData_decryptAllTracked_empty (rks : list state) :
  unpadData (fst (decryptAllTracked [] rks)) = Ok [].
Proof. reflexivity. Qed.

(** C9, at the inputs where the code departs from it.  With [trackRounds]
    true, [decryptText] of the empty ciphertext raises a TypeError for every
    key: the trace of the first block formats the cells of an empty block,
    which are [undefined].  With [trackRounds] false it returns the empty
    plaintext.  The same happens on a ciphertext of 15 bytes that decrypts
    to a well-padded block. *)
Theorem C9_tracking_fails_on_short_cipher :
  (forall key, decryptText [] key true = Throw TypeError)
  /\ (d <- decryptText [] sampleKey false ;; Ok (plainBytes d)) = Ok []
  /\ decryptText shortCipher sampleKey true = Throw TypeError
  /\ (d <- decryptText shortCipher sampleKey false ;; Ok (plainBytes d))
     = Ok (Num 12 :: repeat (Num 0) 14).
Proof.
  split; [| vm_compute; repeat split; reflexivity].
  intros key. unfold decryptText.
  generalize (roundKeys (expandKey key)). intros rks.
  pose proof (unpadData_decryptAllTracked_empty rks) as Hu.
  destruct (decryptAllTracked [] rks) as [full complete]. cbn [fst] in Hu.
  rewrite Hu, !bind_Ok.
  change (slice [] 0 16) with (@nil val).
  now rewrite decryptBlock_tracked_empty.
Qed.

(* ====================================================================== *)
(** ** Matrices of any content *)
(* ====================================================================== *)

Lemma isShape4_spec (s : state) : isShape4 s = true <-> shape4 s.
Proof.
  unfold isShape4, shape4. rewrite andb_true_iff, Nat.eqb_eq, forallb_forall, Forall_forall.
  split; intros [H1 H2]; (split; [exact H1|]); intros row Hrow.
  - apply Nat.eqb_eq, H2, Hrow.
  - apply Nat.eqb_eq, H2, Hrow.
Qed.

Lemma byteState_shape4 (s : state) : isByteState s = true -> shape4 s.
Proof. intros H. now apply isByteState_spec in H as [H _]. Qed.

(* ====================================================================== *)
(** ** utils.js: hexadecimal text *)
(* ====================================================================== *)

Lemma hexPairOk_bytes : forall a, byteZ a -> hexPairOk a = true.
Proof. apply forall_bytes. vm_compute. reflexivity. Qed.

Lemma string_of_chars (s : string) : string_of_list_ascii (list_ascii_of_string s) = s.
Proof. apply string_of_list_ascii_of_string. Qed.

Lemma hexByte_pair (a : Z) :
  byteZ a ->
  exists c1 c2,
    padStart2 (toString16 a) = String c1 (String c2 EmptyString)
    /\ isHexDigit c1 = true /\ isHexDigit c2 = true
    /\ 16 * hexDigitValue c1 + hexDigitValue c2 = a.
Proof.
  intros Ha. pose proof (hexPairOk_bytes a Ha) as H.
  unfold hexPairOk in H.
  rewrite <- (string_of_chars (padStart2 (toString16 a))).
  destruct (list_ascii_of_string (padStart2 (toString16 a)))
    as [|c1 [|c2 [|c3 rest]]]; try discriminate.
  apply andb_true_iff in H as [H H3]. apply andb_true_iff in H as [H1 H2].
  exists c1, c2. cbn [string_of_list_ascii].
  repeat split; try assumption. now apply Z.eqb_eq.
Qed.

Lemma concat_empty_cons (x : string) (xs : list string) :
  String.concat "" (x :: xs) = (x ++ String.concat "" xs)%string.
Proof.
  destruct xs as [|y ys]; cbn [String.concat].
  - induction x as [|c x IH]; cbn [append]; [reflexivity | now rewrite <- IH].
  - reflexivity.
Qed.

Lemma mapM_cons {A B : Type} (f : A -> result B) (a : A) (l : list A) :
  mapM f (a :: l) = bind (f a) (fun b => bind (mapM f l) (fun bs => Ok (b :: bs))).
Proof. reflexivity. Qed.

Lemma bytesToHex_cons (a : Z) (bytes : list val) (hex : string) :
  bytesToHex bytes = Ok hex ->
  bytesToHex (Num a :: bytes) = Ok (padStart2 (toString16 a) ++ hex)%string.
Proof.
  unfold bytesToHex. rewrite mapM_cons. cbn [hexByte]. rewrite bind_Ok.
  destruct (mapM hexByte bytes) as [ds|e]; [|discriminate].
  rewrite !bind_Ok. intros [= <-]. now rewrite concat_empty_cons.
Qed.

Lemma hexToBytes_pair (c1 c2 : ascii) (hex : string) :
  isHexDigit c1 = true -> isHexDigit c2 = true ->
  hexToBytes (String c1 (String c2 hex))
  = Num (16 * hexDigitValue c1 + hexDigitValue c2) :: hexToBytes hex.
Proof.
  intros H1 H2. unfold hexToBytes, cleanHex.
  cbn [list_ascii_of_string filter]. now rewrite H1, H2.
Qed.

Lemma hex_round_trip (bytes : list val) :
  byteArray bytes ->
  exists hex, bytesToHex bytes = Ok hex
              /\ hexToBytes hex = bytes
              /\ String.length hex = (2 * length bytes)%nat.
Proof.
  unfold byteArray. induction bytes as [|v bytes IH]; intros Hb.
  - exists ""%string. repeat split.
  - cbn [forallb] in Hb. apply andb_true_iff in Hb as [Hv Hb].
    destruct (IH Hb) as (hex & Hhex & Hback & Hlen).
    apply isByte_Num in Hv as (a & -> & Ha).
    destruct (hexByte_pair a Ha) as (c1 & c2 & Hpair & H1 & H2 & Hval).
    exists (padStart2 (toString16 a) ++ hex)%string.
    split; [now apply bytesToHex_cons|].
    rewrite Hpair. cbn [append String.length length].
    rewrite hexToBytes_pair by assumption.
    split; [now rewrite Hval, Hback | lia].
Qed.

(** X1.  For every array of bytes, [bytesToHex] succeeds, writes two
    characters per byte, and [hexToBytes] reads the bytes back. *)
Theorem X1_hexToBytes_bytesToHex (bytes : list val) :
  byteArray bytes ->
  (hex <- bytesToHex bytes ;; Ok (hexToBytes hex)) = Ok bytes
  /\ (hex <- bytesToHex bytes ;; Ok (String.length hex))
     = Ok (2 * length bytes)%nat.
Proof.
  intros Hb. destruct (hex_round_trip bytes Hb) as (hex & -> & Hback & Hlen).
  rewrite !bind_Ok. now rewrite Hback, Hlen.
Qed.

Lemma X1_witness :
  byteArray sampleBytes
  /\ (hex <- bytesToHex sampleBytes ;; Ok (hexToBytes hex)) = Ok sampleBytes.
Proof.
  split; [reflexivity|].
  apply (X1_hexToBytes_bytesToHex sampleBytes). reflexivity.
Defined.

Lemma hexDigitValue_range (c : ascii) :
  isHexDigit c = true -> 0 <= hexDigitValue c < 16.
Proof.
  unfold isHexDigit, hexDigitValue. cbv zeta.
  set (n := nat_of_ascii c).
  rewrite !orb_true_iff, !andb_true_iff, !Nat.leb_le.
  intros H.
  destruct (Z.leb_spec (Z.of_nat n) 57), (Z.leb_spec (Z.of_nat n) 70); lia.
Qed.

Lemma parsePairs_bytes (digits : list ascii) :
  Forall (fun c => isHexDigit c = true) digits -> byteArray (parsePairs digits).
Proof.
  assert (H : forall n digits, (length digits <= n)%nat ->
              Forall (fun c => isHexDigit c = true) digits ->
              byteArray (parsePairs digits)).
  { clear digits. unfold byteArray.
    induction n as [|n IH]; intros [|d1 [|d2 rest]] Hl Hd;
      try reflexivity; cbn [length] in Hl; try lia.
    - cbn [parsePairs forallb]. inversion Hd as [|? ? H1 _]; subst.
      apply hexDigitValue_range in H1. rewrite andb_true_r.
      unfold isByte. apply andb_true_iff. split; [apply Z.leb_le | apply Z.ltb_lt]; lia.
    - cbn [parsePairs forallb].
      inversion Hd as [|? ? H1 Hd']; subst. inversion Hd' as [|? ? H2 Hrest]; subst.
      apply hexDigitValue_range in H1, H2.
      apply andb_true_iff. split.
      + unfold isByte. apply andb_true_iff.
        split; [apply Z.leb_le | apply Z.ltb_lt]; lia.
      + apply IH; [lia | assumption]. }
  now apply (H (length digits)).
Qed.

Lemma hexToBytes_bytes (hexString : string) : byteArray (hexToBytes hexString).
Proof.
  unfold hexToBytes, cleanHex. apply parsePairs_bytes.
  apply Forall_forall. intros c Hc. now apply filter_In in Hc as [_ Hc].
Qed.

Lemma mapM_hexByte (bytes : list val) :
  (In Undefined bytes /\ mapM hexByte bytes = Throw TypeError)
  \/ (~ In Undefined bytes /\ exists ds, mapM hexByte bytes = Ok ds).
Proof.
  induction bytes as [|v bytes IH].
  - right. split; [intros [] | now exists []].
  - rewrite mapM_cons. destruct v as [n|].
    + cbn [hexByte]. rewrite bind_Ok.
      destruct IH as [[Hin ->] | [Hnot [ds ->]]].
      * left. split; [now right | reflexivity].
      * right. split; [| rewrite bind_Ok; now eexists].
        intros [H|H]; [discriminate | contradiction].
    + left. split; [now left | reflexivity].
Qed.

(** X2.  Whatever the string, [hexToBytes] never fails and every entry of its
    result is a byte: characters that are not hexadecimal digits are dropped
    and at most two digits are read at a time.  [bytesToHex] throws a
    TypeError exactly when an entry of the array is [undefined], and returns
    a string in every other case. *)
Theorem X2_hex_functions_on_any_input (hexString : string) (bytes : list val) :
  byteArray (hexToBytes hexString)
  /\ (bytesToHex bytes = Throw TypeError <-> In Undefined bytes)
  /\ ((exists hex, bytesToHex bytes = Ok hex) <-> ~ In Undefined bytes).
Proof.
  split; [apply hexToBytes_bytes|].
  unfold bytesToHex.
  destruct (mapM_hexByte bytes) as [[Hin ->] | [Hnot [ds ->]]].
  - split; split; try easy.
    + intros [hex H]. discriminate.
  - rewrite bind_Ok. split; split; try easy.
    + intros _. now eexists.
Qed.

(* ====================================================================== *)
(** ** utils.js: blocks, states and padding again *)
(* ====================================================================== *)

(** X3.  For every array, [bytesToStateMatrix] returns a 4x4 matrix that
    holds the entries 0..15 of the array and nothing else, a missing entry
    being [undefined], and [stateMatrixToBytes] reads these 16 entries back
    in the same order. *)
Theorem X3_state_of_any_array (bytes : list val) :
  isShape4 (bytesToStateMatrix bytes) = true
  /\ stateMatrixToBytes (bytesToStateMatrix bytes) = map (get bytes) (seq 0 16)
  /\ bytesToStateMatrix (firstn 16 bytes) = bytesToStateMatrix bytes.
Proof.
  rewrite !bytesToStateMatrix_tab. split; [reflexivity|]. split.
  - rewrite stateMatrixToBytes_tab. reflexivity.
  - apply tab_ext. intros r c Hr Hc. apply get_firstn. lia.
Qed.

(** X4.  [bytesToStateMatrix] and [stateMatrixToBytes] are inverse of each
    other between arrays of 16 entries and 4x4 matrices, and
    [copyStateMatrix] returns a matrix equal to its argument. *)
Theorem X4_state_round_trip (s : state) (block : list val) :
  isShape4 s = true -> length block = 16%nat ->
  bytesToStateMatrix (stateMatrixToBytes s) = s
  /\ length (stateMatrixToBytes s) = 16%nat
  /\ stateMatrixToBytes (bytesToStateMatrix block) = block
  /\ copyStateMatrix s = s.
Proof.
  intros Hs Hb. apply isShape4_spec in Hs.
  split; [now apply bytesToStateMatrix_stateMatrixToBytes|].
  split; [apply stateMatrixToBytes_length|].
  split; [now apply stateMatrixToBytes_bytesToStateMatrix|].
  apply copyStateMatrix_id.
Qed.

Lemma X4_witness :
  isShape4 sampleState = true /\ length sampleBlock = 16%nat
  /\ bytesToStateMatrix (stateMatrixToBytes sampleState) = sampleState
  /\ length (stateMatrixToBytes sampleState) = 16%nat
  /\ stateMatrixToBytes (bytesToStateMatrix sampleBlock) = sampleBlock
  /\ copyStateMatrix sampleState = sampleState.
Proof.
  split; [reflexivity|]. split; [reflexivity|].
  apply (X4_state_round_trip sampleState sampleBlock); reflexivity.
Defined.

Lemma slice_from_start {A : Type} (l : list A) (k : Z) :
  exists m, slice l 0 k = firstn m l.
Proof.
  unfold slice, relIndex.
  replace (0 <? 0) with false by reflexivity.
  rewrite (Z.min_l 0) by lia. cbn [Z.to_nat skipn]. now eexists.
Qed.

Lemma unpadData_result (data : list val) :
  match unpadData data with
  | Ok out => exists rest, data = out ++ rest
  | Throw e => e = Error "Invalid padding"
  end.
Proof.
  unfold unpadData. destruct data as [|v data]; [now exists []|].
  set (d := v :: data).
  destruct (getZ d (Z.of_nat (length d) - 1)) as [n|].
  - destruct ((n >? Z.of_nat BLOCK_SIZE) || (n =? 0)); [reflexivity|].
    destruct (forallb _ _); [|reflexivity].
    destruct (slice_from_start d (Z.of_nat (length d) - n)) as [m ->].
    exists (skipn m d). symmetry. apply firstn_skipn.
  - now exists d.
Qed.

(** X5.  On every array, whatever its entries, [unpadData] either throws the
    error "Invalid padding" or returns a prefix of the array: it throws no
    other error and never changes or adds an entry. *)
Theorem X5_unpadData_prefix_or_error (data : list val) :
  match unpadData data with
  | Ok out => exists rest, data = out ++ rest
  | Throw e => e = Error "Invalid padding"
  end.
Proof. apply unpadData_result. Qed.

Lemma padding_of_prefix (len n : nat) :
  (0 < len)%nat -> (len mod 16 = 0)%nat -> (1 <= n <= 16)%nat -> (n <= len)%nat ->
  (16 - (len - n) mod 16 = n)%nat.
Proof.
  intros Hlen Hmod Hn Hle.
  apply Nat.Div0.div_exact in Hmod.
  destruct (Nat.eq_dec n 16) as [->|Hne].
  - replace (len - 16)%nat with ((len / 16 - 1) * 16)%nat by lia.
    rewrite Nat.Div0.mod_mul. lia.
  - replace (len - n)%nat with ((16 - n) + (len / 16 - 1) * 16)%nat by lia.
    rewrite Nat.Div0.mod_add. rewrite Nat.mod_small by lia. lia.
Qed.

Lemma padData_of_unpadData (data out : list val) :
  (0 < length data)%nat -> (length data mod 16 = 0)%nat -> byteArray data ->
  unpadData data = Ok out -> padData out = data.
Proof.
  intros Hlen Hmod Hb Hout.
  assert (Hne : data <> []) by (intros ->; cbn in Hlen; lia).
  destruct (unpadData_outcome data Hne Hb) as [[_ E] | [Hwell E]];
    rewrite E in Hout; [discriminate|].
  injection Hout as <-.
  destruct (byteArray_last data Hne Hb) as (n & Hlast & Hn).
  unfold malformedPadding, lastByte in Hwell. unfold lastByte.
  rewrite Hlast in *. cbn [numOf] in *. unfold byteZ in Hn.
  assert (Hrange : 1 <= n <= 16) by lia.
  assert (Hpos : 1 <= n) by lia.
  assert (Hends : endsWithPadding n data).
  { pose proof (padding_check data n Hpos) as [H1 H2].
    destruct (forallb (fun i => strictEq (getZ data (Z.of_nat (length data) - i)) (Num n))
                      (upTo n)) eqn:Hf.
    - now apply H1.
    - exfalso. apply Hwell. right. right. intros H. apply H2 in H. congruence. }
  destruct (endsWithPadding_split n data ltac:(lia) Hends) as [Hle Hsplit].
  rewrite padData_eq. unfold paddingOf, BLOCK_SIZE.
  rewrite length_firstn, Nat.min_l by lia.
  rewrite (padding_of_prefix (length data) (Z.to_nat n)) by lia.
  rewrite Z2Nat.id by lia. now rewrite <- Hsplit.
Qed.

(** X6.  When [unpadData] accepts a non-empty array of bytes whose length is
    a multiple of 16, [padData] of its result is the array again: on the
    block-aligned arrays that [decryptText] produces, the two functions are
    inverse in this direction too. *)
Theorem X6_padData_unpadData (data out : list val) :
  (0 < length data)%nat -> (length data mod 16 = 0)%nat -> byteArray data ->
  unpadData data = Ok out -> padData out = data.
Proof. apply padData_of_unpadData. Qed.

Lemma X6_witness :
  (0 < length (padData sampleBytes))%nat
  /\ (length (padData sampleBytes) mod 16 = 0)%nat
  /\ byteArray (padData sampleBytes)
  /\ unpadData (padData sampleBytes) = Ok sampleBytes
  /\ padData sampleBytes = padData sampleBytes.
Proof.
  split; [cbn; lia|]. split; [reflexivity|]. split; [reflexivity|].
  split; [reflexivity|].
  apply (X6_padData_unpadData (padData sampleBytes) sampleBytes);
    [cbn; lia | reflexivity | reflexivity | reflexivity].
Defined.

Lemma formatRow_outcome (row : list val) :
  (In Undefined row
   /\ (cells <- mapM hexByte row ;; Ok (String.concat " " cells)) = Throw TypeError)
  \/ (~ In Undefined row
      /\ exists t, (cells <- mapM hexByte row ;; Ok (String.concat " " cells)) = Ok t).
Proof.
  destruct (mapM_hexByte row) as [[Hin ->] | [Hnot [ds ->]]].
  - now left.
  - right. split; [assumption|]. rewrite bind_Ok. now eexists.
Qed.

Lemma formatRows_outcome (s : state) :
  let formatRow := fun row => cells <- mapM hexByte row ;; Ok (String.concat " " cells) in
  ((exists row, In row s /\ In Undefined row) /\ mapM formatRow s = Throw TypeError)
  \/ (~ (exists row, In row s /\ In Undefined row) /\ exists ts, mapM formatRow s = Ok ts).
Proof.
  intros formatRow. induction s as [|row s IH].
  - right. split; [now intros (row & [] & _) | now exists []].
  - rewrite mapM_cons.
    pose proof (formatRow_outcome row) as Hrow.
    change (cells <- mapM hexByte row ;; Ok (String.concat " " cells))
      with (formatRow row) in Hrow.
    destruct Hrow as [[Hin ->] | [Hnot [t ->]]].
    + left. split; [|reflexivity]. exists row. split; [now left | assumption].
    + rewrite bind_Ok. destruct IH as [[(r & Hr & Hu) ->] | [Hnone [ts ->]]].
      * left. split; [|reflexivity]. exists r. split; [now right | assumption].
      * right. split; [| eexists; reflexivity].
        intros (r & [<- | Hr] & Hu); [contradiction|].
        apply Hnone. now exists r.
Qed.

Lemma formatStateMatrix_throws (s : state) :
  (exists row, In row s /\ In Undefined row) -> formatStateMatrix s = Throw TypeError.
Proof.
  intros H. unfold formatStateMatrix.
  destruct (formatRows_outcome s) as [[_ ->] | [Hnot _]]; [reflexivity | contradiction].
Qed.

(** X7.  [formatStateMatrix] throws a TypeError exactly when a cell of the
    matrix is [undefined], and returns a text in every other case;
    [formatRoundKey] of [keyExpansion.js] behaves in the same way on every
    matrix. *)
Theorem X7_formatStateMatrix_fails_iff (s : state) :
  (formatStateMatrix s = Throw TypeError
   <-> exists row, In row s /\ In Undefined row)
  /\ ((exists text, formatStateMatrix s = Ok text)
      <-> ~ exists row, In row s /\ In Undefined row)
  /\ formatRoundKey s = formatStateMatrix s.
Proof.
  split; [|split; [|reflexivity]]; unfold formatStateMatrix;
    destruct (formatRows_outcome s) as [[Hin ->] | [Hnot [ts ->]]];
    try rewrite bind_Ok; split; try easy.
  - intros [text H]. discriminate.
  - intros _. now eexists.
Qed.

Lemma z2_lxor : forall a b, byteZ a -> byteZ b ->
  z2 (Z.lxor a b) = Z.lxor (z2 a) (z2 b).
Proof. apply linear_of_table. vm_compute. reflexivity. Qed.
Lemma z3_z2 : forall a, byteZ a -> z3 a = Z.lxor (z2 a) a.
Proof. by_bytes. Qed.

Lemma lxor_pair2 (p q a b : Z) :
  Z.lxor (Z.lxor p q) (Z.lxor a b) = Z.lxor (Z.lxor p a) (Z.lxor q b).
Proof. aac_reflexivity. Qed.

Lemma z3_lxor : forall a b, byteZ a -> byteZ b ->
  z3 (Z.lxor a b) = Z.lxor (z3 a) (z3 b).
Proof.
  intros a b Ha Hb.
  rewrite (z3_z2 (Z.lxor a b)) by now apply lxor_byte.
  rewrite (z3_z2 a Ha), (z3_z2 b Hb), (z2_lxor a b Ha Hb).
  apply lxor_pair2.
Qed.

Lemma id_lxor : forall a b, byteZ a -> byteZ b ->
  (fun x : Z => x) (Z.lxor a b) = Z.lxor ((fun x : Z => x) a) ((fun x : Z => x) b).
Proof. reflexivity. Qed.

(** The products of the two MixColumns matrices in the other order. *)
Lemma unmix_diag : forall a, byteZ a ->
  Z.lxor (Z.lxor (Z.lxor (z2 (z14 a)) (z3 (z9 a))) (z13 a)) (z11 a) = a.
Proof. by_bytes. Qed.
Lemma unmix_off1 : forall a, byteZ a ->
  Z.lxor (Z.lxor (Z.lxor (z2 (z11 a)) (z3 (z14 a))) (z9 a)) (z13 a) = 0.
Proof. by_bytes. Qed.
Lemma unmix_off2 : forall a, byteZ a ->
  Z.lxor (Z.lxor (Z.lxor (z2 (z13 a)) (z3 (z11 a))) (z14 a)) (z9 a) = 0.
Proof. by_bytes. Qed.
Lemma unmix_off3 : forall a, byteZ a ->
  Z.lxor (Z.lxor (Z.lxor (z2 (z9 a)) (z3 (z13 a))) (z11 a)) (z14 a) = 0.
Proof. by_bytes. Qed.

Lemma lxor_rot1 (p q r t : Z) :
  Z.lxor (Z.lxor (Z.lxor p q) r) t = Z.lxor (Z.lxor (Z.lxor q r) t) p.
Proof. aac_reflexivity. Qed.
Lemma lxor_rot2 (p q r t : Z) :
  Z.lxor (Z.lxor (Z.lxor p q) r) t = Z.lxor (Z.lxor (Z.lxor r t) p) q.
Proof. aac_reflexivity. Qed.
Lemma lxor_rot3 (p q r t : Z) :
  Z.lxor (Z.lxor (Z.lxor p q) r) t = Z.lxor (Z.lxor (Z.lxor t p) q) r.
Proof. aac_reflexivity. Qed.

(** [mixColumns] after [inverseMixColumns] on the four bytes of one column. *)
Section ColumnsBack.
Variables a0 a1 a2 a3 : Z.
Hypothesis (H0 : byteZ a0) (H1 : byteZ a1) (H2 : byteZ a2) (H3 : byteZ a3).

(** The four bytes of the column after [inverseMixColumns]. *)
Local Abbreviation u0 := (Z.lxor (Z.lxor (Z.lxor (z14 a0) (z11 a1)) (z13 a2)) (z9 a3)).
Local Abbreviation u1 := (Z.lxor (Z.lxor (Z.lxor (z9 a0) (z14 a1)) (z11 a2)) (z13 a3)).
Local Abbreviation u2 := (Z.lxor (Z.lxor (Z.lxor (z13 a0) (z9 a1)) (z14 a2)) (z11 a3)).
Local Abbreviation u3 := (Z.lxor (Z.lxor (Z.lxor (z11 a0) (z13 a1)) (z9 a2)) (z14 a3)).

Ltac regroup F Fl G Gl H Hl K Kl :=
  etransitivity;
  [ apply (spread_rows F G H K Fl Gl Hl Kl); is_byte | ].

Ltac rotated R L := etransitivity; [apply R | now apply L].

Lemma mix_row0 :
  Z.lxor (Z.lxor (Z.lxor (z2 u0) (z3 u1)) u2) u3 = a0.
Proof.
  regroup z2 z2_lxor z3 z3_lxor (fun x : Z => x) id_lxor (fun x : Z => x) id_lxor.
  cbv beta.
  transitivity (Z.lxor (Z.lxor (Z.lxor a0 0) 0) 0);
    [| now rewrite !Z.lxor_0_r].
  f_equal; [f_equal; [f_equal|]|].
  - now apply unmix_diag.
  - now apply unmix_off1.
  - now apply unmix_off2.
  - now apply unmix_off3.
Qed.

Lemma mix_row1 :
  Z.lxor (Z.lxor (Z.lxor u0 (z2 u1)) (z3 u2)) u3 = a1.
Proof.
  regroup (fun x : Z => x) id_lxor z2 z2_lxor z3 z3_lxor (fun x : Z => x) id_lxor.
  cbv beta.
  transitivity (Z.lxor (Z.lxor (Z.lxor 0 a1) 0) 0);
    [| now rewrite !Z.lxor_0_r, Z.lxor_0_l].
  f_equal; [f_equal; [f_equal|]|].
  - rotated lxor_rot1 unmix_off3.
  - rotated lxor_rot1 unmix_diag.
  - rotated lxor_rot1 unmix_off1.
  - rotated lxor_rot1 unmix_off2.
Qed.

Lemma mix_row2 :
  Z.lxor (Z.lxor (Z.lxor u0 u1) (z2 u2)) (z3 u3) = a2.
Proof.
  regroup (fun x : Z => x) id_lxor (fun x : Z => x) id_lxor z2 z2_lxor z3 z3_lxor.
  cbv beta.
  transitivity (Z.lxor (Z.lxor (Z.lxor 0 0) a2) 0);
    [| now rewrite !Z.lxor_0_r, Z.lxor_0_l].
  f_equal; [f_equal; [f_equal|]|].
  - rotated lxor_rot2 unmix_off2.
  - rotated lxor_rot2 unmix_off3.
  - rotated lxor_rot2 unmix_diag.
  - rotated lxor_rot2 unmix_off1.
Qed.

Lemma mix_row3 :
  Z.lxor (Z.lxor (Z.lxor (z3 u0) u1) u2) (z2 u3) = a3.
Proof.
  regroup z3 z3_lxor (fun x : Z => x) id_lxor (fun x : Z => x) id_lxor z2 z2_lxor.
  cbv beta.
  transitivity (Z.lxor (Z.lxor (Z.lxor 0 0) 0) a3);
    [| now rewrite !Z.lxor_0_r, Z.lxor_0_l].
  f_equal; [f_equal; [f_equal|]|].
  - rotated lxor_rot3 unmix_off1.
  - rotated lxor_rot3 unmix_off2.
  - rotated lxor_rot3 unmix_off3.
  - rotated lxor_rot3 unmix_diag.
Qed.

End ColumnsBack.

Lemma mixCell_unmixCell (a0 a1 a2 a3 : Z) (row : nat) :
  byteZ a0 -> byteZ a1 -> byteZ a2 -> byteZ a3 -> (row < 4)%nat ->
  mixCell (unmixCell (Num a0) (Num a1) (Num a2) (Num a3) 0)
          (unmixCell (Num a0) (Num a1) (Num a2) (Num a3) 1)
          (unmixCell (Num a0) (Num a1) (Num a2) (Num a3) 2)
          (unmixCell (Num a0) (Num a1) (Num a2) (Num a3) 3) row
  = nth row [Num a0; Num a1; Num a2; Num a3] Undefined.
Proof.
  intros H0 H1 H2 H3 Hrow.
  destruct row as [|[|[|[|row]]]]; [| | | | lia];
    unfold unmixCell, mixCell, nth;
    (eapply eq_trans; [to_num | f_equal]).
  - now apply mix_row0.
  - now apply mix_row1.
  - now apply mix_row2.
  - now apply mix_row3.
Qed.

Lemma mixColumns_inverseMixColumns_byteState (s : state) :
  byteState s -> mixColumns (inverseMixColumns s) = s.
Proof.
  intros Hs.
  rewrite mixColumns_tab by apply inverseMixColumns_byteState, Hs.
  rewrite inverseMixColumns_tab by apply Hs.
  transitivity (tabulate4 (cell s)); [| symmetry; apply shape4_eta, Hs].
  apply tab_ext. intros r c Hr Hc.
  rewrite !cell_tab by (assumption || lia).
  destruct (byteState_cell s 0 c Hs) as (a0 & E0 & B0); [lia | assumption |].
  destruct (byteState_cell s 1 c Hs) as (a1 & E1 & B1); [lia | assumption |].
  destruct (byteState_cell s 2 c Hs) as (a2 & E2 & B2); [lia | assumption |].
  destruct (byteState_cell s 3 c Hs) as (a3 & E3 & B3); [lia | assumption |].
  rewrite E0, E1, E2, E3.
  rewrite mixCell_unmixCell by assumption.
  destruct r as [|[|[|[|r]]]]; [| | | | lia]; cbn [nth]; congruence.
Qed.

(* ====================================================================== *)
(** ** The transformations, one by one *)
(* ====================================================================== *)

Lemma shift_index (r c : nat) :
  (r < 4)%nat -> (c < 4)%nat ->
  (((c + r) mod 4 + 4 - r) mod 4 = c /\ ((c + 4 - r) mod 4 + r) mod 4 = c)%nat.
Proof.
  intros Hr Hc.
  destruct r as [|[|[|[|r]]]]; [| | | | lia];
    (destruct c as [|[|[|[|c]]]]; [| | | | lia]); split; reflexivity.
Qed.

Lemma inverseShiftRows_shiftRows (s : state) :
  shape4 s -> inverseShiftRows (shiftRows s) = s.
Proof.
  intros Hs.
  rewrite inverseShiftRows_tab by (rewrite shiftRows_tab by exact Hs; apply shape4_tab).
  rewrite shiftRows_tab by exact Hs.
  transitivity (tabulate4 (cell s)); [| symmetry; apply shape4_eta, Hs].
  apply tab_ext. intros r c Hr Hc.
  rewrite cell_tab by (try assumption; apply Nat.mod_upper_bound; lia).
  now rewrite (proj2 (shift_index r c Hr Hc)).
Qed.

Lemma shiftRows_inverseShiftRows (s : state) :
  shape4 s -> shiftRows (inverseShiftRows s) = s.
Proof.
  intros Hs.
  rewrite shiftRows_tab by (rewrite inverseShiftRows_tab by exact Hs; apply shape4_tab).
  rewrite inverseShiftRows_tab by exact Hs.
  transitivity (tabulate4 (cell s)); [| symmetry; apply shape4_eta, Hs].
  apply tab_ext. intros r c Hr Hc.
  rewrite cell_tab by (try assumption; apply Nat.mod_upper_bound; lia).
  now rewrite (proj1 (shift_index r c Hr Hc)).
Qed.

Lemma sbox_inverse_sbox (v : val) :
  isByte v = true -> index S_BOX (index INVERSE_S_BOX v) = v.
Proof.
  intros H. apply isByte_Num in H as (a & -> & Ha).
  apply strictEq_true.
  apply (forall_bytes
           (fun a => strictEq (index S_BOX (index INVERSE_S_BOX (Num a))) (Num a)));
    [vm_compute; reflexivity | exact Ha].
Qed.

Lemma inverseSubstituteBytes_substituteBytes (s : state) :
  byteState s -> inverseSubstituteBytes (substituteBytes s) = s.
Proof.
  intros Hs.
  rewrite inverseSubstituteBytes_tab
    by (rewrite substituteBytes_tab by apply Hs; apply shape4_tab).
  rewrite substituteBytes_tab by apply Hs.
  transitivity (tabulate4 (cell s)); [| symmetry; apply shape4_eta, Hs].
  apply tab_ext. intros r c Hr Hc.
  rewrite cell_tab by assumption.
  apply inverse_sbox_sbox, Hs; assumption.
Qed.

Lemma substituteBytes_inverseSubstituteBytes (s : state) :
  byteState s -> substituteBytes (inverseSubstituteBytes s) = s.
Proof.
  intros Hs.
  rewrite substituteBytes_tab
    by (rewrite inverseSubstituteBytes_tab by apply Hs; apply shape4_tab).
  rewrite inverseSubstituteBytes_tab by apply Hs.
  transitivity (tabulate4 (cell s)); [| symmetry; apply shape4_eta, Hs].
  apply tab_ext. intros r c Hr Hc.
  rewrite cell_tab by assumption.
  apply sbox_inverse_sbox, Hs; assumption.
Qed.

Lemma bxor_comm (v w : val) : bxor v w = bxor w v.
Proof. unfold bxor. now rewrite Z.lxor_comm. Qed.

Lemma addRoundKey_comm (s k : state) :
  shape4 s -> shape4 k -> addRoundKey s k = addRoundKey k s.
Proof.
  intros Hs Hk. rewrite (addRoundKey_tab s k), (addRoundKey_tab k s) by assumption.
  apply tab_ext. intros r c _ _. apply bxor_comm.
Qed.

Lemma substituteBytes_shiftRows (s : state) :
  shape4 s -> shiftRows (substituteBytes s) = substituteBytes (shiftRows s).
Proof.
  intros Hs.
  rewrite (shiftRows_tab (substituteBytes s))
    by (rewrite substituteBytes_tab by exact Hs; apply shape4_tab).
  rewrite (substituteBytes_tab (shiftRows s))
    by (rewrite shiftRows_tab by exact Hs; apply shape4_tab).
  rewrite substituteBytes_tab, shiftRows_tab by exact Hs.
  apply tab_ext. intros r c Hr Hc.
  rewrite !cell_tab by (try assumption; apply Nat.mod_upper_bound; lia).
  reflexivity.
Qed.

Lemma inverseSubstituteBytes_inverseShiftRows (s : state) :
  shape4 s ->
  inverseShiftRows (inverseSubstituteBytes s)
  = inverseSubstituteBytes (inverseShiftRows s).
Proof.
  intros Hs.
  rewrite (inverseShiftRows_tab (inverseSubstituteBytes s))
    by (rewrite inverseSubstituteBytes_tab by exact Hs; apply shape4_tab).
  rewrite (inverseSubstituteBytes_tab (inverseShiftRows s))
    by (rewrite inverseShiftRows_tab by exact Hs; apply shape4_tab).
  rewrite inverseSubstituteBytes_tab, inverseShiftRows_tab by exact Hs.
  apply tab_ext. intros r c Hr Hc.
  rewrite !cell_tab by (try assumption; apply Nat.mod_upper_bound; lia).
  reflexivity.
Qed.

Lemma lxor_pair4 (p0 p1 p2 p3 q0 q1 q2 q3 : Z) :
  Z.lxor (Z.lxor (Z.lxor (Z.lxor p0 q0) (Z.lxor p1 q1)) (Z.lxor p2 q2)) (Z.lxor p3 q3)
  = Z.lxor (Z.lxor (Z.lxor (Z.lxor p0 p1) p2) p3) (Z.lxor (Z.lxor (Z.lxor q0 q1) q2) q3).
Proof. aac_reflexivity. Qed.

Section Pair4.
Variables F G H K : Z -> Z.
Hypothesis F_lin : forall a b, byteZ a -> byteZ b -> F (Z.lxor a b) = Z.lxor (F a) (F b).
Hypothesis G_lin : forall a b, byteZ a -> byteZ b -> G (Z.lxor a b) = Z.lxor (G a) (G b).
Hypothesis H_lin : forall a b, byteZ a -> byteZ b -> H (Z.lxor a b) = Z.lxor (H a) (H b).
Hypothesis K_lin : forall a b, byteZ a -> byteZ b -> K (Z.lxor a b) = Z.lxor (K a) (K b).

Lemma lin_pair4 (a0 a1 a2 a3 b0 b1 b2 b3 : Z) :
  byteZ a0 -> byteZ a1 -> byteZ a2 -> byteZ a3 ->
  byteZ b0 -> byteZ b1 -> byteZ b2 -> byteZ b3 ->
  Z.lxor (Z.lxor (Z.lxor (F (Z.lxor a0 b0)) (G (Z.lxor a1 b1)))
                 (H (Z.lxor a2 b2))) (K (Z.lxor a3 b3))
  = Z.lxor (Z.lxor (Z.lxor (Z.lxor (F a0) (G a1)) (H a2)) (K a3))
           (Z.lxor (Z.lxor (Z.lxor (F b0) (G b1)) (H b2)) (K b3)).
Proof.
  intros.
  rewrite F_lin, G_lin, H_lin, K_lin by assumption.
  apply lxor_pair4.
Qed.
End Pair4.

Lemma mixCell_bxor (a0 a1 a2 a3 b0 b1 b2 b3 : Z) (row : nat) :
  byteZ a0 -> byteZ a1 -> byteZ a2 -> byteZ a3 ->
  byteZ b0 -> byteZ b1 -> byteZ b2 -> byteZ b3 ->
  mixCell (bxor (Num a0) (Num b0)) (bxor (Num a1) (Num b1))
          (bxor (Num a2) (Num b2)) (bxor (Num a3) (Num b3)) row
  = bxor (mixCell (Num a0) (Num a1) (Num a2) (Num a3) row)
         (mixCell (Num b0) (Num b1) (Num b2) (Num b3) row).
Proof.
  intros A0 A1 A2 A3 B0 B1 B2 B3.
  destruct row as [|[|[|row]]]; unfold mixCell;
    (eapply eq_trans; [to_num |]); symmetry;
    (eapply eq_trans; [to_num |]); f_equal; symmetry.
  - apply (lin_pair4 z2 z3 (fun x => x) (fun x => x) z2_lxor z3_lxor id_lxor id_lxor);
      assumption.
  - apply (lin_pair4 (fun x => x) z2 z3 (fun x => x) id_lxor z2_lxor z3_lxor id_lxor);
      assumption.
  - apply (lin_pair4 (fun x => x) (fun x => x) z2 z3 id_lxor id_lxor z2_lxor z3_lxor);
      assumption.
  - apply (lin_pair4 z3 (fun x => x) (fun x => x) z2 z3_lxor id_lxor id_lxor z2_lxor);
      assumption.
Qed.

Lemma unmixCell_bxor (a0 a1 a2 a3 b0 b1 b2 b3 : Z) (row : nat) :
  byteZ a0 -> byteZ a1 -> byteZ a2 -> byteZ a3 ->
  byteZ b0 -> byteZ b1 -> byteZ b2 -> byteZ b3 ->
  unmixCell (bxor (Num a0) (Num b0)) (bxor (Num a1) (Num b1))
            (bxor (Num a2) (Num b2)) (bxor (Num a3) (Num b3)) row
  = bxor (unmixCell (Num a0) (Num a1) (Num a2) (Num a3) row)
         (unmixCell (Num b0) (Num b1) (Num b2) (Num b3) row).
Proof.
  intros A0 A1 A2 A3 B0 B1 B2 B3.
  destruct row as [|[|[|row]]]; unfold unmixCell;
    (eapply eq_trans; [to_num |]); symmetry;
    (eapply eq_trans; [to_num |]); f_equal; symmetry.
  - apply (lin_pair4 z14 z11 z13 z9 z14_lxor z11_lxor z13_lxor z9_lxor); assumption.
  - apply (lin_pair4 z9 z14 z11 z13 z9_lxor z14_lxor z11_lxor z13_lxor); assumption.
  - apply (lin_pair4 z13 z9 z14 z11 z13_lxor z9_lxor z14_lxor z11_lxor); assumption.
  - apply (lin_pair4 z11 z13 z9 z14 z11_lxor z13_lxor z9_lxor z14_lxor); assumption.
Qed.

Lemma byteState_column (s : state) (c : nat) :
  byteState s -> (c < 4)%nat ->
  exists a0 a1 a2 a3,
    cell s 0 c = Num a0 /\ cell s 1 c = Num a1 /\
    cell s 2 c = Num a2 /\ cell s 3 c = Num a3 /\
    byteZ a0 /\ byteZ a1 /\ byteZ a2 /\ byteZ a3.
Proof.
  intros Hs Hc.
  destruct (byteState_cell s 0 c Hs) as (a0 & E0 & B0); [lia | assumption |].
  destruct (byteState_cell s 1 c Hs) as (a1 & E1 & B1); [lia | assumption |].
  destruct (byteState_cell s 2 c Hs) as (a2 & E2 & B2); [lia | assumption |].
  destruct (byteState_cell s 3 c Hs) as (a3 & E3 & B3); [lia | assumption |].
  exists a0, a1, a2, a3. do 7 (split; [assumption|]). assumption.
Qed.

Lemma mixColumns_addRoundKey (s k : state) :
  byteState s -> byteState k ->
  mixColumns (addRoundKey s k) = addRoundKey (mixColumns s) (mixColumns k).
Proof.
  intros Hs Hk.
  rewrite (mixColumns_tab (addRoundKey s k))
    by (rewrite addRoundKey_tab by apply Hs; apply shape4_tab).
  rewrite (addRoundKey_tab (mixColumns s))
    by (rewrite mixColumns_tab by apply Hs; apply shape4_tab).
  rewrite addRoundKey_tab by apply Hs.
  rewrite (mixColumns_tab s) by apply Hs.
  rewrite (mixColumns_tab k) by apply Hk.
  apply tab_ext. intros r c Hr Hc.
  rewrite !cell_tab by (assumption || lia).
  destruct (byteState_column s c Hs Hc)
    as (a0 & a1 & a2 & a3 & -> & -> & -> & -> & A0 & A1 & A2 & A3).
  destruct (byteState_column k c Hk Hc)
    as (b0 & b1 & b2 & b3 & -> & -> & -> & -> & B0 & B1 & B2 & B3).
  now apply mixCell_bxor.
Qed.

Lemma inverseMixColumns_addRoundKey (s k : state) :
  byteState s -> byteState k ->
  inverseMixColumns (addRoundKey s k)
  = addRoundKey (inverseMixColumns s) (inverseMixColumns k).
Proof.
  intros Hs Hk.
  rewrite (inverseMixColumns_tab (addRoundKey s k))
    by (rewrite addRoundKey_tab by apply Hs; apply shape4_tab).
  rewrite (addRoundKey_tab (inverseMixColumns s))
    by (rewrite inverseMixColumns_tab by apply Hs; apply shape4_tab).
  rewrite addRoundKey_tab by apply Hs.
  rewrite (inverseMixColumns_tab s) by apply Hs.
  rewrite (inverseMixColumns_tab k) by apply Hk.
  apply tab_ext. intros r c Hr Hc.
  rewrite !cell_tab by (assumption || lia).
  destruct (byteState_column s c Hs Hc)
    as (a0 & a1 & a2 & a3 & -> & -> & -> & -> & A0 & A1 & A2 & A3).
  destruct (byteState_column k c Hk Hc)
    as (b0 & b1 & b2 & b3 & -> & -> & -> & -> & B0 & B1 & B2 & B3).
  now apply unmixCell_bxor.
Qed.

(* ====================================================================== *)
(** ** galoisField.js: the general multiplication *)
(* ====================================================================== *)

Lemma band_byte (v : val) : isByte (band v (Num 0xff)) = true.
Proof.
  unfold band, isByte.
  change (toInt32 (Num 255)) with (Z.ones 8).
  rewrite Z.land_ones by lia.
  pose proof (Z.mod_pos_bound (toInt32 v) (2 ^ 8) eq_refl) as H.
  change (2 ^ 8) with 256 in *.
  apply andb_true_iff. split; [apply Z.leb_le | apply Z.ltb_lt]; lia.
Qed.

Lemma multiplyByTwo_byte (v : val) : isByte (multiplyByTwo v) = true.
Proof. unfold multiplyByTwo. cbv zeta. apply band_byte. Qed.

Lemma galoisMultiply_byte (a b : val) : isByte (galoisMultiply a b) = true.
Proof.
  unfold galoisMultiply.
  destruct (Nat.iter 8 galoisStep (Num 0, a, b)) as [[product tempA] tempB].
  apply band_byte.
Qed.

Lemma galoisMultiply_Num (a b : Z) : galoisMultiply (Num a) (Num b) = Num (zmul a b).
Proof.
  unfold zmul.
  destruct (isByte_Num _ (galoisMultiply_byte (Num a) (Num b))) as (n & -> & _).
  reflexivity.
Qed.

Lemma zmul_1 : forall a, byteZ a -> zmul a 1 = a.
Proof. by_bytes. Qed.
Lemma zmul_2 : forall a, byteZ a -> zmul a 2 = z2 a.
Proof. by_bytes. Qed.
Lemma zmul_3 : forall a, byteZ a -> zmul a 3 = z3 a.
Proof. by_bytes. Qed.
Lemma zmul_9 : forall a, byteZ a -> zmul a 9 = z9 a.
Proof. by_bytes. Qed.
Lemma zmul_11 : forall a, byteZ a -> zmul a 11 = z11 a.
Proof. by_bytes. Qed.
Lemma zmul_13 : forall a, byteZ a -> zmul a 13 = z13 a.
Proof. by_bytes. Qed.
Lemma zmul_14 : forall a, byteZ a -> zmul a 14 = z14 a.
Proof. by_bytes. Qed.

(** X8.  On every byte, the general multiplication [galoisMultiply] by 2, 3,
    9, 11, 13 and 14 gives what the dedicated functions [multiplyByTwo],
    [multiplyByThree], [multiplyByNine], [multiplyByEleven],
    [multiplyByThirteen] and [multiplyByFourteen] give, and multiplying by 1
    gives the byte back. *)
Theorem X8_galoisMultiply_agrees (v : val) :
  isByte v = true ->
  galoisMultiply v (Num 1) = v
  /\ galoisMultiply v (Num 2) = multiplyByTwo v
  /\ galoisMultiply v (Num 3) = multiplyByThree v
  /\ galoisMultiply v (Num 9) = multiplyByNine v
  /\ galoisMultiply v (Num 11) = multiplyByEleven v
  /\ galoisMultiply v (Num 13) = multiplyByThirteen v
  /\ galoisMultiply v (Num 14) = multiplyByFourteen v.
Proof.
  intros H. apply isByte_Num in H as (a & -> & Ha).
  rewrite !galoisMultiply_Num.
  rewrite multiplyByTwo_Num, multiplyByThree_Num, multiplyByNine_Num,
    multiplyByEleven_Num, multiplyByThirteen_Num, multiplyByFourteen_Num.
  split; [f_equal; now apply zmul_1|].
  split; [f_equal; now apply zmul_2|].
  split; [f_equal; now apply zmul_3|].
  split; [f_equal; now apply zmul_9|].
  split; [f_equal; now apply zmul_11|].
  split; [f_equal; now apply zmul_13|].
  f_equal; now apply zmul_14.
Qed.

Lemma X8_witness :
  isByte (Num 0x57) = true /\ galoisMultiply (Num 0x57) (Num 2) = multiplyByTwo (Num 0x57).
Proof.
  split; [reflexivity|].
  apply (X8_galoisMultiply_agrees (Num 0x57)). reflexivity.
Defined.

(** X9.  Whatever their arguments (a number of any size or sign, or
    [undefined]), [multiplyByTwo] and [galoisMultiply] return a byte: the last
    operation of both is [& 0xff]. *)
Theorem X9_products_are_bytes (a b : val) :
  isByte (multiplyByTwo a) = true /\ isByte (galoisMultiply a b) = true.
Proof. split; [apply multiplyByTwo_byte | apply galoisMultiply_byte]. Qed.

(** X10.  On every 4x4 matrix, whatever its cells, [inverseShiftRows] undoes
    [shiftRows] and [shiftRows] undoes [inverseShiftRows]. *)
Theorem X10_shiftRows_inverse (s : state) :
  isShape4 s = true ->
  inverseShiftRows (shiftRows s) = s /\ shiftRows (inverseShiftRows s) = s.
Proof.
  intros H. apply isShape4_spec in H.
  split; [now apply inverseShiftRows_shiftRows | now apply shiftRows_inverseShiftRows].
Qed.

Lemma X10_witness :
  isShape4 sampleState = true
  /\ inverseShiftRows (shiftRows sampleState) = sampleState
  /\ shiftRows (inverseShiftRows sampleState) = sampleState.
Proof.
  split; [reflexivity|].
  apply (X10_shiftRows_inverse sampleState). reflexivity.
Defined.

(** X11.  On every 4x4 matrix of bytes, [inverseSubstituteBytes] undoes
    [substituteBytes] and [substituteBytes] undoes [inverseSubstituteBytes]:
    the two tables are inverse permutations of the 256 bytes. *)
Theorem X11_substituteBytes_inverse (s : state) :
  isByteState s = true ->
  inverseSubstituteBytes (substituteBytes s) = s
  /\ substituteBytes (inverseSubstituteBytes s) = s.
Proof.
  intros H. apply isByteState_spec in H.
  split; [now apply inverseSubstituteBytes_substituteBytes
         | now apply substituteBytes_inverseSubstituteBytes].
Qed.

Lemma X11_witness :
  isByteState sampleState = true
  /\ inverseSubstituteBytes (substituteBytes sampleState) = sampleState
  /\ substituteBytes (inverseSubstituteBytes sampleState) = sampleState.
Proof.
  split; [reflexivity|].
  apply (X11_substituteBytes_inverse sampleState). reflexivity.
Defined.

(** X12.  On every 4x4 matrix of bytes, [mixColumns] undoes
    [inverseMixColumns]: the (2, 3, 1, 1) matrix is also a right inverse of the
    (14, 11, 13, 9) matrix. *)
Theorem X12_mixColumns_inverseMixColumns (s : state) :
  isByteState s = true -> mixColumns (inverseMixColumns s) = s.
Proof.
  intros H. apply mixColumns_inverseMixColumns_byteState.
  now apply isByteState_spec.
Qed.

Lemma X12_witness :
  isByteState sampleState = true
  /\ mixColumns (inverseMixColumns sampleState) = sampleState.
Proof.
  split; [reflexivity|].
  apply (X12_mixColumns_inverseMixColumns sampleState). reflexivity.
Defined.

(** X13.  On 4x4 matrices of bytes, [addRoundKey] is its own inverse (adding
    the same round key twice gives the state back) and the state and the key
    can be exchanged. *)
Theorem X13_addRoundKey_involution (s k : state) :
  isByteState s = true -> isByteState k = true ->
  addRoundKey (addRoundKey s k) k = s /\ addRoundKey s k = addRoundKey k s.
Proof.
  intros Hs Hk. apply isByteState_spec in Hs, Hk. split.
  - now apply addRoundKey_twice.
  - apply addRoundKey_comm; [apply Hs | apply Hk].
Qed.

Lemma X13_witness :
  isByteState sampleState = true /\ isByteState sampleRoundKey = true
  /\ addRoundKey (addRoundKey sampleState sampleRoundKey) sampleRoundKey = sampleState.
Proof.
  split; [reflexivity|]. split; [reflexivity|].
  apply (X13_addRoundKey_involution sampleState sampleRoundKey); reflexivity.
Defined.

(** X14.  Each of the seven transformations maps 4x4 matrices of bytes to 4x4
    matrices of bytes. *)
Theorem X14_transformations_keep_bytes (s k : state) :
  isByteState s = true -> isByteState k = true ->
  isByteState (substituteBytes s) = true
  /\ isByteState (inverseSubstituteBytes s) = true
  /\ isByteState (shiftRows s) = true
  /\ isByteState (inverseShiftRows s) = true
  /\ isByteState (mixColumns s) = true
  /\ isByteState (inverseMixColumns s) = true
  /\ isByteState (addRoundKey s k) = true.
Proof.
  intros Hs Hk. apply isByteState_spec in Hs, Hk.
  rewrite !isByteState_spec.
  split; [now apply substituteBytes_byteState|].
  split; [now apply inverseSubstituteBytes_byteState|].
  split; [now apply shiftRows_byteState|].
  split; [now apply inverseShiftRows_byteState|].
  split; [now apply mixColumns_byteState|].
  split; [now apply inverseMixColumns_byteState|].
  now apply addRoundKey_byteState.
Qed.

Lemma X14_witness :
  isByteState sampleState = true /\ isByteState sampleRoundKey = true
  /\ isByteState (mixColumns sampleState) = true.
Proof.
  split; [reflexivity|]. split; [reflexivity|].
  apply (X14_transformations_keep_bytes sampleState sampleRoundKey); reflexivity.
Defined.

(** X15.  On every 4x4 matrix, substituting the bytes and shifting the rows
    can be done in either order, and so can their inverses: this is why
    [decryptBlock] may apply [inverseShiftRows] before
    [inverseSubstituteBytes]. *)
Theorem X15_substitute_and_shift_commute (s : state) :
  isShape4 s = true ->
  shiftRows (substituteBytes s) = substituteBytes (shiftRows s)
  /\ inverseShiftRows (inverseSubstituteBytes s)
     = inverseSubstituteBytes (inverseShiftRows s).
Proof.
  intros H. apply isShape4_spec in H.
  split; [now apply substituteBytes_shiftRows
         | now apply inverseSubstituteBytes_inverseShiftRows].
Qed.

Lemma X15_witness :
  isShape4 sampleState = true
  /\ shiftRows (substituteBytes sampleState) = substituteBytes (shiftRows sampleState).
Proof.
  split; [reflexivity|].
  apply (X15_substitute_and_shift_commute sampleState). reflexivity.
Defined.

(** X16.  [mixColumns] and [inverseMixColumns] distribute over [addRoundKey]
    on 4x4 matrices of bytes: mixing the columns of a state to which a key
    was added is adding the mixed key to the mixed state. *)
Theorem X16_mixColumns_distributes (s k : state) :
  isByteState s = true -> isByteState k = true ->
  mixColumns (addRoundKey s k) = addRoundKey (mixColumns s) (mixColumns k)
  /\ inverseMixColumns (addRoundKey s k)
     = addRoundKey (inverseMixColumns s) (inverseMixColumns k).
Proof.
  intros Hs Hk. apply isByteState_spec in Hs, Hk.
  split; [now apply mixColumns_addRoundKey | now apply inverseMixColumns_addRoundKey].
Qed.

Lemma X16_witness :
  isByteState sampleState = true /\ isByteState sampleRoundKey = true
  /\ mixColumns (addRoundKey sampleState sampleRoundKey)
     = addRoundKey (mixColumns sampleState) (mixColumns sampleRoundKey).
Proof.
  split; [reflexivity|]. split; [reflexivity|].
  apply (X16_mixColumns_distributes sampleState sampleRoundKey); reflexivity.
Defined.

(* ====================================================================== *)
(** ** keyExpansion.js: the words, the trace and the round keys *)
(* ====================================================================== *)

Lemma byteWord_of (w : word) : length w = 4%nat -> byteArray w -> byteWord w.
Proof. now split. Qed.

Lemma xorWords_bytes (a b c d a' b' c' d' : val) :
  xorWords [a; b; c; d] [a'; b'; c'; d'] = [bxor a a'; bxor b b'; bxor c c'; bxor d d'].
Proof. reflexivity. Qed.

(** X17.  On words of four bytes: [rotateWord] applied four times gives the
    word back, [xorWords] with the same word twice gives the word back and
    does not depend on the order of its arguments, and the three helpers
    return words of four bytes. *)
Theorem X17_word_helpers (w w' : word) :
  length w = 4%nat -> byteArray w -> length w' = 4%nat -> byteArray w' ->
  rotateWord (rotateWord (rotateWord (rotateWord w))) = w
  /\ xorWords (xorWords w w') w' = w
  /\ xorWords w w' = xorWords w' w
  /\ (length (rotateWord w) = 4%nat /\ byteArray (rotateWord w))
  /\ (length (substituteWord w) = 4%nat /\ byteArray (substituteWord w))
  /\ (length (xorWords w w') = 4%nat /\ byteArray (xorWords w w')).
Proof.
  intros Hl Hb Hl' Hb'.
  destruct (byteWord_inv w (byteWord_of w Hl Hb)) as (a & b & c & d & -> & Ha & Hb0 & Hc & Hd).
  destruct (byteWord_inv w' (byteWord_of w' Hl' Hb'))
    as (a' & b' & c' & d' & -> & Ha' & Hb0' & Hc' & Hd').
  split; [reflexivity|].
  split; [rewrite !xorWords_bytes; now rewrite !bxor_bxor|].
  split; [rewrite !xorWords_bytes; f_equal; [|f_equal; [|f_equal; [|f_equal]]];
          apply bxor_comm|].
  split; [split; [reflexivity|]; now apply byteWord_intro|].
  split; [split; [reflexivity|]; apply byteWord_intro; now apply sbox_byte|].
  split; [reflexivity|]. rewrite xorWords_bytes.
  apply byteWord_intro; now apply bxor_byte.
Qed.

Lemma X17_witness :
  length sampleWord = 4%nat /\ byteArray sampleWord
  /\ length sampleWord' = 4%nat /\ byteArray sampleWord'
  /\ xorWords (xorWords sampleWord sampleWord') sampleWord' = sampleWord.
Proof.
  do 4 (split; [reflexivity|]).
  apply (X17_word_helpers sampleWord sampleWord'); reflexivity.
Defined.

Lemma snd_expandStep (acc : list word * list stepDetails) (i : nat) :
  exists d, snd (expandStep acc i) = snd acc ++ [d]
            /\ wordIndex d = i /\ stepResult d = nextWord (fst acc) i.
Proof.
  destruct acc as [words details]. unfold expandStep, nextWord.
  cbn [fst snd].
  destruct (i mod KEY_SIZE_WORDS =? 0)%nat; [eexists; repeat split|].
  destruct (i mod KEY_SIZE_WORDS =? 4)%nat; eexists; repeat split.
Qed.

Lemma expansion_trace (key : list val) (n : nat) :
  let r := fold_left expandStep (seq KEY_SIZE_WORDS n) (keyWords key, []) in
  map wordIndex (snd r) = seq KEY_SIZE_WORDS n
  /\ map stepResult (snd r) = skipn KEY_SIZE_WORDS (wordsAfter key n).
Proof.
  induction n as [|n IH].
  - split; reflexivity.
  - cbv zeta in *. rewrite seq_S, fold_left_app, fold_left_cons.
    change (fold_left expandStep [] ?x) with x.
    destruct (snd_expandStep
                (fold_left expandStep (seq KEY_SIZE_WORDS n) (keyWords key, []))
                (KEY_SIZE_WORDS + n)) as (d & -> & Hi & Hr).
    rewrite fold_expandStep in Hr.
    destruct IH as [IH1 IH2]. rewrite !map_app, IH1, IH2. cbn [map].
    rewrite Hi, Hr. split; [reflexivity|].
    cbn [wordsAfter]. rewrite skipn_app.
    replace (KEY_SIZE_WORDS - length (wordsAfter key n))%nat with 0%nat
      by (rewrite wordsAfter_length; lia).
    reflexivity.
Qed.

(** X18.  For every key array, of any length and content, [expandKey]
    returns 15 round keys that are 4x4 matrices, and a trace of 52 entries:
    one for each word 8..59, in order, whose [result] is that word. *)
Theorem X18_expandKey_shape_and_trace (key : list val) :
  let ks := expandKey key in
  length (roundKeys ks) = 15%nat
  /\ forallb isShape4 (roundKeys ks) = true
  /\ map wordIndex (expansionDetails ks) = seq 8 52
  /\ map stepResult (expansionDetails ks) = skipn 8 (scheduleWords key).
Proof.
  cbv zeta. split; [apply expandKey_length|]. split.
  - rewrite roundKeys_expandKey. apply forallb_forall. intros rk Hrk.
    apply in_map_iff in Hrk as (r & <- & _). rewrite roundKeyOf_tab. reflexivity.
  - rewrite scheduleWords_wordsAfter.
    pose proof (expansion_trace key 52) as H. cbv zeta in H.
    unfold expandKey, expandWords.
    change (4 * (NUMBER_OF_ROUNDS + 1) - KEY_SIZE_WORDS)%nat with 52%nat.
    destruct (fold_left expandStep (seq KEY_SIZE_WORDS 52) (keyWords key, []))
      as [words details].
    exact H.
Qed.

Lemma get_skipn (l : list val) (n i : nat) : get (skipn n l) i = get l (n + i).
Proof. unfold get. apply nth_skipn. Qed.

(** X19.  For a key of 32 bytes, every round key is a 4x4 matrix of bytes,
    and the first two round keys are the key itself, so that the key can be
    read back from them. *)
Theorem X19_round_keys_of_a_key (key : list val) :
  length key = 32%nat -> byteArray key ->
  let rks := roundKeys (expandKey key) in
  forallb isByteState rks = true
  /\ keyAt rks 0 = bytesToStateMatrix (firstn 16 key)
  /\ keyAt rks 1 = bytesToStateMatrix (skipn 16 key)
  /\ stateMatrixToBytes (keyAt rks 0) ++ stateMatrixToBytes (keyAt rks 1) = key.
Proof.
  intros Hl Hb. cbv zeta.
  assert (H0 : keyAt (roundKeys (expandKey key)) 0 = bytesToStateMatrix (firstn 16 key)).
  { rewrite keyAt_expandKey by (unfold NUMBER_OF_ROUNDS; lia).
    rewrite roundKeyOf_tab, bytesToStateMatrix_tab.
    apply tab_ext. intros r c Hr Hc.
    rewrite scheduleWords_key by lia. rewrite get_firstn by lia.
    destruct r as [|[|[|[|r]]]]; [| | | | lia];
      unfold get; cbn [nth]; f_equal; lia. }
  assert (H1 : keyAt (roundKeys (expandKey key)) 1 = bytesToStateMatrix (skipn 16 key)).
  { rewrite keyAt_expandKey by (unfold NUMBER_OF_ROUNDS; lia).
    rewrite roundKeyOf_tab, bytesToStateMatrix_tab.
    apply tab_ext. intros r c Hr Hc.
    rewrite scheduleWords_key by lia. rewrite get_skipn.
    destruct r as [|[|[|[|r]]]]; [| | | | lia];
      unfold get; cbn [nth]; f_equal; lia. }
  split; [|split; [exact H0 | split; [exact H1|]]].
  - apply forallb_forall. intros rk Hrk.
    destruct (In_nth _ _ [] Hrk) as (r & Hr & <-).
    rewrite expandKey_length in Hr.
    apply isByteState_spec. rewrite <- keyAt_nth.
    assert (Hr' : (r <= NUMBER_OF_ROUNDS)%nat) by (unfold NUMBER_OF_ROUNDS; lia).
    exact (expandKey_byteKeys key Hl Hb r Hr').
  - rewrite H0, H1.
    rewrite !stateMatrixToBytes_bytesToStateMatrix
      by (rewrite ?length_firstn, ?length_skipn; lia).
    apply firstn_skipn.
Qed.

Lemma X19_witness :
  length sampleKey = 32%nat /\ byteArray sampleKey
  /\ forallb isByteState (roundKeys (expandKey sampleKey)) = true.
Proof.
  split; [reflexivity|]. split; [reflexivity|].
  apply (X19_round_keys_of_a_key sampleKey); reflexivity.
Defined.

(* ====================================================================== *)
(** ** Blocks, in the other direction and on any input *)
(* ====================================================================== *)

Section RoundsBack.
Variable rks : list state.
Hypothesis Hrks : byteKeys rks.

(** One encryption round undoes one decryption round, seen through
    [inverseShiftRows] and [inverseSubstituteBytes]. *)
Lemma encRound_decRound (st : state) (rnd : nat) :
  (rnd <= NUMBER_OF_ROUNDS)%nat -> byteState st ->
  encRound rks (inverseSubstituteBytes (inverseShiftRows (decRound rks st rnd))) rnd
  = inverseSubstituteBytes (inverseShiftRows st).
Proof.
  intros Hr Hs.
  pose proof (decRound_byteState rks Hrks st rnd Hr Hs) as Hd.
  pose proof (inverseShiftRows_byteState _ Hd) as H1.
  pose proof (inverseSubstituteBytes_byteState _ (inverseShiftRows_byteState _ Hs)) as H2.
  unfold encRound.
  rewrite substituteBytes_inverseSubstituteBytes by exact H1.
  rewrite shiftRows_inverseShiftRows by apply Hd.
  unfold decRound.
  rewrite mixColumns_inverseMixColumns_byteState
    by (apply addRoundKey_byteState; [exact H2 | now apply Hrks]).
  apply addRoundKey_twice; [exact H2 | now apply Hrks].
Qed.

Lemma encRounds_decRounds (rounds : list nat) (st : state) :
  Forall (fun r => r <= NUMBER_OF_ROUNDS)%nat rounds ->
  byteState st ->
  fold_left (encRound rks) rounds
            (inverseSubstituteBytes
               (inverseShiftRows (fold_left (decRound rks) (rev rounds) st)))
  = inverseSubstituteBytes (inverseShiftRows st).
Proof.
  induction rounds as [|rnd rounds IH]; intros Hr Hs.
  - reflexivity.
  - inversion Hr as [|? ? Hrnd Hrest]; subst.
    change (rev (rnd :: rounds)) with (rev rounds ++ [rnd]).
    rewrite fold_left_app, !fold_left_cons.
    change (fold_left (decRound rks) [] ?x) with x.
    rewrite encRound_decRound.
    + now apply IH.
    + exact Hrnd.
    + apply (decRounds_byteState rks Hrks); [|exact Hs].
      apply Forall_rev. exact Hrest.
Qed.

Lemma decryptState_byteState (st : state) :
  byteState st -> byteState (decryptState rks st).
Proof.
  intros Hs. unfold decryptState.
  apply addRoundKey_byteState; [|apply Hrks; unfold NUMBER_OF_ROUNDS; lia].
  apply inverseSubstituteBytes_byteState, inverseShiftRows_byteState.
  apply (decRounds_byteState rks Hrks); [apply rounds_down_bounded|].
  apply addRoundKey_byteState; [assumption | apply Hrks; unfold NUMBER_OF_ROUNDS; lia].
Qed.

Lemma encryptState_decryptState (st : state) :
  byteState st -> encryptState rks (decryptState rks st) = st.
Proof.
  intros Hs.
  assert (K0 : byteState (keyAt rks 0)) by (apply Hrks; unfold NUMBER_OF_ROUNDS; lia).
  assert (K14 : byteState (keyAt rks NUMBER_OF_ROUNDS)) by (apply Hrks; lia).
  pose proof (addRoundKey_byteState _ _ Hs K14) as H0.
  pose proof (decRounds_byteState rks Hrks _ _ rounds_down_bounded H0) as H1.
  pose proof (inverseShiftRows_byteState _ H1) as H2.
  pose proof (inverseSubstituteBytes_byteState _ H2) as H3.
  pose proof (inverseShiftRows_byteState _ H0) as H4.
  unfold encryptState, decryptState.
  rewrite addRoundKey_twice by assumption.
  unfold roundsDown.
  rewrite encRounds_decRounds by (apply main_rounds_bounded || assumption).
  rewrite substituteBytes_inverseSubstituteBytes by exact H4.
  rewrite shiftRows_inverseShiftRows by apply H0.
  now apply addRoundKey_twice.
Qed.

Lemma encBytes_byteArray (block : list val) :
  length block = 16%nat -> byteArray block ->
  length (encBytes rks block) = 16%nat /\ byteArray (encBytes rks block).
Proof.
  intros Hl Hb. unfold encBytes. split; [apply stateMatrixToBytes_length|].
  apply stateMatrixToBytes_byteArray, (encryptState_byteState rks Hrks).
  now apply bytesToStateMatrix_byteState.
Qed.

Lemma decBytes_byteArray (block : list val) :
  length block = 16%nat -> byteArray block ->
  length (decBytes rks block) = 16%nat /\ byteArray (decBytes rks block).
Proof.
  intros Hl Hb. unfold decBytes. split; [apply stateMatrixToBytes_length|].
  apply stateMatrixToBytes_byteArray, decryptState_byteState.
  now apply bytesToStateMatrix_byteState.
Qed.

Lemma encBytes_decBytes (block : list val) :
  length block = 16%nat -> byteArray block ->
  encBytes rks (decBytes rks block) = block.
Proof.
  intros Hl Hb. unfold encBytes, decBytes.
  pose proof (bytesToStateMatrix_byteState block Hl Hb) as Hs.
  rewrite bytesToStateMatrix_stateMatrixToBytes
    by (apply decryptState_byteState; exact Hs).
  rewrite encryptState_decryptState by exact Hs.
  now apply stateMatrixToBytes_bytesToStateMatrix.
Qed.

Lemma decBytes_encBytes (block : list val) :
  length block = 16%nat -> byteArray block ->
  decBytes rks (encBytes rks block) = block.
Proof.
  intros Hl Hb. unfold decBytes, encBytes.
  now apply decrypt_encrypt_block.
Qed.

End RoundsBack.

Lemma encryptBlock_encBytes (block : list val) (rks : list state) :
  encryptBlock block rks false
  = Ok {| outBlock := encBytes rks block; blockDetails := [] |}.
Proof. unfold encBytes. apply encryptBlock_untracked. Qed.

Lemma decryptBlock_decBytes (block : list val) (rks : list state) :
  decryptBlock block rks false
  = Ok {| outBlock := decBytes rks block; blockDetails := [] |}.
Proof. unfold decBytes. apply decryptBlock_untracked. Qed.

(** X20.  For every 32-byte key and every 16-byte block, encrypting the
    decrypted block gives the block back, and both [encryptBlock] and
    [decryptBlock] return 16 bytes: on blocks of bytes the two functions are
    inverse bijections. *)
Theorem X20_encrypt_decrypt_block (key block : list val) :
  length key = 32%nat -> byteArray key ->
  length block = 16%nat -> byteArray block ->
  let rks := roundKeys (expandKey key) in
  (d <- decryptBlock block rks false ;;
   e <- encryptBlock (outBlock d) rks false ;;
   Ok (outBlock e)) = Ok block
  /\ (e <- encryptBlock block rks false ;;
      Ok (length (outBlock e), forallb isByte (outBlock e))) = Ok (16%nat, true)
  /\ (d <- decryptBlock block rks false ;;
      Ok (length (outBlock d), forallb isByte (outBlock d))) = Ok (16%nat, true).
Proof.
  intros Hkl Hkb Hl Hb. cbv zeta.
  pose proof (expandKey_byteKeys key Hkl Hkb) as Hrks.
  set (rks := roundKeys (expandKey key)) in *.
  rewrite !decryptBlock_decBytes, !bind_Ok. cbn [outBlock].
  rewrite !encryptBlock_encBytes, !bind_Ok. cbn [outBlock].
  rewrite (encBytes_decBytes rks Hrks block Hl Hb).
  destruct (encBytes_byteArray rks Hrks block Hl Hb) as [Hel He].
  destruct (decBytes_byteArray rks Hrks block Hl Hb) as [Hdl Hd].
  unfold byteArray in He, Hd. rewrite Hel, He, Hdl, Hd.
  split; [reflexivity|]. split; reflexivity.
Qed.

Lemma X20_witness :
  length sampleKey = 32%nat /\ byteArray sampleKey
  /\ length sampleBlock = 16%nat /\ byteArray sampleBlock
  /\ (d <- decryptBlock sampleBlock (roundKeys (expandKey sampleKey)) false ;;
      e <- encryptBlock (outBlock d) (roundKeys (expandKey sampleKey)) false ;;
      Ok (outBlock e)) = Ok sampleBlock.
Proof.
  do 4 (split; [reflexivity|]).
  apply (X20_encrypt_decrypt_block sampleKey sampleBlock); reflexivity.
Defined.

(* ====================================================================== *)
(** ** encryptText and decryptText, block by block *)
(* ====================================================================== *)

Section PerBlock.
Variable F : list val -> list val.
Hypothesis F_length : forall b, length (F b) = 16%nat.

Lemma perBlock_blocks (data : list val) :
  perBlock F data
  = concat (map (fun i => F (blockAt data i)) (seq 0 (blockCount (length data))))
  /\ Forall (fun b => length b = 16%nat)
            (map (fun i => F (blockAt data i)) (seq 0 (blockCount (length data)))).
Proof.
  split; [apply flat_map_concat_map|].
  apply Forall_forall. intros b Hin.
  apply in_map_iff in Hin as (i & <- & _). apply F_length.
Qed.

Lemma perBlock_length (data : list val) :
  length (perBlock F data) = (16 * blockCount (length data))%nat.
Proof.
  destruct (perBlock_blocks data) as [-> Hall].
  rewrite length_concat16 by exact Hall. now rewrite length_map, length_seq.
Qed.

Lemma perBlock_blockAt (data : list val) (i : nat) :
  (i < blockCount (length data))%nat ->
  blockAt (perBlock F data) i = F (blockAt data i).
Proof.
  intros Hi. destruct (perBlock_blocks data) as [-> Hall].
  rewrite blockAt_concat by (rewrite ?length_map, ?length_seq; assumption).
  rewrite nth_indep with (d' := F (blockAt data 0))
    by (rewrite length_map, length_seq; lia).
  rewrite (map_nth (fun i => F (blockAt data i))), seq_nth by lia.
  reflexivity.
Qed.

Lemma perBlock_byteArray (data : list val) :
  (forall b, byteArray (F b)) -> byteArray (perBlock F data).
Proof.
  intros HF. unfold perBlock, byteArray.
  induction (seq 0 (blockCount (length data))) as [|i l IH]; [reflexivity|].
  cbn [flat_map]. rewrite forallb_app, IH, andb_true_r. apply HF.
Qed.

Lemma perBlock_inverse (G : list val -> list val) (data : list val) (n : nat) :
  (forall b, length b = 16%nat -> byteArray b -> G (F b) = b) ->
  length data = (16 * n)%nat -> byteArray data ->
  perBlock G (perBlock F data) = data.
Proof.
  intros HG Hl Hb.
  unfold perBlock at 1. rewrite perBlock_length, Hl, !blockCount_full.
  transitivity (flat_map (blockAt data) (seq 0 n)); [| now apply concat_blocks].
  rewrite !flat_map_concat_map. f_equal. apply map_ext_in.
  intros i Hi. apply in_seq in Hi.
  rewrite perBlock_blockAt by (rewrite Hl, blockCount_full; lia).
  apply HG; [apply (blockAt_length n); [assumption | lia] | now apply blockAt_byteArray].
Qed.

End PerBlock.

Lemma encryptAll_perBlock (rks : list state) (data : list val) :
  encryptAll rks data = perBlock (encBytes rks) data.
Proof. reflexivity. Qed.

Lemma decryptAll_perBlock (rks : list state) (data : list val) :
  decryptAll rks data = perBlock (decBytes rks) data.
Proof. reflexivity. Qed.

Lemma encBytes_length (rks : list state) (b : list val) : length (encBytes rks b) = 16%nat.
Proof. apply stateMatrixToBytes_length. Qed.

Lemma decBytes_length (rks : list state) (b : list val) : length (decBytes rks b) = 16%nat.
Proof. apply stateMatrixToBytes_length. Qed.

Lemma blockCount_padData (plain : list val) :
  blockCount (length (padData plain)) = (length plain / 16 + 1)%nat.
Proof. rewrite padData_length. apply blockCount_full. Qed.

Lemma perBlock_blocks_byteArray (F : list val -> list val) (data : list val) (n : nat) :
  (forall b, length b = 16%nat -> byteArray b -> byteArray (F b)) ->
  length data = (16 * n)%nat -> byteArray data -> byteArray (perBlock F data).
Proof.
  intros HF Hl Hb. unfold perBlock. rewrite Hl, blockCount_full.
  assert (H : forall i, In i (seq 0 n) -> byteArray (F (blockAt data i))).
  { intros i Hi. apply in_seq in Hi.
    apply HF; [apply (blockAt_length n); [assumption | lia]
              | now apply blockAt_byteArray]. }
  unfold byteArray in *.
  induction (seq 0 n) as [|i l IH]; [reflexivity|].
  cbn [flat_map]. rewrite forallb_app, IH, andb_true_r.
  - apply H. now left.
  - intros j Hj. apply H. now right.
Qed.

Lemma encryptAll_bytes (rks : list state) (plain : list val) :
  byteKeys rks -> byteArray plain ->
  length (encryptAll rks (padData plain)) = (16 * (length plain / 16 + 1))%nat
  /\ byteArray (encryptAll rks (padData plain)).
Proof.
  intros Hrks Hb. rewrite encryptAll_perBlock. split.
  - rewrite perBlock_length by apply encBytes_length.
    now rewrite blockCount_padData.
  - apply (perBlock_blocks_byteArray _ _ (length plain / 16 + 1)).
    + intros b Hl Hbb. now apply encBytes_byteArray.
    + apply padData_length.
    + now apply padData_byteArray.
Qed.

(** X22.  For every 32-byte key and every array of bytes, [encryptText]
    succeeds with and without tracking and returns the same [cipherBytes] in
    both cases: an array of bytes whose length is the next multiple of 16
    strictly above the length of the input. *)
Theorem X22_encryptText_succeeds (key plain : list val) :
  length key = 32%nat -> byteArray key -> byteArray plain ->
  exists cipher,
    (forall t, (e <- encryptText plain key t ;; Ok (cipherBytes e)) = Ok cipher)
    /\ length cipher = (16 * (length plain / 16 + 1))%nat
    /\ byteArray cipher.
Proof.
  intros Hl Hk Hb.
  exists (encryptAll (roundKeys (expandKey key)) (padData plain)).
  split.
  - intros [|].
    + destruct (encryptText_tracked plain key Hl Hk Hb) as (e & -> & <-).
      now rewrite bind_Ok.
    + destruct (encryptText_untracked plain key Hl Hk) as (e & -> & <-).
      now rewrite bind_Ok.
  - apply encryptAll_bytes; [now apply expandKey_byteKeys | assumption].
Qed.

Lemma X22_witness :
  length sampleKey = 32%nat /\ byteArray sampleKey /\ byteArray sampleBytes
  /\ exists cipher,
       (forall t, (e <- encryptText sampleBytes sampleKey t ;; Ok (cipherBytes e))
                  = Ok cipher)
       /\ length cipher = (16 * (length sampleBytes / 16 + 1))%nat
       /\ byteArray cipher.
Proof.
  do 3 (split; [reflexivity|]).
  apply (X22_encryptText_succeeds sampleKey sampleBytes); reflexivity.
Defined.

(** X23.  [encryptText] works block by block: for a 32-byte key, block [i]
    of [cipherBytes] is [encryptBlock] of block [i] of the padded input,
    whatever the other blocks are, so equal input blocks give equal output
    blocks. *)
Theorem X23_encryptText_block_by_block (key plain : list val) (i : nat) :
  length key = 32%nat -> byteArray key -> (i < length plain / 16 + 1)%nat ->
  (e <- encryptText plain key false ;; Ok (blockAt (cipherBytes e) i))
  = (r <- encryptBlock (blockAt (padData plain) i) (roundKeys (expandKey key)) false ;;
     Ok (outBlock r)).
Proof.
  intros Hl Hk Hi.
  destruct (encryptText_untracked plain key Hl Hk) as (e & -> & He).
  rewrite encryptBlock_encBytes, !bind_Ok, He. cbn [outBlock]. f_equal.
  rewrite encryptAll_perBlock.
  apply perBlock_blockAt; [apply encBytes_length|].
  now rewrite blockCount_padData.
Qed.

Lemma X23_witness :
  length sampleKey = 32%nat /\ byteArray sampleKey
  /\ (1 < length sampleBytes / 16 + 1)%nat
  /\ (e <- encryptText sampleBytes sampleKey false ;; Ok (blockAt (cipherBytes e) 1))
     = (r <- encryptBlock (blockAt (padData sampleBytes) 1)
                          (roundKeys (expandKey sampleKey)) false ;;
        Ok (outBlock r)).
Proof.
  split; [reflexivity|]. split; [reflexivity|]. split; [cbn; lia|].
  apply (X23_encryptText_block_by_block sampleKey sampleBytes 1);
    [reflexivity | reflexivity | cbn; lia].
Defined.

Lemma decryptAll_bytes (rks : list state) (cipher : list val) (n : nat) :
  byteKeys rks -> length cipher = (16 * n)%nat -> byteArray cipher ->
  length (decryptAll rks cipher) = (16 * n)%nat
  /\ byteArray (decryptAll rks cipher).
Proof.
  intros Hrks Hl Hb. rewrite decryptAll_perBlock. split.
  - rewrite perBlock_length by apply decBytes_length.
    now rewrite Hl, blockCount_full.
  - apply (perBlock_blocks_byteArray _ _ n); try assumption.
    intros b Hbl Hbb. now apply decBytes_byteArray.
Qed.

Lemma encryptAll_decryptAll (rks : list state) (cipher : list val) (n : nat) :
  byteKeys rks -> length cipher = (16 * n)%nat -> byteArray cipher ->
  encryptAll rks (decryptAll rks cipher) = cipher.
Proof.
  intros Hrks Hl Hb. rewrite encryptAll_perBlock, decryptAll_perBlock.
  apply (perBlock_inverse (decBytes rks) (decBytes_length rks) (encBytes rks) cipher n);
    try assumption.
  intros b Hbl Hbb. now apply encBytes_decBytes.
Qed.

(** X24.  For every 32-byte key and every non-empty array of bytes whose
    length is a multiple of 16: when [decryptText] accepts the array,
    [encryptText] of the plaintext it returns is the array again.  With the
    round trip in the other direction, the two functions are inverse of each
    other between the byte arrays and the ciphertexts that decrypt. *)
Theorem X24_encryptText_decryptText (key cipher : list val) :
  length key = 32%nat -> byteArray key ->
  (0 < length cipher)%nat -> (length cipher mod 16 = 0)%nat -> byteArray cipher ->
  (d <- decryptText cipher key false ;;
   e <- encryptText (plainBytes d) key false ;;
   Ok (cipherBytes e))
  = (d <- decryptText cipher key false ;; Ok cipher).
Proof.
  intros Hl Hk Hpos Hmod Hb.
  pose proof (decryptText_untracked cipher key Hl Hk) as Hd.
  destruct (decryptText cipher key false) as [d|err]; [|reflexivity].
  rewrite !bind_Ok in *.
  destruct (encryptText_untracked (plainBytes d) key Hl Hk) as (e & -> & He).
  rewrite bind_Ok, He. f_equal.
  pose proof (expandKey_byteKeys key Hl Hk) as Hrks.
  apply Nat.Div0.div_exact in Hmod.
  rewrite Nat.mul_comm in Hmod.
  destruct (decryptAll_bytes _ cipher (length cipher / 16) Hrks) as [Hdl Hdb];
    [lia | assumption |].
  rewrite (padData_of_unpadData (decryptAll (roundKeys (expandKey key)) cipher)
                                (plainBytes d)).
  - apply (encryptAll_decryptAll _ cipher (length cipher / 16)); [assumption | lia | assumption].
  - lia.
  - rewrite Hdl, Nat.mul_comm. apply Nat.Div0.mod_mul.
  - assumption.
  - now symmetry.
Qed.

Lemma X24_witness :
  length sampleKey = 32%nat /\ byteArray sampleKey
  /\ (0 < length sampleCipher)%nat /\ (length sampleCipher mod 16 = 0)%nat
  /\ byteArray sampleCipher
  /\ (d <- decryptText sampleCipher sampleKey false ;;
      e <- encryptText (plainBytes d) sampleKey false ;;
      Ok (cipherBytes e))
     = (d <- decryptText sampleCipher sampleKey false ;; Ok sampleCipher).
Proof.
  split; [reflexivity|]. split; [reflexivity|].
  split; [vm_compute; lia|]. split; [vm_compute; reflexivity|].
  split; [vm_compute; reflexivity|].
  apply (X24_encryptText_decryptText sampleKey sampleCipher);
    [reflexivity | reflexivity | vm_compute; lia
     | vm_compute; reflexivity | vm_compute; reflexivity].
Defined.

(** X25.  For every 32-byte key and every array of at least 16 bytes,
    [decryptText] gives the same [plainBytes], or raises the same exception,
    with and without tracking: the TypeError that tracking adds is confined
    to ciphertexts shorter than one block. *)
Theorem X25_decryptText_tracking_long (key cipher : list val) :
  length key = 32%nat -> byteArray key ->
  (16 <= length cipher)%nat -> byteArray cipher ->
  (d <- decryptText cipher key true ;; Ok (plainBytes d))
  = (d <- decryptText cipher key false ;; Ok (plainBytes d)).
Proof. apply decryptText_tracking. Qed.

Lemma X25_witness :
  length sampleKey = 32%nat /\ byteArray sampleKey
  /\ (16 <= length sampleCipher)%nat /\ byteArray sampleCipher
  /\ (d <- decryptText sampleCipher sampleKey true ;; Ok (plainBytes d))
     = (d <- decryptText sampleCipher sampleKey false ;; Ok (plainBytes d)).
Proof.
  split; [reflexivity|]. split; [reflexivity|].
  split; [vm_compute; lia|]. split; [vm_compute; reflexivity|].
  apply (X25_decryptText_tracking_long sampleKey sampleCipher);
    [reflexivity | reflexivity | vm_compute; lia | vm_compute; reflexivity].
Defined.

(* ---------------------------------------------------------------------- *)
(** *** The text after each round *)





(* ====================================================================== *)
(** ** Exceptions, and keys that are too short *)
(* ====================================================================== *)

Lemma typeErrorOnly_bind {A B : Type} (m : result A) (k : A -> result B) :
  typeErrorOnly m -> (forall a, typeErrorOnly (k a)) -> typeErrorOnly (bind m k).
Proof. destruct m as [a|e]; cbn [bind typeErrorOnly]; auto. Qed.

Lemma typeErrorOnly_mapM {A B : Type} (f : A -> result B) (l : list A) :
  (forall a, typeErrorOnly (f a)) -> typeErrorOnly (mapM f l).
Proof.
  intros Hf. induction l as [|a l IH]; [exact I|].
  rewrite mapM_cons. apply typeErrorOnly_bind; [apply Hf|].
  intros b. apply typeErrorOnly_bind; [exact IH | intros bs; exact I].
Qed.

Lemma typeErrorOnly_foldM {A S : Type} (body : S -> A -> result S) (l : list A) (s : S) :
  (forall s a, typeErrorOnly (body s a)) -> typeErrorOnly (foldM body l s).
Proof.
  intros Hb. revert s. induction l as [|a l IH]; intros s; [exact I|].
  rewrite foldM_cons. apply typeErrorOnly_bind; [apply Hb | apply IH].
Qed.

Lemma hexByte_errors (v : val) : typeErrorOnly (hexByte v).
Proof. now destruct v. Qed.

Lemma formatStateMatrix_errors (s : state) : typeErrorOnly (formatStateMatrix s).
Proof.
  unfold formatStateMatrix. apply typeErrorOnly_bind; [|intros rows; exact I].
  apply typeErrorOnly_mapM. intros row.
  apply typeErrorOnly_bind; [|intros cells; exact I].
  apply typeErrorOnly_mapM, hexByte_errors.
Qed.

Lemma track_errors (t : bool) (rnd : nat) (stp : string) (st : state)
      (key : option state) :
  typeErrorOnly (track t rnd stp st key).
Proof.
  unfold track. destruct t; [|exact I].
  apply typeErrorOnly_bind; [apply formatStateMatrix_errors|]. intros text.
  apply typeErrorOnly_bind; [|intros keyText; exact I].
  destruct key as [k|]; [|exact I].
  apply typeErrorOnly_bind; [apply formatStateMatrix_errors | intros kt; exact I].
Qed.

Ltac errors_step :=
  repeat (apply typeErrorOnly_bind; [apply track_errors | intros ?]).

Lemma encryptRound_errors (rks : list state) (t : bool)
      (acc : state * list roundDetail) (rnd : nat) :
  typeErrorOnly (encryptRound rks t acc rnd).
Proof. destruct acc as [st details]. unfold encryptRound. errors_step. exact I. Qed.

Lemma decryptRound_errors (rks : list state) (t : bool)
      (acc : state * list roundDetail) (rnd : nat) :
  typeErrorOnly (decryptRound rks t acc rnd).
Proof. destruct acc as [st details]. unfold decryptRound. errors_step. exact I. Qed.

Lemma encryptBlock_errors (block : list val) (rks : list state) (t : bool) :
  typeErrorOnly (encryptBlock block rks t).
Proof.
  unfold encryptBlock. errors_step.
  apply typeErrorOnly_bind; [apply typeErrorOnly_foldM, encryptRound_errors|].
  intros [st details]. errors_step. exact I.
Qed.

Lemma decryptBlock_errors (block : list val) (rks : list state) (t : bool) :
  typeErrorOnly (decryptBlock block rks t).
Proof.
  unfold decryptBlock. errors_step.
  apply typeErrorOnly_bind; [apply typeErrorOnly_foldM, decryptRound_errors|].
  intros [st details]. errors_step. exact I.
Qed.


Lemma mapM_throws {A B : Type} (f : A -> result B) (l : list A) (a : A) :
  (forall x, typeErrorOnly (f x)) -> In a l -> f a = Throw TypeError ->
  mapM f l = Throw TypeError.
Proof.
  intros Hf Hin Ha. induction l as [|x l IH]; [contradiction|].
  rewrite mapM_cons. pose proof (Hf x) as Hx.
  destruct (f x) as [b|e] eqn:Ex.
  - rewrite bind_Ok. destruct Hin as [-> | Hin]; [congruence|].
    now rewrite (IH Hin).
  - cbn in Hx. now subst e.
Qed.

Lemma tab_undefined (f : nat -> nat -> val) (r c : nat) :
  (r < 4)%nat -> (c < 4)%nat -> f r c = Undefined ->
  exists row, In row (tabulate4 f) /\ In Undefined row.
Proof.
  intros Hr Hc H. exists [f r 0; f r 1; f r 2; f r 3]%nat. split.
  - destruct r as [|[|[|[|r]]]]; [| | | | lia]; cbn; auto.
  - rewrite <- H.
    destruct c as [|[|[|[|c]]]]; [| | | | lia]; cbn; auto.
Qed.

Lemma keyAt_roundKeyOf (key : list val) (r : nat) :
  (r <= NUMBER_OF_ROUNDS)%nat ->
  keyAt (roundKeys (expandKey key)) r = roundKeyOf (scheduleWords key) r.
Proof.
  intros Hr. rewrite roundKeys_expandKey. unfold keyAt.
  rewrite nth_indep with (d' := roundKeyOf (scheduleWords key) 0)
    by (rewrite length_map, length_seq; unfold NUMBER_OF_ROUNDS in *; lia).
  rewrite (map_nth (roundKeyOf (scheduleWords key))).
  rewrite seq_nth by (unfold NUMBER_OF_ROUNDS in *; lia). reflexivity.
Qed.

(** The round key that holds the key byte at index [length key] has an
    [undefined] cell when the key is shorter than 32 bytes. *)
Lemma short_key_round_key (key : list val) :
  (length key < 32)%nat ->
  exists rk, In rk (roundKeys (expandKey key))
             /\ formatStateMatrix rk = Throw TypeError.
Proof.
  intros Hlen.
  remember (length key) as i eqn:Ei.
  assert (Hr : (i / 16 < 2)%nat) by (apply Nat.Div0.div_lt_upper_bound; lia).
  assert (Hw : ((i / 4) mod 4 < 4)%nat) by (apply Nat.mod_upper_bound; lia).
  assert (Hb : (i mod 4 < 4)%nat) by (apply Nat.mod_upper_bound; lia).
  assert (Hi : (4 * (i / 16 * 4 + (i / 4) mod 4) + i mod 4 = i)%nat).
  { pose proof (Nat.div_mod_eq i 4) as H1.
    pose proof (Nat.div_mod_eq (i / 4) 4) as H2.
    rewrite (Nat.Div0.div_div i 4 4) in H2. change (4 * 4)%nat with 16%nat in H2. lia. }
  assert (Hget : get key i = Undefined) by (unfold get; apply nth_overflow; lia).
  exists (keyAt (roundKeys (expandKey key)) (i / 16)). split.
  - unfold keyAt. apply nth_In. rewrite expandKey_length. lia.
  - rewrite keyAt_roundKeyOf by (unfold NUMBER_OF_ROUNDS; lia).
    rewrite roundKeyOf_tab.
    apply formatStateMatrix_throws.
    apply (tab_undefined _ (i mod 4) ((i / 4) mod 4) Hb Hw).
    rewrite scheduleWords_key by lia.
    transitivity (get key (4 * (i / 16 * 4 + (i / 4) mod 4) + i mod 4));
      [| now rewrite Hi].
    clear Hi.
    destruct (i mod 4)%nat as [|[|[|[|b]]]]; [| | | | lia];
      unfold get at 1; cbn [nth]; f_equal; lia.
Qed.

Lemma encryptText_errors (plain key : list val) (t : bool) :
  typeErrorOnly (encryptText plain key t).
Proof.
  unfold encryptText. apply typeErrorOnly_bind.
  - destruct t.
    + now destruct (encryptAllTracked _ _).
    + rewrite encryptAllPlain_eq. exact I.
  - intros [cipher complete]. apply typeErrorOnly_bind.
    + destruct t; [|exact I].
      apply typeErrorOnly_bind; [apply encryptBlock_errors | intros r; exact I].
    + intros details. apply typeErrorOnly_bind; [|intros texts; exact I].
      apply typeErrorOnly_mapM, formatStateMatrix_errors.
Qed.

Lemma unpadData_errors (data : list val) :
  match unpadData data with
  | Ok _ => True
  | Throw e => e = Error "Invalid padding"
  end.
Proof. pose proof (unpadData_result data) as H. now destruct (unpadData data). Qed.

Lemma decryptText_errors (cipher key : list val) (t : bool) :
  match decryptText cipher key t with
  | Ok _ => True
  | Throw e => e = TypeError \/ e = Error "Invalid padding"
  end.
Proof.
  unfold decryptText.
  match goal with
  | |- match bind ?m _ with _ => _ end =>
      assert (Hm : match m with
                   | Ok _ => True
                   | Throw e => e = Error "Invalid padding"
                   end)
  end.
  { destruct t.
    - destruct (decryptAllTracked _ _) as [full complete].
      pose proof (unpadData_errors full) as H. now destruct (unpadData full).
    - rewrite decryptAllPlain_eq, bind_Ok.
      pose proof (unpadData_errors (decryptAll (roundKeys (expandKey key)) cipher)) as H.
      now destruct (unpadData _). }
  match goal with
  | |- match bind ?m _ with _ => _ end => destruct m as [[plain complete]|e]
  end; [| now right].
  rewrite bind_Ok.
  match goal with
  | |- match ?r with _ => _ end =>
      assert (Hr : typeErrorOnly r); [| destruct r; [exact I | now left]]
  end.
  apply typeErrorOnly_bind.
  - destruct t; [|exact I].
    apply typeErrorOnly_bind; [apply decryptBlock_errors | intros r; exact I].
  - intros details. apply typeErrorOnly_bind; [|intros texts; exact I].
    apply typeErrorOnly_mapM, formatStateMatrix_errors.
Qed.

(** X27.  Whatever the input, the key and the tracking flag, the only
    exception that [encryptText] can raise is a TypeError, and the only
    exceptions that [decryptText] can raise are a TypeError and the error
    "Invalid padding": neither function raises an error about the length of
    the key or of the ciphertext. *)
Theorem X27_exceptions_of_the_text_functions (data key : list val) (t : bool) :
  match encryptText data key t with
  | Ok _ => True
  | Throw e => e = TypeError
  end
  /\ match decryptText data key t with
     | Ok _ => True
     | Throw e => e = TypeError \/ e = Error "Invalid padding"
     end.
Proof.
  split; [apply (encryptText_errors data key t) | apply decryptText_errors].
Qed.

Lemma format_short_key (key : list val) :
  (length key < 32)%nat ->
  mapM formatStateMatrix (roundKeys (expandKey key)) = Throw TypeError.
Proof.
  intros Hlen. destruct (short_key_round_key key Hlen) as (rk & Hin & Hrk).
  apply (mapM_throws formatStateMatrix _ rk);
    [apply formatStateMatrix_errors | assumption | assumption].
Qed.

(** X28.  With a key of fewer than 32 entries, [encryptText] raises a
    TypeError for every input, with and without tracking, and [decryptText]
    raises a TypeError or the error "Invalid padding": a missing key byte
    leaves an [undefined] cell in the first or the second round key, and the
    cell is hit when the round keys are formatted for the result. *)
Theorem X28_short_key (key data : list val) (t : bool) :
  (length key < 32)%nat ->
  encryptText data key t = Throw TypeError
  /\ (decryptText data key t = Throw TypeError
      \/ decryptText data key t = Throw (Error "Invalid padding")).
Proof.
  intros Hlen. pose proof (format_short_key key Hlen) as Hfmt. split.
  - pose proof (encryptText_errors data key t) as He.
    assert (Hno : forall e, encryptText data key t <> Ok e).
    { intros e. unfold encryptText. rewrite Hfmt.
      destruct (if t then _ else _) as [[c complete]|]; [|discriminate].
      rewrite bind_Ok.
      destruct (if t then _ else _) as [details|]; discriminate. }
    destruct (encryptText data key t) as [e|err]; [now destruct (Hno e)|].
    cbn in He. now subst err.
  - pose proof (decryptText_errors data key t) as Hd.
    assert (Hno : forall d, decryptText data key t <> Ok d).
    { intros d. unfold decryptText. rewrite Hfmt.
      destruct (if t then _ else _) as [[p complete]|]; [|discriminate].
      rewrite bind_Ok.
      destruct (if t then _ else _) as [details|]; discriminate. }
    destruct (decryptText data key t) as [d|err]; [now destruct (Hno d)|].
    destruct Hd as [-> | ->]; [now left | now right].
Qed.

Lemma X28_witness :
  (length shortKey < 32)%nat
  /\ encryptText sampleBytes shortKey true = Throw TypeError.
Proof.
  split; [cbn; lia|].
  apply (X28_short_key shortKey sampleBytes true). cbn; lia.
Defined.

(* ====================================================================== *)
(** ** RoundDetailsViewer.jsx: the cipher text in groups *)
(* ====================================================================== *)

Lemma chars_of_append (s1 s2 : string) :
  list_ascii_of_string (s1 ++ s2)
  = list_ascii_of_string s1 ++ list_ascii_of_string s2.
Proof.
  induction s1 as [|c s1 IH]; [reflexivity|].
  cbn [append list_ascii_of_string app]. now rewrite IH.
Qed.

Lemma digits_of_groups (groups : list (list ascii)) :
  filter isHexDigit
         (list_ascii_of_string (String.concat " " (map string_of_list_ascii groups)))
  = filter isHexDigit (concat groups).
Proof.
  induction groups as [|g groups IH]; [reflexivity|].
  destruct groups as [|g' groups].
  - cbn [map String.concat concat]. rewrite app_nil_r.
    now rewrite list_ascii_of_string_of_list_ascii.
  - change (String.concat " " (map string_of_list_ascii (g :: g' :: groups)))
      with (string_of_list_ascii g ++ " "
            ++ String.concat " " (map string_of_list_ascii (g' :: groups)))%string.
    rewrite !chars_of_append, list_ascii_of_string_of_list_ascii.
    rewrite !filter_app, IH.
    change (concat (g :: g' :: groups)) with (g ++ concat (g' :: groups)).
    rewrite filter_app. reflexivity.
Qed.

Lemma concat_piecesOf (fuel : nat) (chars : list ascii) :
  (length chars <= fuel)%nat -> concat (piecesOf fuel chars) = chars.
Proof.
  revert chars. induction fuel as [|fuel IH]; intros chars Hlen.
  - destruct chars; [reflexivity | cbn in Hlen; lia].
  - destruct chars as [|c chars]; [reflexivity|].
    cbn [piecesOf concat]. rewrite IH.
    + apply firstn_skipn.
    + rewrite length_skipn. cbn [length] in *. lia.
Qed.

Lemma formatCipherText_digits (bytes : list val) (hex : string) :
  bytesToHex bytes = Ok hex ->
  exists text, formatCipherText bytes = Ok text /\ hexToBytes text = hexToBytes hex.
Proof.
  intros Hhex. unfold formatCipherText. rewrite Hhex, bind_Ok. cbv zeta.
  eexists. split; [reflexivity|].
  destruct (String.eqb _ _); [reflexivity|].
  unfold hexToBytes, cleanHex. f_equal.
  rewrite digits_of_groups, concat_piecesOf by lia. reflexivity.
Qed.

(** X29.  For every array of bytes, [formatCipherText] succeeds and the text
    it displays, read by [hexToBytes], gives the bytes back: grouping the
    hexadecimal digits by 32 only adds spaces, which [hexToBytes] drops. *)
Theorem X29_formatCipherText_round_trip (bytes : list val) :
  byteArray bytes ->
  (text <- formatCipherText bytes ;; Ok (hexToBytes text)) = Ok bytes.
Proof.
  intros Hb. destruct (hex_round_trip bytes Hb) as (hex & Hhex & Hback & _).
  destruct (formatCipherText_digits bytes hex Hhex) as (text & -> & Htext).
  rewrite bind_Ok. now rewrite Htext, Hback.
Qed.

Lemma X29_witness :
  byteArray sampleBytes
  /\ (text <- formatCipherText sampleBytes ;; Ok (hexToBytes text)) = Ok sampleBytes.
Proof.
  split; [reflexivity|].
  apply (X29_formatCipherText_round_trip sampleBytes). reflexivity.
Defined.

(* ====================================================================== *)
(** ** The earlier text functions *)
(* ====================================================================== *)

Lemma earlier_encrypt_loop (data : list val) (rks : list state) (l : list nat)
      (acc : list val) (details : list roundDetail) :
  foldM (Earlier.encryptStep data rks false) l (acc, details)
  = Ok (acc ++ flat_map (fun i => encBytes rks (blockAt data i)) l, details).
Proof.
  revert acc. induction l as [|i l IH]; intros acc.
  - cbn [foldM flat_map]. now rewrite app_nil_r.
  - rewrite foldM_cons. unfold Earlier.encryptStep at 1.
    cbn [andb]. rewrite encryptBlock_encBytes, !bind_Ok. cbn [outBlock].
    rewrite IH. cbn [flat_map]. now rewrite app_assoc.
Qed.

Lemma earlier_decrypt_loop (data : list val) (rks : list state) (l : list nat)
      (acc : list val) (details : list roundDetail) :
  foldM (Earlier.decryptStep data rks false) l (acc, details)
  = Ok (acc ++ flat_map (fun i => decBytes rks (blockAt data i)) l, details).
Proof.
  revert acc. induction l as [|i l IH]; intros acc.
  - cbn [foldM flat_map]. now rewrite app_nil_r.
  - rewrite foldM_cons. unfold Earlier.decryptStep at 1.
    cbn [andb]. rewrite decryptBlock_decBytes, !bind_Ok. cbn [outBlock].
    rewrite IH. cbn [flat_map]. now rewrite app_assoc.
Qed.

Lemma earlier_encryptText_untracked (plain key : list val) :
  (e <- Earlier.encryptText plain key false ;; Ok (Earlier.cipherBytes e))
  = (e <- encryptText plain key false ;; Ok (cipherBytes e)).
Proof.
  unfold Earlier.encryptText, encryptText.
  rewrite earlier_encrypt_loop, encryptAllPlain_eq, !bind_Ok.
  destruct (mapM formatStateMatrix (roundKeys (expandKey key))) as [texts|e];
    reflexivity.
Qed.

Lemma earlier_decryptText_untracked (cipher key : list val) :
  (d <- Earlier.decryptText cipher key false ;; Ok (Earlier.plainBytes d))
  = (d <- decryptText cipher key false ;; Ok (plainBytes d)).
Proof.
  unfold Earlier.decryptText, decryptText.
  rewrite earlier_decrypt_loop, decryptAllPlain_eq, !bind_Ok.
  cbn [app]. fold (decryptAll (roundKeys (expandKey key)) cipher).
  destruct (unpadData (decryptAll (roundKeys (expandKey key)) cipher)) as [plain|e];
    [|reflexivity].
  rewrite !bind_Ok.
  destruct (mapM formatStateMatrix (roundKeys (expandKey key))) as [texts|e];
    reflexivity.
Qed.

Lemma earlier_encrypt_loop_tracked (data : list val) (rks : list state) (n : nat)
      (t : bool) (l : list nat) (acc : list val) (details : list roundDetail) :
  byteKeys rks -> length data = (16 * n)%nat -> byteArray data ->
  Forall (fun i => i < n)%nat l ->
  exists details',
    foldM (Earlier.encryptStep data rks t) l (acc, details)
    = Ok (acc ++ flat_map (fun i => encBytes rks (blockAt data i)) l, details').
Proof.
  intros Hrks Hl Hb. revert acc details.
  induction l as [|i l IH]; intros acc details Hall.
  - exists details. cbn [foldM flat_map]. now rewrite app_nil_r.
  - inversion Hall as [|? ? Hi Hrest]; subst.
    rewrite foldM_cons. unfold Earlier.encryptStep at 1.
    destruct (encryptBlock_ok rks Hrks (t && (i =? 0)%nat) (blockAt data i))
      as [ds E].
    + now apply (blockAt_length n).
    + now apply blockAt_byteArray.
    + rewrite E, !bind_Ok. cbn [outBlock blockDetails].
      destruct (IH (acc ++ encBytes rks (blockAt data i))
                   (if t && (i =? 0)%nat then ds else details) Hrest)
        as [details' ->].
      exists details'. cbn [flat_map]. now rewrite app_assoc.
Qed.

Lemma earlier_encryptText_cipher (plain key : list val) (t : bool) :
  length key = 32%nat -> byteArray key -> byteArray plain ->
  (e <- Earlier.encryptText plain key t ;; Ok (Earlier.cipherBytes e))
  = Ok (encryptAll (roundKeys (expandKey key)) (padData plain)).
Proof.
  intros Hl Hk Hb.
  destruct (formatRoundKeys_ok key Hl Hk) as [texts Ht].
  pose proof (expandKey_byteKeys key Hl Hk) as Hrks.
  unfold Earlier.encryptText.
  destruct (earlier_encrypt_loop_tracked
              (padData plain) (roundKeys (expandKey key)) (length plain / 16 + 1) t
              (seq 0 (blockCount (length (padData plain)))) [] [] Hrks)
    as [details ->].
  - apply padData_length.
  - now apply padData_byteArray.
  - apply Forall_forall. intros i Hi. apply in_seq in Hi.
    rewrite blockCount_padData in Hi. lia.
  - rewrite bind_Ok, Ht, !bind_Ok. reflexivity.
Qed.

(** X30.  For a 32-byte key and an array of bytes, the earlier version of
    [encryptText] returns the same [cipherBytes] as the current one, with and
    without tracking, and without tracking the earlier [decryptText] returns
    the same bytes, or raises the same exception, as the current one.  With
    tracking, the earlier [decryptText] returns the empty plaintext for the
    empty ciphertext, the input on which the current one raises. *)
Theorem X30_earlier_text_functions (key data : list val) :
  length key = 32%nat -> byteArray key -> byteArray data ->
  (forall t,
     (e <- Earlier.encryptText data key t ;; Ok (Earlier.cipherBytes e))
     = (e <- encryptText data key t ;; Ok (cipherBytes e)))
  /\ (d <- Earlier.decryptText data key false ;; Ok (Earlier.plainBytes d))
     = (d <- decryptText data key false ;; Ok (plainBytes d))
  /\ (d <- Earlier.decryptText [] key true ;; Ok (Earlier.plainBytes d)) = Ok [].
Proof.
  intros Hl Hk Hb.
  split; [|split; [apply earlier_decryptText_untracked|]].
  - intros t. rewrite earlier_encryptText_cipher by assumption.
    destruct t.
    + destruct (encryptText_tracked data key Hl Hk Hb) as (e & -> & <-).
      now rewrite bind_Ok.
    + destruct (encryptText_untracked data key Hl Hk) as (e & -> & <-).
      now rewrite bind_Ok.
  - destruct (formatRoundKeys_ok key Hl Hk) as [texts Ht].
    unfold Earlier.decryptText.
    change (blockCount (length (@nil val))) with 0%nat. cbn [seq foldM].
    rewrite bind_Ok. cbn [unpadData]. rewrite bind_Ok, Ht, !bind_Ok. reflexivity.
Qed.

Lemma X30_witness :
  length sampleKey = 32%nat /\ byteArray sampleKey /\ byteArray sampleBytes
  /\ (forall t,
        (e <- Earlier.encryptText sampleBytes sampleKey t ;; Ok (Earlier.cipherBytes e))
        = (e <- encryptText sampleBytes sampleKey t ;; Ok (cipherBytes e)))
  /\ (d <- Earlier.decryptText sampleBytes sampleKey false ;; Ok (Earlier.plainBytes d))
     = (d <- decryptText sampleBytes sampleKey false ;; Ok (plainBytes d))
  /\ (d <- Earlier.decryptText [] sampleKey true ;; Ok (Earlier.plainBytes d)) = Ok [].
Proof.
  do 3 (split; [reflexivity|]).
  exact (X30_earlier_text_functions sampleKey sampleBytes eq_refl eq_refl eq_refl).
Defined.
